(** * SkeletonKey: the trace format, its writer and reader, and the
      interposition shim, embedded from [src/skeletonkey.cpp] and
      [src/reader.cpp].

    Integers of a fixed width are values of [Z] with the wrap-around of
    every cast written out; a byte is a [Z] in [0, 256); a pointer is its
    64-bit integer pattern. *)

From Stdlib Require Import ZArith List Bool Sorted Lia.
From Stdlib Require String.
From coqutil Require Import Z.bitblast.
Import ListNotations String.StringSyntax.
Local Open Scope string_scope.
Local Open Scope list_scope.
Local Open Scope Z_scope.

(* ================================================================== *)
(** * Part I.  The embedding                                           *)
(* ================================================================== *)

(** ** Fixed-width integers and the casts the sources perform *)

Definition is_u8 (x : Z) : Prop := 0 <= x < 2 ^ 8.
Definition is_u32 (x : Z) : Prop := 0 <= x < 2 ^ 32.
Definition is_u64 (x : Z) : Prop := 0 <= x < 2 ^ 64.
Definition is_i32 (x : Z) : Prop := - 2 ^ 31 <= x < 2 ^ 31.

(** [static_cast<uint64_t>(x)], also from a signed value (sign extension
    followed by reinterpretation is reduction modulo 2^64). *)
Definition to_u64 (x : Z) : Z := x mod 2 ^ 64.
(** [static_cast<uint32_t>(x)] and the implicit [uint32_t v = <uint64_t>]. *)
Definition to_u32 (x : Z) : Z := x mod 2 ^ 32.
(** [static_cast<uint8_t>(x)]. *)
Definition to_u8 (x : Z) : Z := x mod 2 ^ 8.
(** The implicit [int32_t v = <uint64_t>]: the low 32 bits, read as
    two's complement. *)
Definition to_i32 (x : Z) : Z := (x + 2 ^ 31) mod 2 ^ 32 - 2 ^ 31.

(** The target machine.  [x << s] on a [uint64_t] is defined by C++ only
    for [s < 64]; what an over-wide shift yields is left to the machine,
    and every result below holds whatever it is. *)
Class Machine := { wide_shl : Z -> Z -> Z }.

Definition shl64 `{Machine} (x s : Z) : Z :=
  if s <? 64 then Z.shiftl x s mod 2 ^ 64 else wide_shl x s mod 2 ^ 64.

(** ** [VarIntWriter] (skeletonkey.cpp) *)

Record VarIntWriter := { buffer : list Z }.

(** The [do ... while (value)] loop of [encodeVarInt].  Every round
    shifts seven bits out of a 64-bit word, so the word size is fuel
    enough ([encodeVarInt_loop_fuel] below); the [O] branch is never
    reached from [encodeVarInt]. *)
Fixpoint encodeVarInt_loop (fuel : nat) (value : Z) (buf : list Z) : list Z :=
  match fuel with
  | O => buf
  | S fuel' =>
      let byte := Z.land value 0x7F in
      let value := Z.shiftr value 7 in
      let byte := if value =? 0 then byte else Z.lor byte 0x80 in
      let buf := buf ++ [byte] in
      if value =? 0 then buf else encodeVarInt_loop fuel' value buf
  end.

Definition encodeVarInt (value : Z) (w : VarIntWriter) : VarIntWriter :=
  {| buffer := encodeVarInt_loop 64 value (buffer w) |}.

Definition clear (w : VarIntWriter) : VarIntWriter := {| buffer := [] |}.

(** [write(uint64_t)]. *)
Definition write (value : Z) (w : VarIntWriter) : VarIntWriter :=
  encodeVarInt value w.

(** [write(EventType)]: one raw byte. *)
Definition write_type (type : Z) (w : VarIntWriter) : VarIntWriter :=
  {| buffer := buffer w ++ [to_u8 type] |}.

Definition writePtr (ptr : Z) (w : VarIntWriter) : VarIntWriter :=
  encodeVarInt (to_u64 ptr) w.

(** The [for (i = 0; i < depth; i++)] loop of [writeStack], counting
    [i] up from [depth - n]. *)
Fixpoint writeStack_loop (stack : list Z) (i : nat) (n : nat)
    (w : VarIntWriter) : VarIntWriter :=
  match n with
  | O => w
  | S n' =>
      writeStack_loop stack (S i) n'
        (encodeVarInt (to_u64 (nth i stack 0)) w)
  end.

Definition writeStack (stack : list Z) (depth : Z) (w : VarIntWriter)
    : VarIntWriter :=
  writeStack_loop stack 0 (Z.to_nat depth) (encodeVarInt depth w).

Definition data (w : VarIntWriter) : list Z := buffer w.
Definition size (w : VarIntWriter) : nat := length (buffer w).

(** ** [VarIntReader] (reader.cpp) *)

Record VarIntReader := { buffer_ : list Z; pos_ : nat }.

(** The [while (pos_ < buffer_.size())] loop of [readVarInt], run over
    the unread bytes [buffer_[pos_ ..]]; it returns the value and the
    number of bytes it consumed. *)
Fixpoint readVarInt_loop `{Machine} (unread : list Z) (result shift : Z)
    : Z * nat :=
  match unread with
  | [] => (result, O)
  | byte :: unread' =>
      let result := Z.lor result (shl64 (Z.land byte 0x7F) shift) in
      if Z.land byte 0x80 =? 0 then (result, 1%nat)
      else
        let (r, n) := readVarInt_loop unread' result (shift + 7) in
        (r, S n)
  end.

Definition readVarInt `{Machine} (r : VarIntReader) : Z * VarIntReader :=
  let (v, n) := readVarInt_loop (skipn (pos_ r) (buffer_ r)) 0 0 in
  (v, {| buffer_ := buffer_ r; pos_ := (pos_ r + n)%nat |}).

(** [buffer_[pos_++]] without a bounds check: indexing past the end of
    the vector has no defined behaviour, which is [None] here. *)
Definition readEventType (r : VarIntReader) : option (Z * VarIntReader) :=
  match nth_error (buffer_ r) (pos_ r) with
  | Some byte => Some (byte, {| buffer_ := buffer_ r; pos_ := S (pos_ r) |})
  | None => None
  end.

Definition readPtr `{Machine} (r : VarIntReader) : Z * VarIntReader :=
  readVarInt r.

Fixpoint readStack_loop `{Machine} (n : nat) (r : VarIntReader)
    : list Z * VarIntReader :=
  match n with
  | O => ([], r)
  | S n' =>
      let (p, r1) := readPtr r in
      let (ps, r2) := readStack_loop n' r1 in
      (p :: ps, r2)
  end.

(** [readStack].  The allocation [stack.reserve(depth)] asks for is
    taken to succeed; on a host that cannot provide it the call throws
    [std::bad_alloc], an end of the run this model has no outcome for. *)
Definition readStack `{Machine} (r : VarIntReader) : list Z * VarIntReader :=
  let (v, r1) := readVarInt r in
  let depth := to_u32 v in
  readStack_loop (Z.to_nat depth) r1.

Definition eof (r : VarIntReader) : bool :=
  (length (buffer_ r) <=? pos_ r)%nat.

(** ** The decoded record and the decoder's [main] (reader.cpp)

    [Event] has the fields [main] reads into its locals, in the order it
    reads them; [type] is the [uint8_t] behind [enum class EventType]. *)

Record Event := {
  timestamp : Z;
  tid : Z;
  type : Z;
  ptr1 : Z;
  ptr2 : Z;
  result : Z;
  duration_ns : Z;
  stack : list Z
}.

(** The tags of [enum class EventType : uint8_t], the same in both
    sources. *)
Definition ThreadCreate : Z := 0.
Definition MutexInit : Z := 1.
Definition MutexDestroy : Z := 2.
Definition MutexLock : Z := 3.
Definition MutexLockDone : Z := 4.
Definition MutexTryLock : Z := 5.
Definition MutexTryLockDone : Z := 6.
Definition MutexTimedLock : Z := 7.
Definition MutexTimedLockDone : Z := 8.
Definition MutexUnlock : Z := 9.
Definition RWLockInit : Z := 10.
Definition RWLockDestroy : Z := 11.
Definition RWLockRead : Z := 12.
Definition RWLockReadDone : Z := 13.
Definition RWLockTryRead : Z := 14.
Definition RWLockTryReadDone : Z := 15.
Definition RWLockTimedRead : Z := 16.
Definition RWLockTimedReadDone : Z := 17.
Definition RWLockWrite : Z := 18.
Definition RWLockWriteDone : Z := 19.
Definition RWLockTryWrite : Z := 20.
Definition RWLockTryWriteDone : Z := 21.
Definition RWLockTimedWrite : Z := 22.
Definition RWLockTimedWriteDone : Z := 23.
Definition RWLockUnlock : Z := 24.
Definition CondInit : Z := 25.
Definition CondDestroy : Z := 26.
Definition CondSignal : Z := 27.
Definition CondBroadcast : Z := 28.
Definition CondWait : Z := 29.
Definition CondWaitDone : Z := 30.
Definition CondTimedWait : Z := 31.
Definition CondTimedWaitDone : Z := 32.

(** One round of the [while (!reader.eof())] loop of [main], up to the
    printing: the eight reads, in source order. *)
Definition read_event `{Machine} (r : VarIntReader)
    : option (Event * VarIntReader) :=
  let (timestamp, r) := readVarInt r in
  let (v, r) := readVarInt r in
  let tid := to_u32 v in
  match readEventType r with
  | None => None
  | Some (type, r) =>
      let (ptr1, r) := readPtr r in
      let (ptr2, r) := readPtr r in
      let (v, r) := readVarInt r in
      let result := to_i32 v in
      let (duration, r) := readVarInt r in
      let (stack, r) := readStack r in
      Some ({| timestamp := timestamp; tid := tid; type := type;
               ptr1 := ptr1; ptr2 := ptr2; result := result;
               duration_ns := duration; stack := stack |}, r)
  end.

(** How a run of the decoder ends: [return 0], or a read past the end of
    the buffer.  [FuelExhausted] belongs to the model only and is never
    the outcome of [main] ([main_never_out_of_fuel]). *)
Inductive Outcome := Exit0 | OutOfBoundsRead | FuelExhausted.

(** The decoding loop; the events are returned in the order they are
    printed (the text of a printed line is not modelled). *)
Fixpoint main_loop `{Machine} (fuel : nat) (r : VarIntReader)
    : list Event * Outcome :=
  match fuel with
  | O => ([], FuelExhausted)
  | S fuel' =>
      if eof r then ([], Exit0)
      else
        match read_event r with
        | None => ([], OutOfBoundsRead)
        | Some (e, r') =>
            let (es, o) := main_loop fuel' r' in
            (e :: es, o)
        end
  end.

(** [main] on a readable trace file with the bytes [file]; a round of
    the loop consumes at least one byte. *)
Definition main `{Machine} (file : list Z) : list Event * Outcome :=
  main_loop (S (length file)) {| buffer_ := file; pos_ := 0 |}.

(** ** [EventLogger] (skeletonkey.cpp) *)

(** [std::ofstream]: writes to a stream that failed to open are lost. *)
Record ofstream := { is_open : bool; contents : list Z }.

Definition ofstream_write (bytes : list Z) (f : ofstream) : ofstream :=
  if is_open f then {| is_open := true; contents := contents f ++ bytes |}
  else f.

Record EventLogger := {
  log_ : ofstream;
  initialized_ : bool;
  writer_ : VarIntWriter
}.

Definition MAX_STACK_DEPTH : nat := 16.

(** Lines 170-179 of [EventLogger::log]: the record goes into the
    cleared scratch buffer field by field. *)
Definition write_event (e : Event) (w : VarIntWriter) : VarIntWriter :=
  let w := clear w in
  let w := write (timestamp e) w in
  let w := write (tid e) w in
  let w := write_type (type e) w in
  let w := writePtr (ptr1 e) w in
  let w := writePtr (ptr2 e) w in
  let w := write (to_u64 (result e)) w in
  let w := write (duration_ns e) w in
  writeStack (stack e) (Z.of_nat (length (stack e))) w.

(** The platform under the shim: the running process as far as the shim
    observes it.  A real entry point takes its arguments as integer
    patterns and returns its [int]. *)
Class Host := {
  World : Type;
  (** the return addresses [backtrace] would walk, innermost first *)
  call_stack : World -> list Z;
  (** [steady_clock::now().time_since_epoch()] in nanoseconds *)
  steady_clock_now : World -> Z * World;
  (** [syscall(SYS_gettid)] *)
  gettid : World -> Z;
  getenv : String.string -> World -> option String.string;
  (** whether opening the path for truncate-write succeeds *)
  open_trunc : String.string -> World -> bool;
  (** [dlsym(RTLD_NEXT, name)] and [dlvsym(RTLD_NEXT, name, version)];
      [None] is the null pointer *)
  dlsym : String.string -> World -> option (list Z -> World -> Z * World);
  dlvsym : String.string -> String.string -> World -> option (list Z -> World -> Z * World);
  (** [&write_mutex_]: where the logger singleton keeps its mutex *)
  write_mutex_address : Z
}.

Definition RealFn `{Host} : Type := list Z -> World -> Z * World.

(** [backtrace(buf, size)] fills at most [size] entries. *)
Definition backtrace `{Host} (size : nat) (w : World) : list Z :=
  firstn size (call_stack w).

Definition EventLogger_init `{Host} (filename : String.string) (w : World)
    (l : EventLogger) : EventLogger :=
  if initialized_ l then l
  else {| log_ := {| is_open := open_trunc filename w; contents := [] |};
          initialized_ := true;
          writer_ := writer_ l |}.

(** [EventLogger::log] as it runs under its [std::lock_guard]: the test
    of [initialized_] (line 154) and lines 158-182.  Taking and
    releasing [write_mutex_] (line 156 and the end of the scope) calls
    back into the shim; those two calls are made by [instance_log]
    below, around this function.  How several threads interleave on the
    mutex is the relation [step] further down. *)
Definition log `{Host} (type ptr1 ptr2 result duration_ns : Z)
    (lw : EventLogger * World) : EventLogger * World :=
  let (l, w) := lw in
  if negb (initialized_ l) then (l, w)
  else
    let stack := backtrace MAX_STACK_DEPTH w in
    let depth := length stack in
    let (now, w) := steady_clock_now w in
    let timestamp := to_u64 now in
    let tid := to_u32 (gettid w) in
    let wr :=
      write_event {| timestamp := timestamp; tid := tid; type := type;
                     ptr1 := ptr1; ptr2 := ptr2; result := result;
                     duration_ns := duration_ns; stack := stack |}
                  (writer_ l) in
    ({| log_ := ofstream_write (firstn (size wr) (data wr)) (log_ l);
        initialized_ := initialized_ l;
        writer_ := wr |}, w).

(** ** The interposition shim (skeletonkey.cpp) *)

(** The slots of the resolver table: the static function pointers
    [real_pthread_*], in the order they are declared. *)
Inductive Symbol :=
  | real_pthread_mutex_init
  | real_pthread_mutex_destroy
  | real_pthread_mutex_lock
  | real_pthread_mutex_trylock
  | real_pthread_mutex_timedlock
  | real_pthread_mutex_unlock
  | real_pthread_cond_init
  | real_pthread_cond_destroy
  | real_pthread_cond_signal
  | real_pthread_cond_broadcast
  | real_pthread_cond_wait
  | real_pthread_cond_timedwait
  | real_pthread_create
  | real_pthread_rwlock_init
  | real_pthread_rwlock_destroy
  | real_pthread_rwlock_rdlock
  | real_pthread_rwlock_tryrdlock
  | real_pthread_rwlock_timedrdlock
  | real_pthread_rwlock_wrlock
  | real_pthread_rwlock_trywrlock
  | real_pthread_rwlock_timedwrlock
  | real_pthread_rwlock_unlock.

Definition Symbol_eq_dec (a b : Symbol) : {a = b} + {a <> b}.
Proof. decide equality. Defined.

(** What one thread sees of the process: its own [in_hook], the resolver
    table, the logger singleton and the platform. *)
Record Shim `{Host} := {
  in_hook : bool;
  reals : Symbol -> option RealFn;
  logger : EventLogger;
  world : World
}.

Definition set_in_hook `{Host} (b : bool) (st : Shim) : Shim :=
  {| in_hook := b; reals := reals st; logger := logger st;
     world := world st |}.

Definition set_real `{Host} (s : Symbol) (f : option RealFn) (st : Shim)
    : Shim :=
  {| in_hook := in_hook st;
     reals := fun s' => if Symbol_eq_dec s s' then f else reals st s';
     logger := logger st; world := world st |}.

(** The process as the library is loaded: every pointer null, the
    logger default-constructed. *)
Definition loaded `{Host} (w : World) : Shim :=
  {| in_hook := false;
     reals := fun _ => None;
     logger := {| log_ := {| is_open := false; contents := [] |};
                  initialized_ := false;
                  writer_ := {| buffer := [] |} |};
     world := w |}.

(** The library constructor: six versioned lookups, sixteen plain ones,
    then the logger is opened on the path from the environment.  No
    lookup result is tested. *)
Definition init_skeleton_key `{Host} (st : Shim) : Shim :=
  let w := world st in
  let st := set_real real_pthread_cond_init
              (dlvsym "pthread_cond_init" "GLIBC_2.3.2" w) st in
  let st := set_real real_pthread_cond_destroy
              (dlvsym "pthread_cond_destroy" "GLIBC_2.3.2" w) st in
  let st := set_real real_pthread_cond_signal
              (dlvsym "pthread_cond_signal" "GLIBC_2.3.2" w) st in
  let st := set_real real_pthread_cond_broadcast
              (dlvsym "pthread_cond_broadcast" "GLIBC_2.3.2" w) st in
  let st := set_real real_pthread_cond_wait
              (dlvsym "pthread_cond_wait" "GLIBC_2.3.2" w) st in
  let st := set_real real_pthread_cond_timedwait
              (dlvsym "pthread_cond_timedwait" "GLIBC_2.3.2" w) st in
  let st := set_real real_pthread_mutex_init (dlsym "pthread_mutex_init" w) st in
  let st := set_real real_pthread_mutex_destroy (dlsym "pthread_mutex_destroy" w) st in
  let st := set_real real_pthread_mutex_lock (dlsym "pthread_mutex_lock" w) st in
  let st := set_real real_pthread_mutex_trylock (dlsym "pthread_mutex_trylock" w) st in
  let st := set_real real_pthread_mutex_timedlock (dlsym "pthread_mutex_timedlock" w) st in
  let st := set_real real_pthread_mutex_unlock (dlsym "pthread_mutex_unlock" w) st in
  let st := set_real real_pthread_create (dlsym "pthread_create" w) st in
  let st := set_real real_pthread_rwlock_init (dlsym "pthread_rwlock_init" w) st in
  let st := set_real real_pthread_rwlock_destroy (dlsym "pthread_rwlock_destroy" w) st in
  let st := set_real real_pthread_rwlock_rdlock (dlsym "pthread_rwlock_rdlock" w) st in
  let st := set_real real_pthread_rwlock_tryrdlock (dlsym "pthread_rwlock_tryrdlock" w) st in
  let st := set_real real_pthread_rwlock_timedrdlock (dlsym "pthread_rwlock_timedrdlock" w) st in
  let st := set_real real_pthread_rwlock_wrlock (dlsym "pthread_rwlock_wrlock" w) st in
  let st := set_real real_pthread_rwlock_trywrlock (dlsym "pthread_rwlock_trywrlock" w) st in
  let st := set_real real_pthread_rwlock_timedwrlock (dlsym "pthread_rwlock_timedwrlock" w) st in
  let st := set_real real_pthread_rwlock_unlock (dlsym "pthread_rwlock_unlock" w) st in
  let filename :=
    match getenv "SKELETON_KEYOUTPUT" w with
    | Some filename => filename
    | None => "/tmp/skeleton_key.bin"
    end in
  {| in_hook := in_hook st; reals := reals st;
     logger := EventLogger_init filename w (logger st);
     world := world st |}.

(** A call through [real_pthread_*]; through a null pointer it has no
    defined behaviour, which is [None]. *)
Definition call `{Host} (s : Symbol) (args : list Z) (st : Shim)
    : option (Z * Shim) :=
  match reals st s with
  | None => None
  | Some f =>
      let (r, w) := f args (world st) in
      Some (r, {| in_hook := in_hook st; reals := reals st;
                  logger := logger st; world := w |})
  end.

(** [std::lock_guard<std::mutex> lock(write_mutex_)] (line 156).  The
    library is preloaded, so the [pthread_mutex_lock] that
    [std::mutex::lock] calls is the shim's own wrapper.  Entered with
    [in_hook] set, that wrapper is its first line, [return
    real_pthread_mutex_lock(mutex)], and [std::mutex::lock] throws
    [std::system_error] on a result other than 0, which nothing here
    catches.  Entered with [in_hook] clear, the wrapper would log in its
    turn and come back to this line with the mutex held by the thread
    itself: locking a [std::mutex] one owns has no defined behaviour.
    Both are [None]. *)
Definition lock_guard_acquire `{Host} (st : Shim) : option Shim :=
  if in_hook st then
    match call real_pthread_mutex_lock [write_mutex_address] st with
    | None => None
    | Some (e, st) => if e =? 0 then Some st else None
    end
  else None.

(** The end of the guard's scope (line 183): [std::mutex::unlock] calls
    the wrapper [pthread_mutex_unlock], which with [in_hook] set is
    [return real_pthread_mutex_unlock(mutex)]; the result is dropped. *)
Definition lock_guard_release `{Host} (st : Shim) : option Shim :=
  if in_hook st then
    match call real_pthread_mutex_unlock [write_mutex_address] st with
    | None => None
    | Some (_, st) => Some st
    end
  else None.

(** [EventLogger::instance().log(...)]: nothing happens before
    [initialized_] is tested; past the test the mutex is taken, the
    record is written and the mutex is released. *)
Definition instance_log `{Host} (type ptr1 ptr2 result duration_ns : Z)
    (st : Shim) : option Shim :=
  if negb (initialized_ (logger st)) then Some st
  else
    match lock_guard_acquire st with
    | None => None
    | Some st =>
        let (l, w) :=
          log type ptr1 ptr2 result duration_ns (logger st, world st) in
        lock_guard_release
          {| in_hook := in_hook st; reals := reals st; logger := l;
             world := w |}
    end.

Definition now `{Host} (st : Shim) : Z * Shim :=
  let (t, w) := steady_clock_now (world st) in
  (t, {| in_hook := in_hook st; reals := reals st; logger := logger st;
         world := w |}).

Definition nullptr : Z := 0.

(** The body shared by the wrappers that log once, after the real call
    ([pthread_mutex_init] and the like). *)
Definition hook_once `{Host} (s : Symbol) (args : list Z) (type ptr1 : Z)
    (st : Shim) : option (Z * Shim) :=
  if in_hook st then call s args st
  else
    let st := set_in_hook true st in
    match call s args st with
    | None => None
    | Some (result, st) =>
        match instance_log type ptr1 nullptr result 0 st with
        | None => None
        | Some st =>
            let st := set_in_hook false st in
            Some (result, st)
        end
    end.

(** The body shared by the wrappers that log before and after the real
    call and time it ([pthread_mutex_lock] and the like). *)
Definition hook_timed `{Host} (s : Symbol) (args : list Z)
    (type type_done ptr1 ptr2 : Z) (st : Shim) : option (Z * Shim) :=
  if in_hook st then call s args st
  else
    let st := set_in_hook true st in
    let (start, st) := now st in
    match instance_log type ptr1 ptr2 0 0 st with
    | None => None
    | Some st =>
        match call s args st with
        | None => None
        | Some (result, st) =>
            let (stop, st) := now st in
            let duration := stop - start in
            match
              instance_log type_done ptr1 ptr2 result (to_u64 duration) st
            with
            | None => None
            | Some st =>
                let st := set_in_hook false st in
                Some (result, st)
            end
        end
    end.

Definition pthread_mutex_init `{Host} (mutex attr : Z) :=
  hook_once real_pthread_mutex_init [mutex; attr] MutexInit mutex.
Definition pthread_mutex_destroy `{Host} (mutex : Z) :=
  hook_once real_pthread_mutex_destroy [mutex] MutexDestroy mutex.
Definition pthread_mutex_lock `{Host} (mutex : Z) :=
  hook_timed real_pthread_mutex_lock [mutex]
    MutexLock MutexLockDone mutex nullptr.
Definition pthread_mutex_trylock `{Host} (mutex : Z) :=
  hook_timed real_pthread_mutex_trylock [mutex]
    MutexTryLock MutexTryLockDone mutex nullptr.
Definition pthread_mutex_timedlock `{Host} (mutex abstime : Z) :=
  hook_timed real_pthread_mutex_timedlock [mutex; abstime]
    MutexTimedLock MutexTimedLockDone mutex nullptr.
Definition pthread_mutex_unlock `{Host} (mutex : Z) :=
  hook_once real_pthread_mutex_unlock [mutex] MutexUnlock mutex.
Definition pthread_cond_init `{Host} (cond attr : Z) :=
  hook_once real_pthread_cond_init [cond; attr] CondInit cond.
Definition pthread_cond_destroy `{Host} (cond : Z) :=
  hook_once real_pthread_cond_destroy [cond] CondDestroy cond.
Definition pthread_cond_signal `{Host} (cond : Z) :=
  hook_once real_pthread_cond_signal [cond] CondSignal cond.
Definition pthread_cond_broadcast `{Host} (cond : Z) :=
  hook_once real_pthread_cond_broadcast [cond] CondBroadcast cond.
Definition pthread_cond_wait `{Host} (cond mutex : Z) :=
  hook_timed real_pthread_cond_wait [cond; mutex]
    CondWait CondWaitDone cond mutex.
Definition pthread_cond_timedwait `{Host} (cond mutex abstime : Z) :=
  hook_timed real_pthread_cond_timedwait [cond; mutex; abstime]
    CondTimedWait CondTimedWaitDone cond mutex.
Definition pthread_rwlock_init `{Host} (rwlock attr : Z) :=
  hook_once real_pthread_rwlock_init [rwlock; attr] RWLockInit rwlock.
Definition pthread_rwlock_destroy `{Host} (rwlock : Z) :=
  hook_once real_pthread_rwlock_destroy [rwlock] RWLockDestroy rwlock.
Definition pthread_rwlock_rdlock `{Host} (rwlock : Z) :=
  hook_timed real_pthread_rwlock_rdlock [rwlock]
    RWLockRead RWLockReadDone rwlock nullptr.
Definition pthread_rwlock_tryrdlock `{Host} (rwlock : Z) :=
  hook_timed real_pthread_rwlock_tryrdlock [rwlock]
    RWLockTryRead RWLockTryReadDone rwlock nullptr.
Definition pthread_rwlock_timedrdlock `{Host} (rwlock abstime : Z) :=
  hook_timed real_pthread_rwlock_timedrdlock [rwlock; abstime]
    RWLockTimedRead RWLockTimedReadDone rwlock nullptr.
Definition pthread_rwlock_wrlock `{Host} (rwlock : Z) :=
  hook_timed real_pthread_rwlock_wrlock [rwlock]
    RWLockWrite RWLockWriteDone rwlock nullptr.
Definition pthread_rwlock_trywrlock `{Host} (rwlock : Z) :=
  hook_timed real_pthread_rwlock_trywrlock [rwlock]
    RWLockTryWrite RWLockTryWriteDone rwlock nullptr.
Definition pthread_rwlock_timedwrlock `{Host} (rwlock abstime : Z) :=
  hook_timed real_pthread_rwlock_timedwrlock [rwlock; abstime]
    RWLockTimedWrite RWLockTimedWriteDone rwlock nullptr.
Definition pthread_rwlock_unlock `{Host} (rwlock : Z) :=
  hook_once real_pthread_rwlock_unlock [rwlock] RWLockUnlock rwlock.
Definition pthread_create `{Host} (thread attr start_routine arg : Z) :=
  hook_once real_pthread_create [thread; attr; start_routine; arg]
    ThreadCreate thread.

(** A call of the target program into the shim: which entry point, with
    which arguments. *)
Inductive Call :=
  | mutex_init (mutex attr : Z)
  | mutex_destroy (mutex : Z)
  | mutex_lock (mutex : Z)
  | mutex_trylock (mutex : Z)
  | mutex_timedlock (mutex abstime : Z)
  | mutex_unlock (mutex : Z)
  | cond_init (cond attr : Z)
  | cond_destroy (cond : Z)
  | cond_signal (cond : Z)
  | cond_broadcast (cond : Z)
  | cond_wait (cond mutex : Z)
  | cond_timedwait (cond mutex abstime : Z)
  | rwlock_init (rwlock attr : Z)
  | rwlock_destroy (rwlock : Z)
  | rwlock_rdlock (rwlock : Z)
  | rwlock_tryrdlock (rwlock : Z)
  | rwlock_timedrdlock (rwlock abstime : Z)
  | rwlock_wrlock (rwlock : Z)
  | rwlock_trywrlock (rwlock : Z)
  | rwlock_timedwrlock (rwlock abstime : Z)
  | rwlock_unlock (rwlock : Z)
  | create (thread attr start_routine arg : Z).

Definition enter `{Host} (c : Call) : Shim -> option (Z * Shim) :=
  match c with
  | mutex_init m a => pthread_mutex_init m a
  | mutex_destroy m => pthread_mutex_destroy m
  | mutex_lock m => pthread_mutex_lock m
  | mutex_trylock m => pthread_mutex_trylock m
  | mutex_timedlock m t => pthread_mutex_timedlock m t
  | mutex_unlock m => pthread_mutex_unlock m
  | cond_init c a => pthread_cond_init c a
  | cond_destroy c => pthread_cond_destroy c
  | cond_signal c => pthread_cond_signal c
  | cond_broadcast c => pthread_cond_broadcast c
  | cond_wait c m => pthread_cond_wait c m
  | cond_timedwait c m t => pthread_cond_timedwait c m t
  | rwlock_init l a => pthread_rwlock_init l a
  | rwlock_destroy l => pthread_rwlock_destroy l
  | rwlock_rdlock l => pthread_rwlock_rdlock l
  | rwlock_tryrdlock l => pthread_rwlock_tryrdlock l
  | rwlock_timedrdlock l t => pthread_rwlock_timedrdlock l t
  | rwlock_wrlock l => pthread_rwlock_wrlock l
  | rwlock_trywrlock l => pthread_rwlock_trywrlock l
  | rwlock_timedwrlock l t => pthread_rwlock_timedwrlock l t
  | rwlock_unlock l => pthread_rwlock_unlock l
  | create t a f x => pthread_create t a f x
  end.

(** The pointer a call forwards through, its full argument list, and
    its first argument (the object the call is about). *)
Definition symbol_of (c : Call) : Symbol :=
  match c with
  | mutex_init _ _ => real_pthread_mutex_init
  | mutex_destroy _ => real_pthread_mutex_destroy
  | mutex_lock _ => real_pthread_mutex_lock
  | mutex_trylock _ => real_pthread_mutex_trylock
  | mutex_timedlock _ _ => real_pthread_mutex_timedlock
  | mutex_unlock _ => real_pthread_mutex_unlock
  | cond_init _ _ => real_pthread_cond_init
  | cond_destroy _ => real_pthread_cond_destroy
  | cond_signal _ => real_pthread_cond_signal
  | cond_broadcast _ => real_pthread_cond_broadcast
  | cond_wait _ _ => real_pthread_cond_wait
  | cond_timedwait _ _ _ => real_pthread_cond_timedwait
  | rwlock_init _ _ => real_pthread_rwlock_init
  | rwlock_destroy _ => real_pthread_rwlock_destroy
  | rwlock_rdlock _ => real_pthread_rwlock_rdlock
  | rwlock_tryrdlock _ => real_pthread_rwlock_tryrdlock
  | rwlock_timedrdlock _ _ => real_pthread_rwlock_timedrdlock
  | rwlock_wrlock _ => real_pthread_rwlock_wrlock
  | rwlock_trywrlock _ => real_pthread_rwlock_trywrlock
  | rwlock_timedwrlock _ _ => real_pthread_rwlock_timedwrlock
  | rwlock_unlock _ => real_pthread_rwlock_unlock
  | create _ _ _ _ => real_pthread_create
  end.

Definition args_of (c : Call) : list Z :=
  match c with
  | mutex_init a b | mutex_timedlock a b | cond_init a b | cond_wait a b
  | rwlock_init a b | rwlock_timedrdlock a b | rwlock_timedwrlock a b =>
      [a; b]
  | cond_timedwait a b d => [a; b; d]
  | create a b d e => [a; b; d; e]
  | mutex_destroy a | mutex_lock a | mutex_trylock a | mutex_unlock a
  | cond_destroy a | cond_signal a | cond_broadcast a
  | rwlock_destroy a | rwlock_rdlock a | rwlock_tryrdlock a
  | rwlock_wrlock a | rwlock_trywrlock a | rwlock_unlock a => [a]
  end.

Definition first_arg (c : Call) : Z := hd 0 (args_of c).


(** ** The decoder's output (reader.cpp)

    [eventTypeToString]: the [switch] over the kinds, with its
    [default]. *)
Definition eventTypeToString (type : Z) : String.string :=
  if type =? ThreadCreate then "ThreadCreate" else
  if type =? MutexInit then "MutexInit" else
  if type =? MutexDestroy then "MutexDestroy" else
  if type =? MutexLock then "MutexLock" else
  if type =? MutexLockDone then "MutexLockDone" else
  if type =? MutexTryLock then "MutexTryLock" else
  if type =? MutexTryLockDone then "MutexTryLockDone" else
  if type =? MutexTimedLock then "MutexTimedLock" else
  if type =? MutexTimedLockDone then "MutexTimedLockDone" else
  if type =? MutexUnlock then "MutexUnlock" else
  if type =? RWLockInit then "RWLockInit" else
  if type =? RWLockDestroy then "RWLockDestroy" else
  if type =? RWLockRead then "RWLockRead" else
  if type =? RWLockReadDone then "RWLockReadDone" else
  if type =? RWLockTryRead then "RWLockTryRead" else
  if type =? RWLockTryReadDone then "RWLockTryReadDone" else
  if type =? RWLockTimedRead then "RWLockTimedRead" else
  if type =? RWLockTimedReadDone then "RWLockTimedReadDone" else
  if type =? RWLockWrite then "RWLockWrite" else
  if type =? RWLockWriteDone then "RWLockWriteDone" else
  if type =? RWLockTryWrite then "RWLockTryWrite" else
  if type =? RWLockTryWriteDone then "RWLockTryWriteDone" else
  if type =? RWLockTimedWrite then "RWLockTimedWrite" else
  if type =? RWLockTimedWriteDone then "RWLockTimedWriteDone" else
  if type =? RWLockUnlock then "RWLockUnlock" else
  if type =? CondInit then "CondInit" else
  if type =? CondDestroy then "CondDestroy" else
  if type =? CondSignal then "CondSignal" else
  if type =? CondBroadcast then "CondBroadcast" else
  if type =? CondWait then "CondWait" else
  if type =? CondWaitDone then "CondWaitDone" else
  if type =? CondTimedWait then "CondTimedWait" else
  if type =? CondTimedWaitDone then "CondTimedWaitDone" else
  "Unknown".

(** One printed record, before it is laid out as text: the elapsed time
    and the duration as the integers [main] divides by 1e9, the optional
    parts as options. *)
Record Line := {
  line_elapsed_ns : Z;
  line_tid : Z;
  line_name : String.string;
  line_ptr : Z;
  line_aux_ptr : option Z;
  line_duration_ns : option Z;
  line_result : option Z;
  line_stack : list Z
}.

(** The printing part of a round of [main]'s loop (lines 223-243);
    [timestamp - first_timestamp] is a subtraction of [uint64_t]. *)
Definition print_event (first_timestamp : Z) (e : Event) : Line :=
  {| line_elapsed_ns := to_u64 (timestamp e - first_timestamp);
     line_tid := tid e;
     line_name := eventTypeToString (type e);
     line_ptr := ptr1 e;
     line_aux_ptr := if ptr2 e =? 0 then None else Some (ptr2 e);
     line_duration_ns :=
       if 0 <? duration_ns e then Some (duration_ns e) else None;
     line_result := if result e =? 0 then None else Some (result e);
     line_stack := stack e |}.

(** [main]'s loop with what it prints.  [first_timestamp] is set from
    the record at hand while it is still 0 (line 213; the assignment
    stands between the first read and the second and touches neither). *)
Fixpoint main_print_loop `{Machine} (fuel : nat) (r : VarIntReader)
    (first_timestamp : Z) : list Line * Outcome :=
  match fuel with
  | O => ([], FuelExhausted)
  | S fuel' =>
      if eof r then ([], Exit0)
      else
        match read_event r with
        | None => ([], OutOfBoundsRead)
        | Some (e, r') =>
            let first_timestamp :=
              if first_timestamp =? 0 then timestamp e else first_timestamp in
            let (ls, o) := main_print_loop fuel' r' first_timestamp in
            (print_event first_timestamp e :: ls, o)
        end
  end.

Definition main_print `{Machine} (file : list Z) : list Line * Outcome :=
  main_print_loop (S (length file)) {| buffer_ := file; pos_ := 0 |} 0.

(** The first timestamp of a list that is not 0, or 0. *)
Fixpoint first_nonzero (ts : list Z) : Z :=
  match ts with
  | [] => 0
  | t :: ts' => if t =? 0 then first_nonzero ts' else t
  end.

(** The kind a name of [eventTypeToString] stands for, by search. *)
Definition kind_of_name (name : String.string) : option Z :=
  find (fun t => String.eqb (eventTypeToString t) name)
       (map Z.of_nat (seq 0 33)).

(** ** What each entry point logs

    Read off the twenty-two wrappers: whether the wrapper times the real
    call and logs around it, the kind of its first (or only) record, and
    the second pointer it logs. *)
Definition blocking (c : Call) : bool :=
  match c with
  | mutex_lock _ | mutex_trylock _ | mutex_timedlock _ _
  | cond_wait _ _ | cond_timedwait _ _ _
  | rwlock_rdlock _ | rwlock_tryrdlock _ | rwlock_timedrdlock _ _
  | rwlock_wrlock _ | rwlock_trywrlock _ | rwlock_timedwrlock _ _ => true
  | _ => false
  end.

Definition kind_of (c : Call) : Z :=
  match c with
  | mutex_init _ _ => MutexInit
  | mutex_destroy _ => MutexDestroy
  | mutex_lock _ => MutexLock
  | mutex_trylock _ => MutexTryLock
  | mutex_timedlock _ _ => MutexTimedLock
  | mutex_unlock _ => MutexUnlock
  | cond_init _ _ => CondInit
  | cond_destroy _ => CondDestroy
  | cond_signal _ => CondSignal
  | cond_broadcast _ => CondBroadcast
  | cond_wait _ _ => CondWait
  | cond_timedwait _ _ _ => CondTimedWait
  | rwlock_init _ _ => RWLockInit
  | rwlock_destroy _ => RWLockDestroy
  | rwlock_rdlock _ => RWLockRead
  | rwlock_tryrdlock _ => RWLockTryRead
  | rwlock_timedrdlock _ _ => RWLockTimedRead
  | rwlock_wrlock _ => RWLockWrite
  | rwlock_trywrlock _ => RWLockTryWrite
  | rwlock_timedwrlock _ _ => RWLockTimedWrite
  | rwlock_unlock _ => RWLockUnlock
  | create _ _ _ _ => ThreadCreate
  end.

Definition aux_of (c : Call) : Z :=
  match c with
  | cond_wait _ mutex | cond_timedwait _ mutex _ => mutex
  | _ => nullptr
  end.

(** The kinds of the records a call leaves in the trace, in order. *)
Definition kinds_of (c : Call) : list Z :=
  if blocking c then [kind_of c; kind_of c + 1] else [kind_of c].

(** A platform whose values have the C types the shim reads them at:
    code addresses are 64-bit, and the real entry points in the resolver
    table return an [int]. *)
Definition host_typed `{Host} (st : Shim) : Prop :=
  (forall w, Forall is_u64 (call_stack w)) /\
  (forall s f args w, reals st s = Some f -> is_i32 (fst (f args w))).

(** The thread is not inside a wrapper, and the logger has its file. *)
Definition ready `{Host} (st : Shim) : Prop :=
  in_hook st = false /\ initialized_ (logger st) = true /\
  is_open (log_ (logger st)) = true.

(** A call whose logged pointers are 64-bit patterns. *)
Definition pointers_typed (c : Call) : Prop :=
  is_u64 (first_arg c) /\ is_u64 (aux_of c).

(** ** Several threads inside [EventLogger::log]

    The threads of the process interleave at the grain of the
    statements of [log]: taking the [lock_guard] on [write_mutex_]
    (line 156), reading the steady clock (lines 162-165), writing and
    flushing the record (lines 171-182), and leaving the scope, which
    releases the mutex (line 183).  The mutex admits one holder; the
    steady clock never goes back, and its count fits an [int64_t].  The
    logger is initialised and its file is open. *)

(** The arguments of one call of [log]. *)
Record LogCall := {
  call_type : Z;
  call_ptr1 : Z;
  call_ptr2 : Z;
  call_result : Z;
  call_duration_ns : Z
}.

(** Arguments that are values of the parameter types of [log]. *)
Definition typed (a : LogCall) : Prop :=
  is_u8 (call_type a) /\ is_u64 (call_ptr1 a) /\ is_u64 (call_ptr2 a) /\
  is_i32 (call_result a) /\ is_u64 (call_duration_ns a).

(** Where a thread is with respect to [log]. *)
Inductive Where :=
  | Outside
  | Holding (a : LogCall)
  | Stamped (a : LogCall) (timestamp : Z)
  | Written.

Record Process := {
  clock : Z;
  write_mutex_ : option nat;
  trace_file : list Z;
  at_ : nat -> Where
}.

Definition move (t : nat) (pc : Where) (f : nat -> Where) : nat -> Where :=
  fun t' => if Nat.eqb t t' then pc else f t'.

(** The record a thread writes: its arguments, the timestamp it read,
    the frames [backtrace] gave it and its tid. *)
Definition record_of (a : LogCall) (timestamp : Z) (frames : list Z)
    (tid : Z) : Event :=
  {| timestamp := timestamp; tid := tid; type := call_type a;
     ptr1 := call_ptr1 a; ptr2 := call_ptr2 a; result := call_result a;
     duration_ns := call_duration_ns a; stack := frames |}.

Definition tick (c : Z) (p : Process) : Process :=
  {| clock := c; write_mutex_ := write_mutex_ p;
     trace_file := trace_file p; at_ := at_ p |}.

Definition lock (t : nat) (a : LogCall) (p : Process) : Process :=
  {| clock := clock p; write_mutex_ := Some t;
     trace_file := trace_file p; at_ := move t (Holding a) (at_ p) |}.

Definition read_clock (t : nat) (a : LogCall) (p : Process) : Process :=
  {| clock := clock p; write_mutex_ := write_mutex_ p;
     trace_file := trace_file p;
     at_ := move t (Stamped a (to_u64 (clock p))) (at_ p) |}.

Definition append (t : nat) (e : Event) (p : Process) : Process :=
  {| clock := clock p; write_mutex_ := write_mutex_ p;
     trace_file :=
       (let wr := write_event e {| buffer := [] |} in
        trace_file p ++ firstn (size wr) (data wr));
     at_ := move t Written (at_ p) |}.

Definition unlock (t : nat) (p : Process) : Process :=
  {| clock := clock p; write_mutex_ := None;
     trace_file := trace_file p; at_ := move t Outside (at_ p) |}.

Inductive step : Process -> Process -> Prop :=
  | step_tick p c :
      clock p <= c < 2 ^ 63 -> step p (tick c p)
  | step_lock p t a :
      at_ p t = Outside -> write_mutex_ p = None -> typed a ->
      step p (lock t a p)
  | step_clock p t a :
      at_ p t = Holding a -> step p (read_clock t a p)
  | step_append p t a ts frames tidv :
      at_ p t = Stamped a ts -> Forall is_u64 frames ->
      step p (append t (record_of a ts (firstn MAX_STACK_DEPTH frames)
                                  (to_u32 tidv)) p)
  | step_unlock p t :
      at_ p t = Written -> step p (unlock t p).

(** The process right after the constructor: an empty trace, nobody in
    [log]. *)
Definition started (c : Z) : Process :=
  {| clock := c; write_mutex_ := None; trace_file := [];
     at_ := fun _ => Outside |}.

Inductive reachable : Process -> Prop :=
  | reach_started c : 0 <= c < 2 ^ 63 -> reachable (started c)
  | reach_step p p' : reachable p -> step p p' -> reachable p'.

(** ** The threads and the shared scratch buffer

    The same threads, now interleaving at every call [log] makes on the
    one [writer_] they share (lines 171-179), with the write of
    [writer_.data()] to the file (lines 181-182) a step of its own. *)

(** The calls [write_event] makes on the writer, in order. *)
Definition record_writes (e : Event)
    : list (VarIntWriter -> VarIntWriter) :=
  [ clear;
    write (timestamp e);
    write (tid e);
    write_type (type e);
    writePtr (ptr1 e);
    writePtr (ptr2 e);
    write (to_u64 (result e));
    write (duration_ns e);
    writeStack (stack e) (Z.of_nat (length (stack e))) ].

Definition run_writes (ops : list (VarIntWriter -> VarIntWriter))
    (w : VarIntWriter) : VarIntWriter :=
  fold_left (fun w op => op w) ops w.

(** Where a thread is inside [log]: outside, holding the mutex, with
    its timestamp read, serialising record [e] with the calls [todo]
    still to make, or with its bytes written to the file. *)
Inductive Stage :=
  | Idle
  | HasLock (a : LogCall)
  | HasTime (a : LogCall) (timestamp : Z)
  | Writing (e : Event) (todo : list (VarIntWriter -> VarIntWriter))
  | HasWritten.

Record Shared := {
  steady : Z;
  mutex_owner : option nat;
  scratch : VarIntWriter;
  disk : list Z;
  stage : nat -> Stage
}.

Definition set_stage (t : nat) (x : Stage) (f : nat -> Stage)
    : nat -> Stage :=
  fun t' => if Nat.eqb t t' then x else f t'.

Inductive interleave : Shared -> Shared -> Prop :=
  | pass_time p c :
      steady p <= c < 2 ^ 63 ->
      interleave p
        {| steady := c; mutex_owner := mutex_owner p; scratch := scratch p;
           disk := disk p; stage := stage p |}
  | take_mutex p t a :
      stage p t = Idle -> mutex_owner p = None -> typed a ->
      interleave p
        {| steady := steady p; mutex_owner := Some t; scratch := scratch p;
           disk := disk p; stage := set_stage t (HasLock a) (stage p) |}
  | read_time p t a :
      stage p t = HasLock a ->
      interleave p
        {| steady := steady p; mutex_owner := mutex_owner p;
           scratch := scratch p; disk := disk p;
           stage := set_stage t (HasTime a (to_u64 (steady p))) (stage p) |}
  | start_record p t a ts frames tidv :
      stage p t = HasTime a ts -> Forall is_u64 frames ->
      interleave p
        {| steady := steady p; mutex_owner := mutex_owner p;
           scratch := scratch p; disk := disk p;
           stage :=
             set_stage t
               (let e := record_of a ts (firstn MAX_STACK_DEPTH frames)
                                   (to_u32 tidv) in
                Writing e (record_writes e))
               (stage p) |}
  | writer_call p t e op todo :
      stage p t = Writing e (op :: todo) ->
      interleave p
        {| steady := steady p; mutex_owner := mutex_owner p;
           scratch := op (scratch p); disk := disk p;
           stage := set_stage t (Writing e todo) (stage p) |}
  | write_file p t e :
      stage p t = Writing e [] ->
      interleave p
        {| steady := steady p; mutex_owner := mutex_owner p;
           scratch := scratch p;
           disk := disk p ++ firstn (size (scratch p)) (data (scratch p));
           stage := set_stage t HasWritten (stage p) |}
  | leave_scope p t :
      stage p t = HasWritten ->
      interleave p
        {| steady := steady p; mutex_owner := None; scratch := scratch p;
           disk := disk p; stage := set_stage t Idle (stage p) |}.

Definition fresh (c : Z) : Shared :=
  {| steady := c; mutex_owner := None; scratch := {| buffer := [] |};
     disk := []; stage := fun _ => Idle |}.

Inductive interleaved : Shared -> Prop :=
  | interleaved_fresh c : 0 <= c < 2 ^ 63 -> interleaved (fresh c)
  | interleaved_step p p' :
      interleaved p -> interleave p p' -> interleaved p'.

(** ** Vocabulary for the statements *)

(** The bytes [encodeVarInt] appends for [value]. *)
Definition encoded (value : Z) : list Z :=
  buffer (encodeVarInt value {| buffer := [] |}).

(** The bytes one call of [EventLogger::log] hands to the file. *)
Definition serialize (e : Event) : list Z :=
  let wr := write_event e {| buffer := [] |} in
  firstn (size wr) (data wr).

(** A trace file: the records one after the other, nothing else. *)
Definition trace (es : list Event) : list Z := flat_map serialize es.

(** The record a call of [EventLogger::log] writes in world [w]. *)
Definition logged_event `{Host} (type ptr1 ptr2 result duration_ns : Z)
    (w : World) : Event :=
  {| timestamp := to_u64 (fst (steady_clock_now w));
     tid := to_u32 (gettid (snd (steady_clock_now w)));
     type := type; ptr1 := ptr1; ptr2 := ptr2; result := result;
     duration_ns := duration_ns;
     stack := backtrace MAX_STACK_DEPTH w |}.

(** The bytes a reader has not consumed yet. *)
Definition unread (r : VarIntReader) : list Z := skipn (pos_ r) (buffer_ r).

(** A record whose fields fit the types [log] gives them. *)
Record well_formed (e : Event) : Prop := {
  wf_timestamp : is_u64 (timestamp e);
  wf_tid : is_u32 (tid e);
  wf_type : is_u8 (type e);
  wf_ptr1 : is_u64 (ptr1 e);
  wf_ptr2 : is_u64 (ptr2 e);
  wf_result : is_i32 (result e);
  wf_duration_ns : is_u64 (duration_ns e);
  wf_stack : Forall is_u64 (stack e);
  wf_depth : (length (stack e) <= MAX_STACK_DEPTH)%nat
}.

(** The lookup the constructor performs for a slot: the versioned one
    for the six condition-variable symbols, the plain one for the
    others. *)
Definition symbol_name (s : Symbol) : String.string :=
  match s with
  | real_pthread_mutex_init => "pthread_mutex_init"
  | real_pthread_mutex_destroy => "pthread_mutex_destroy"
  | real_pthread_mutex_lock => "pthread_mutex_lock"
  | real_pthread_mutex_trylock => "pthread_mutex_trylock"
  | real_pthread_mutex_timedlock => "pthread_mutex_timedlock"
  | real_pthread_mutex_unlock => "pthread_mutex_unlock"
  | real_pthread_cond_init => "pthread_cond_init"
  | real_pthread_cond_destroy => "pthread_cond_destroy"
  | real_pthread_cond_signal => "pthread_cond_signal"
  | real_pthread_cond_broadcast => "pthread_cond_broadcast"
  | real_pthread_cond_wait => "pthread_cond_wait"
  | real_pthread_cond_timedwait => "pthread_cond_timedwait"
  | real_pthread_create => "pthread_create"
  | real_pthread_rwlock_init => "pthread_rwlock_init"
  | real_pthread_rwlock_destroy => "pthread_rwlock_destroy"
  | real_pthread_rwlock_rdlock => "pthread_rwlock_rdlock"
  | real_pthread_rwlock_tryrdlock => "pthread_rwlock_tryrdlock"
  | real_pthread_rwlock_timedrdlock => "pthread_rwlock_timedrdlock"
  | real_pthread_rwlock_wrlock => "pthread_rwlock_wrlock"
  | real_pthread_rwlock_trywrlock => "pthread_rwlock_trywrlock"
  | real_pthread_rwlock_timedwrlock => "pthread_rwlock_timedwrlock"
  | real_pthread_rwlock_unlock => "pthread_rwlock_unlock"
  end.

Definition versioned (s : Symbol) : bool :=
  match s with
  | real_pthread_cond_init | real_pthread_cond_destroy
  | real_pthread_cond_signal | real_pthread_cond_broadcast
  | real_pthread_cond_wait | real_pthread_cond_timedwait => true
  | _ => false
  end.

Definition lookup `{Host} (s : Symbol) (w : World) : option RealFn :=
  if versioned s then dlvsym (symbol_name s) "GLIBC_2.3.2" w
  else dlsym (symbol_name s) w.

(** What the target program can tell of the outcome of a call: the
    value returned, and the thread's flag, the logger and the platform
    afterwards. *)
Definition observe `{Host} (o : option (Z * Shim))
    : option (Z * bool * EventLogger * World) :=
  match o with
  | Some (r, st) => Some (r, in_hook st, logger st, world st)
  | None => None
  end.

(** Two states of a thread that differ at most in slots the wrapper for
    [c] never calls through: the flag, the logger and the platform are
    the same, and so are three pointers, the wrapper's own and, for the
    logger's mutex, those of [pthread_mutex_lock] and
    [pthread_mutex_unlock]. *)
Definition alike `{Host} (c : Call) (st1 st2 : Shim) : Prop :=
  in_hook st2 = in_hook st1 /\ logger st2 = logger st1 /\
  world st2 = world st1 /\
  reals st2 (symbol_of c) = reals st1 (symbol_of c) /\
  reals st2 real_pthread_mutex_lock = reals st1 real_pthread_mutex_lock /\
  reals st2 real_pthread_mutex_unlock = reals st1 real_pthread_mutex_unlock.

(** A run of top-level calls by one thread, one after the other. *)
Fixpoint run `{Host} (cs : list Call) (st : Shim) : option Shim :=
  match cs with
  | [] => Some st
  | c :: cs' =>
      match enter c st with
      | Some (_, st') => run cs' st'
      | None => None
      end
  end.

(** The bytes of the trace file. *)
Definition file `{Host} (st : Shim) : list Z := contents (log_ (logger st)).

(** A byte with the continuation bit set. *)
Definition continues (b : Z) : Prop := (Z.land b 0x80 =? 0) = false.

(** The number a run of varint bytes carries: the low seven bits of
    each byte, the first byte the least significant. *)
Fixpoint payload (bytes : list Z) : Z :=
  match bytes with
  | [] => 0
  | b :: bytes' => Z.lor (Z.land b 0x7F) (Z.shiftl (payload bytes') 7)
  end.

(** What is left of the value [v] when only the first [m] bytes of its
    varint are there: [v] when the varint is whole, else the low [7 m]
    bits of [v] (nothing for [m = 0]). *)
Definition cut_value (v : Z) (m : nat) : Z :=
  if (length (encoded v) <=? m)%nat then v
  else Z.land v (Z.ones (7 * Z.of_nat m)).

(** The same for the frames of a stack, [m] bytes of whose varints are
    there. *)
Fixpoint cut_frames (frames : list Z) (m : nat) : list Z :=
  match frames with
  | [] => []
  | x :: frames' =>
      cut_value x m :: cut_frames frames' (m - length (encoded x))
  end.

(** The record [e] seen through the first [m] bytes of its wire form,
    for an [m] that covers the timestamp, the tid and the kind: every
    later field is cut where the bytes end, a depth that is not there
    gives no frames, and the result is narrowed as the decoder narrows
    it. *)
Definition cut_record (e : Event) (m : nat) : Event :=
  let m3 :=
    (m - length (encoded (timestamp e)) - length (encoded (tid e)) - 1)%nat in
  let m4 := (m3 - length (encoded (ptr1 e)))%nat in
  let m5 := (m4 - length (encoded (ptr2 e)))%nat in
  let m6 := (m5 - length (encoded (to_u64 (result e))))%nat in
  let m7 := (m6 - length (encoded (duration_ns e)))%nat in
  let depth := Z.of_nat (length (stack e)) in
  let m8 := (m7 - length (encoded depth))%nat in
  {| timestamp := timestamp e; tid := tid e; type := type e;
     ptr1 := cut_value (ptr1 e) m3;
     ptr2 := cut_value (ptr2 e) m4;
     result := to_i32 (cut_value (to_u64 (result e)) m5);
     duration_ns := cut_value (duration_ns e) m6;
     stack :=
       if (length (encoded depth) <=? m7)%nat then cut_frames (stack e) m8
       else [] |}.

(** ** Concrete instances, for the examples

    A machine whose shifter masks the count to six bits, as the common
    64-bit processors do. *)
Definition masking_machine : Machine :=
  {| wide_shl := fun x s => Z.shiftl x (s mod 64) |}.

(** A platform on which the clock is the whole world, every real call
    takes ten nanoseconds and returns 0, and the next library in the
    chain has no [pthread_mutex_timedlock]. *)
Definition sample_host : Host :=
  {| World := Z;
     call_stack := fun _ => [4198400; 4198912];
     steady_clock_now := fun w => (w, w + 1);
     gettid := fun _ => 4242;
     getenv := fun _ _ => None;
     open_trunc := fun _ _ => true;
     dlsym := fun name _ =>
       if String.eqb name "pthread_mutex_timedlock" then None
       else Some (fun _ w => (0, w + 10));
     dlvsym := fun _ _ _ => Some (fun _ w => (0, w + 10));
     write_mutex_address := 6295552 |}.

(** The process on that platform once the library constructor has run. *)
Definition sample_process : @Shim sample_host :=
  @init_skeleton_key sample_host (@loaded sample_host 0).

(** What every real entry point of [sample_host] does. *)
Definition sample_real : @RealFn sample_host := fun _ w => (0, w + 10).

(** Two threads, 1 and 2, log one record each: 1 takes the mutex at
    time 5, reads the clock at 7, writes and leaves; 2 follows. *)
Definition sample_call_1 : LogCall :=
  {| call_type := MutexLock; call_ptr1 := 16; call_ptr2 := 0;
     call_result := 0; call_duration_ns := 0 |}.

Definition sample_call_2 : LogCall :=
  {| call_type := MutexLockDone; call_ptr1 := 16; call_ptr2 := 0;
     call_result := 0; call_duration_ns := 9 |}.

Definition sample_run : Process :=
  append 2 (record_of sample_call_2 7 (firstn MAX_STACK_DEPTH []) (to_u32 102))
    (read_clock 2 sample_call_2
      (lock 2 sample_call_2
        (unlock 1
          (append 1 (record_of sample_call_1 7
                       (firstn MAX_STACK_DEPTH [4198400]) (to_u32 101))
            (read_clock 1 sample_call_1
              (tick 7
                (lock 1 sample_call_1 (started 5)))))))).

(** A record with four distinct small fields: its wire form is the
    eight bytes 1 2 3 4 0 0 0 0. *)
Definition layout_probe : Event :=
  {| timestamp := 1; tid := 2; type := MutexLock; ptr1 := 4; ptr2 := 0;
     result := 0; duration_ns := 0; stack := [] |}.


(** One uncontended mutex: initialised, locked, unlocked, destroyed. *)
Definition sample_calls : list Call :=
  [mutex_init 16 0; mutex_lock 16; mutex_unlock 16; mutex_destroy 16].

(** Three records of one thread, the first with timestamp 0. *)
Definition sample_lock_done : Event :=
  {| timestamp := 9; tid := 2; type := MutexLockDone; ptr1 := 16; ptr2 := 0;
     result := 0; duration_ns := 4; stack := [] |}.

Definition sample_zero_first : list Event :=
  [ {| timestamp := 0; tid := 2; type := MutexInit; ptr1 := 16; ptr2 := 0;
       result := 0; duration_ns := 0; stack := [] |};
    {| timestamp := 5; tid := 2; type := MutexLock; ptr1 := 16; ptr2 := 0;
       result := 0; duration_ns := 0; stack := [] |};
    sample_lock_done ].

(** A record of one [pthread_mutex_init], and the same record as the
    decoder rebuilds it from the first three bytes of its wire form. *)
Definition sample_event : Event :=
  {| timestamp := 1; tid := 2; type := MutexInit; ptr1 := 16; ptr2 := 0;
     result := 0; duration_ns := 0; stack := [] |}.

Definition sample_event_cut : Event :=
  {| timestamp := 1; tid := 2; type := MutexInit; ptr1 := 0; ptr2 := 0;
     result := 0; duration_ns := 0; stack := [] |}.

(* ================================================================== *)
(** * Part II.  Properties                                             *)
(* ================================================================== *)

(** Well-formedness of a record given by its fields. *)
Ltac in_range :=
  unfold is_u64, is_u32, is_u8, is_i32;
  split; [apply Z.leb_le | apply Z.ltb_lt]; vm_compute; reflexivity.
Ltac prove_typed := unfold typed; repeat (split; [in_range|]); in_range.
Ltac prove_well_formed :=
  constructor;
  [ in_range | in_range | in_range | in_range | in_range | in_range | in_range
  | repeat (apply Forall_cons; [in_range|]); apply Forall_nil
  | apply Nat.leb_le; vm_compute; reflexivity ].


(** ** Bit-level facts about one varint byte *)

Lemma land_127_128 v : Z.land (Z.land v 0x7F) 0x80 = 0.
Proof. rewrite <- Z.land_assoc. change (Z.land 0x7F 0x80) with 0. apply Z.land_0_r. Qed.

Lemma land_lor_128_127 v : Z.land (Z.lor (Z.land v 0x7F) 0x80) 0x7F = Z.land v 0x7F.
Proof.
  rewrite Z.land_lor_distr_l, <- Z.land_assoc.
  change (Z.land 0x80 0x7F) with 0. change (Z.land 0x7F 0x7F) with 0x7F.
  apply Z.lor_0_r.
Qed.

Lemma land_lor_128_128 v : Z.land (Z.lor (Z.land v 0x7F) 0x80) 0x80 = 0x80.
Proof.
  rewrite Z.land_lor_distr_l, <- Z.land_assoc.
  change (Z.land 0x7F 0x80) with 0. rewrite Z.land_0_r. reflexivity.
Qed.

Lemma split7 v s : 0 <= s ->
  Z.lor (Z.shiftl (Z.land v 0x7F) s) (Z.shiftl (Z.shiftr v 7) (s + 7)) = Z.shiftl v s.
Proof.
  intros Hs. change 0x7F with (Z.ones 7).
  Z.bitblast.
  rewrite (Z.testbit_neg_r v) by lia. reflexivity.
Qed.

Lemma encodeVarInt_loop_app f : forall v buf,
  encodeVarInt_loop f v buf = buf ++ encodeVarInt_loop f v [].
Proof.
  induction f as [|f IH]; intros v buf; simpl.
  - now rewrite app_nil_r.
  - destruct (Z.shiftr v 7 =? 0); [reflexivity|].
    rewrite IH, (IH _ [_]). now rewrite app_assoc.
Qed.

Lemma encodeVarInt_loop_S f v :
  encodeVarInt_loop (S f) v [] =
  if Z.shiftr v 7 =? 0 then [Z.land v 0x7F]
  else Z.lor (Z.land v 0x7F) 0x80 :: encodeVarInt_loop f (Z.shiftr v 7) [].
Proof.
  simpl. destruct (Z.shiftr v 7 =? 0); [reflexivity|].
  now rewrite encodeVarInt_loop_app.
Qed.

Lemma shiftr7_bound v k : 0 <= v < 2 ^ (7 * k) -> 1 <= k ->
  0 <= Z.shiftr v 7 < 2 ^ (7 * (k - 1)).
Proof.
  intros Hv Hk. rewrite Z.shiftr_div_pow2 by lia. split.
  - apply Z.div_pos; lia.
  - apply Z.div_lt_upper_bound; [lia|].
    rewrite <- Z.pow_add_r by lia. replace (7 + 7 * (k - 1)) with (7 * k) by lia. lia.
Qed.

Lemma shiftr7_pos v k : 0 <= Z.shiftr v 7 < 2 ^ k -> Z.shiftr v 7 <> 0 -> 0 < k.
Proof.
  intros H Hn. destruct (Z_lt_le_dec 0 k) as [|Hk]; [assumption|exfalso].
  assert (2 ^ k <= 1).
  { destruct (Z.eq_dec k 0) as [->|]; [simpl; lia|]. rewrite Z.pow_neg_r by lia. lia. }
  lia.
Qed.

(** Fuel beyond the number of seven-bit groups of the value changes nothing. *)
Lemma encodeVarInt_loop_fuel f : forall v extra,
  0 <= v < 2 ^ (7 * Z.of_nat (S f)) ->
  encodeVarInt_loop (S f + extra) v [] = encodeVarInt_loop (S f) v [].
Proof.
  induction f as [|f IH]; intros v extra Hv.
  - change (1 + extra)%nat with (S extra). rewrite !encodeVarInt_loop_S.
    assert (Z.shiftr v 7 = 0) as ->; [|reflexivity].
    apply Z.shiftr_eq_0; [lia|]. destruct (Z.eq_dec v 0) as [->|]; [simpl; lia|].
    apply Z.log2_lt_pow2; lia.
  - change (S (S f) + extra)%nat with (S (S f + extra)).
    rewrite (encodeVarInt_loop_S (S f + extra)), (encodeVarInt_loop_S (S f)).
    destruct (Z.shiftr v 7 =? 0); [reflexivity|]. f_equal. apply IH.
    pose proof (shiftr7_bound v (Z.of_nat (S (S f))) Hv ltac:(lia)) as Hb.
    replace (Z.of_nat (S (S f)) - 1) with (Z.of_nat (S f)) in Hb by lia. exact Hb.
Qed.

Lemma encodeVarInt_loop_length f : forall v k,
  0 <= v < 2 ^ (7 * k) -> 1 <= k ->
  (Z.of_nat (length (encodeVarInt_loop f v [])) <= k).
Proof.
  induction f as [|f IH]; intros v k Hv Hk; [simpl; lia|].
  rewrite encodeVarInt_loop_S. destruct (Z.shiftr v 7 =? 0) eqn:E; [simpl; lia|].
  apply Z.eqb_neq in E.
  pose proof (shiftr7_bound v k Hv Hk) as Hb.
  assert (0 < 7 * (k - 1)) by (eapply shiftr7_pos; eauto).
  specialize (IH (Z.shiftr v 7) (k - 1) Hb ltac:(lia)).
  simpl length. lia.
Qed.

Lemma shl64_small `{Machine} x s :
  0 <= s < 64 -> 0 <= x < 2 ^ (64 - s) -> shl64 x s = Z.shiftl x s.
Proof.
  intros Hs Hx. unfold shl64. destruct (s <? 64) eqn:E; [|apply Z.ltb_ge in E; lia].
  rewrite Z.shiftl_mul_pow2 by lia. apply Z.mod_small. split; [nia|].
  replace (2 ^ 64) with (2 ^ (64 - s) * 2 ^ s).
  - apply Z.mul_lt_mono_pos_r; lia.
  - rewrite <- Z.pow_add_r by lia. f_equal. lia.
Qed.

Lemma land_127_small v : 0 <= v -> Z.shiftr v 7 = 0 -> Z.land v 0x7F = v.
Proof.
  intros Hv H. change 0x7F with (Z.ones 7). rewrite Z.land_ones by lia.
  rewrite Z.shiftr_div_pow2 in H by lia. apply Z.mod_small.
  split; [lia|]. apply Z.div_small_iff in H; lia.
Qed.

Lemma land_127_bound v : 0 <= Z.land v 0x7F < 2 ^ 7.
Proof.
  change 0x7F with (Z.ones 7). rewrite Z.land_ones by lia.
  apply Z.mod_pos_bound. lia.
Qed.

Lemma land_127_idem v : Z.land (Z.land v 0x7F) 0x7F = Z.land v 0x7F.
Proof. rewrite <- Z.land_assoc. reflexivity. Qed.

Lemma readVarInt_loop_encoded `{Machine} f : forall v acc shift rest,
  (0 < f)%nat -> 0 <= v < 2 ^ (7 * Z.of_nat f) ->
  0 <= shift < 64 -> v < 2 ^ (64 - shift) ->
  readVarInt_loop (encodeVarInt_loop f v [] ++ rest) acc shift =
  (Z.lor acc (Z.shiftl v shift), length (encodeVarInt_loop f v [])).
Proof.
  induction f as [|f IH]; intros v acc shift rest Hf Hv Hs Hb; [lia|].
  rewrite encodeVarInt_loop_S.
  destruct (Z.shiftr v 7 =? 0) eqn:E.
  - apply Z.eqb_eq in E. cbn [app readVarInt_loop length].
    rewrite land_127_idem, land_127_128. cbn [Z.eqb].
    rewrite (land_127_small v) by lia. rewrite shl64_small by lia. reflexivity.
  - apply Z.eqb_neq in E. cbn [app readVarInt_loop length].
    rewrite land_lor_128_127, land_lor_128_128. cbn [Z.eqb].
    pose proof (shiftr7_bound v (Z.of_nat (S f)) Hv ltac:(lia)) as Hb1.
    replace (Z.of_nat (S f) - 1) with (Z.of_nat f) in Hb1 by lia.
    assert (0 < 7 * Z.of_nat f) by (eapply shiftr7_pos; eauto).
    assert (Hb2 : 0 <= Z.shiftr v 7 < 2 ^ (64 - (shift + 7))).
    { split; [lia|]. rewrite Z.shiftr_div_pow2 by lia.
      destruct (Z_lt_le_dec (64 - (shift + 7)) 0) as [Hneg|Hpos].
      - exfalso. assert (v < 2 ^ 7); [|apply E; apply Z.shiftr_eq_0; try lia].
        + eapply Z.lt_le_trans; [exact Hb|]. apply Z.pow_le_mono_r; lia.
        + destruct (Z.eq_dec v 0) as [->|]; [simpl; lia|]. apply Z.log2_lt_pow2; lia.
      - apply Z.div_lt_upper_bound; [lia|]. rewrite <- Z.pow_add_r by lia.
        replace (7 + (64 - (shift + 7))) with (64 - shift) by lia. lia. }
    assert (0 < 64 - (shift + 7)) by (eapply shiftr7_pos; eauto).
    rewrite (IH (Z.shiftr v 7)) by lia.
    rewrite shl64_small.
    + rewrite <- Z.lor_assoc, split7 by lia. reflexivity.
    + lia.
    + pose proof (land_127_bound v). split; [lia|].
      eapply Z.lt_le_trans; [apply H2|]. apply Z.pow_le_mono_r; lia.
Qed.

Lemma encoded_eq v : encoded v = encodeVarInt_loop 64 v [].
Proof. reflexivity. Qed.

Lemma readVarInt_loop_encoded_u64 `{Machine} v rest : is_u64 v ->
  readVarInt_loop (encoded v ++ rest) 0 0 = (v, length (encoded v)).
Proof.
  intros [Hv0 Hv]. rewrite encoded_eq, readVarInt_loop_encoded.
  - rewrite Z.shiftl_0_r. reflexivity.
  - lia.
  - split; [lia|]. eapply Z.lt_le_trans; [exact Hv|]. apply Z.pow_le_mono_r; lia.
  - lia.
  - exact Hv.
Qed.

Lemma encoded_length v : is_u64 v -> (1 <= length (encoded v) <= 10)%nat.
Proof.
  intros [Hv0 Hv]. split.
  - rewrite encoded_eq, encodeVarInt_loop_S. destruct (_ =? _); cbn [length]; lia.
  - pose proof (encodeVarInt_loop_length 64 v 10) as L. rewrite encoded_eq.
    apply Nat2Z.inj_le. apply L; [|lia]. split; [lia|].
    eapply Z.lt_le_trans; [exact Hv|]. apply Z.pow_le_mono_r; lia.
Qed.

Lemma shiftr7_upper v k :
  0 <= v -> 0 <= k -> Z.shiftr v 7 < 2 ^ (7 * k) -> v < 2 ^ (7 * (k + 1)).
Proof.
  intros Hv Hk H. rewrite Z.shiftr_div_pow2 in H by lia.
  replace (7 * (k + 1)) with (7 + 7 * k) by lia. rewrite Z.pow_add_r by lia.
  pose proof (Z.div_mod v (2 ^ 7) ltac:(lia)) as D.
  pose proof (Z.mod_pos_bound v (2 ^ 7) ltac:(lia)) as B. nia.
Qed.

Lemma encodeVarInt_loop_nonempty f v :
  (1 <= length (encodeVarInt_loop (S f) v []))%nat.
Proof. rewrite encodeVarInt_loop_S. destruct (_ =? _); cbn [length]; lia. Qed.

Lemma encodeVarInt_loop_short f : forall v k,
  0 <= v < 2 ^ (7 * Z.of_nat f) -> (1 <= k)%nat ->
  (length (encodeVarInt_loop f v []) <= k)%nat ->
  v < 2 ^ (7 * Z.of_nat k).
Proof.
  induction f as [|f IH]; intros v k Hv Hk L.
  - cbn in Hv. eapply Z.lt_le_trans; [apply Hv|].
    change 1 with (2 ^ 0). apply Z.pow_le_mono_r; lia.
  - rewrite encodeVarInt_loop_S in L.
    destruct (Z.shiftr v 7 =? 0) eqn:E.
    + apply Z.eqb_eq in E. rewrite <- (land_127_small v) by lia.
      pose proof (land_127_bound v) as B.
      eapply Z.lt_le_trans; [apply B|]. apply Z.pow_le_mono_r; lia.
    + apply Z.eqb_neq in E. cbn [length] in L.
      pose proof (shiftr7_bound v (Z.of_nat (S f)) Hv ltac:(lia)) as Hb.
      replace (Z.of_nat (S f) - 1) with (Z.of_nat f) in Hb by lia.
      assert (0 < 7 * Z.of_nat f) by (eapply shiftr7_pos; eauto).
      destruct f as [|f]; [lia|].
      pose proof (encodeVarInt_loop_nonempty f (Z.shiftr v 7)).
      destruct k as [|[|k]]; try lia.
      specialize (IH (Z.shiftr v 7) (S k) Hb ltac:(lia) ltac:(lia)).
      replace (Z.of_nat (S (S k))) with (Z.of_nat (S k) + 1) by lia.
      apply shiftr7_upper; lia.
Qed.

(** A value with its top bit set takes all ten bytes. *)
Lemma encoded_long v : 2 ^ 63 <= v < 2 ^ 64 -> length (encoded v) = 10%nat.
Proof.
  intros Hv. assert (U : is_u64 v) by (unfold is_u64; lia).
  pose proof (encoded_length v U) as L.
  destruct (le_lt_dec (length (encoded v)) 9) as [L9|]; [exfalso|lia].
  assert (v < 2 ^ (7 * Z.of_nat 9)); [|simpl in *; lia].
  apply (encodeVarInt_loop_short 64);
    [split; [lia|] | lia | rewrite <- encoded_eq; exact L9].
  eapply Z.lt_le_trans; [apply Hv|]. apply Z.pow_le_mono_r; lia.
Qed.

(** ** The reader, seen through its unread bytes *)

Lemma unread_advance r n :
  unread {| buffer_ := buffer_ r; pos_ := (pos_ r + n)%nat |} =
  skipn n (unread r).
Proof.
  unfold unread; cbn [buffer_ pos_]. rewrite skipn_skipn. f_equal. lia.
Qed.

Lemma eof_unread r : eof r = true <-> unread r = [].
Proof.
  unfold eof, unread. rewrite Nat.leb_le. split; intros E.
  - now apply skipn_all2.
  - apply (f_equal (@length Z)) in E. rewrite length_skipn in E.
    cbn [length] in E. lia.
Qed.

Lemma readVarInt_encoded `{Machine} r v rest :
  is_u64 v -> unread r = encoded v ++ rest ->
  exists r', readVarInt r = (v, r') /\ unread r' = rest.
Proof.
  intros Hv E. unfold readVarInt. fold (unread r).
  rewrite E, readVarInt_loop_encoded_u64 by assumption.
  eexists; split; [reflexivity|].
  rewrite unread_advance, E, skipn_app, skipn_all, Nat.sub_diag.
  reflexivity.
Qed.

Lemma readVarInt_at_eof `{Machine} r :
  unread r = [] -> readVarInt r = (0, r).
Proof.
  intros E. unfold readVarInt. fold (unread r). rewrite E. cbn.
  destruct r as [b p]; cbn. now rewrite Nat.add_0_r.
Qed.

(** Every byte of a varint but its last carries the continuation bit. *)
Lemma proper_prefix_continues f : forall v m,
  (m < length (encodeVarInt_loop f v []))%nat ->
  Forall continues
         (firstn m (encodeVarInt_loop f v [])).
Proof.
  induction f as [|f IH]; intros v m Hm; [cbn in Hm; lia|].
  rewrite encodeVarInt_loop_S in *.
  destruct (Z.shiftr v 7 =? 0).
  - cbn [length] in Hm. assert (m = O) as -> by lia. constructor.
  - destruct m as [|m]; [constructor|]. cbn [firstn length] in *.
    constructor.
    + unfold continues. rewrite land_lor_128_128. reflexivity.
    + apply IH. lia.
Qed.

Lemma readVarInt_loop_continues `{Machine} l :
  Forall continues l ->
  forall acc s, snd (readVarInt_loop l acc s) = length l.
Proof.
  induction 1 as [|b l Hb _ IH]; intros acc s; [reflexivity|].
  cbn [readVarInt_loop]. unfold continues in Hb. rewrite Hb.
  specialize (IH (Z.lor acc (shl64 (Z.land b 0x7F) s)) (s + 7)).
  destruct (readVarInt_loop l _ _) as [v n]. cbn in *. now f_equal.
Qed.

(** Reading a varint where the buffer may end inside or after it: the
    reader moves past the varint or to the end of the buffer, whichever
    comes first. *)
Lemma readVarInt_firstn `{Machine} r v X m :
  is_u64 v -> unread r = firstn m (encoded v ++ X) ->
  exists v' r', readVarInt r = (v', r') /\
    unread r' = firstn (m - length (encoded v)) X /\
    ((length (encoded v) <= m)%nat -> v' = v).
Proof.
  intros Hv E. rewrite firstn_app in E.
  destruct (le_lt_dec (length (encoded v)) m) as [Hle|Hlt].
  - rewrite firstn_all2 in E by assumption.
    destruct (readVarInt_encoded r v _ Hv E) as (r' & R & U).
    exists v, r'. auto.
  - replace (m - length (encoded v))%nat with O in * by lia.
    rewrite firstn_O, app_nil_r in E.
    pose proof (proper_prefix_continues 64 v m Hlt) as C.
    change (encodeVarInt_loop 64 v []) with (encoded v) in C.
    rewrite <- E in C.
    pose proof (readVarInt_loop_continues _ C 0 0) as L.
    unfold readVarInt. fold (unread r).
    destruct (readVarInt_loop (unread r) 0 0) as [v' n]. cbn in L. subst n.
    exists v'. eexists. split; [reflexivity|]. split; [|lia].
    rewrite unread_advance. apply skipn_all.
Qed.

Lemma readEventType_unread r b rest :
  unread r = b :: rest ->
  exists r', readEventType r = Some (b, r') /\ unread r' = rest.
Proof.
  destruct r as [buf pos]. unfold unread, readEventType; cbn [buffer_ pos_].
  revert buf. induction pos as [|pos IH]; intros buf E.
  - cbn in E. subst buf. cbn. eexists; split; reflexivity.
  - destruct buf as [|x buf]; [discriminate|]. cbn in E.
    destruct (IH buf E) as (r' & R & U). cbn [nth_error].
    destruct (nth_error buf pos) as [y|]; [|discriminate].
    injection R as -> <-. eexists; split; [reflexivity|]. exact U.
Qed.

Lemma readEventType_at_eof r : unread r = [] -> readEventType r = None.
Proof.
  intros E. apply eof_unread in E. unfold eof in E. apply Nat.leb_le in E.
  unfold readEventType. apply nth_error_None in E. now rewrite E.
Qed.

(** ** What the writer leaves in its buffer *)

Lemma encodeVarInt_buffer v w :
  buffer (encodeVarInt v w) = buffer w ++ encoded v.
Proof. unfold encoded, encodeVarInt; cbn [buffer]. apply encodeVarInt_loop_app. Qed.

Lemma nth_skipn_cons {A} (d : A) : forall i l x tl,
  skipn i l = x :: tl -> nth i l d = x /\ skipn (S i) l = tl.
Proof.
  induction i as [|i IH]; intros l x tl E.
  - cbn in E. subst l. auto.
  - destruct l as [|y l]; [discriminate|]. cbn in E. apply (IH l x tl E).
Qed.

Lemma writeStack_loop_buffer frames : forall n i w,
  (i + n <= length frames)%nat ->
  buffer (writeStack_loop frames i n w) =
  buffer w ++ flat_map (fun p => encoded (to_u64 p)) (firstn n (skipn i frames)).
Proof.
  induction n as [|n IH]; intros i w Hn; cbn [writeStack_loop firstn flat_map].
  - now rewrite app_nil_r.
  - destruct (skipn i frames) as [|x tl] eqn:E.
    + apply (f_equal (@length Z)) in E. rewrite length_skipn in E. cbn in E. lia.
    + destruct (nth_skipn_cons 0 _ _ _ _ E) as [N S'].
      rewrite IH by lia. rewrite encodeVarInt_buffer, N, S'.
      cbn [flat_map]. now rewrite <- app_assoc.
Qed.

Lemma writeStack_buffer frames w :
  buffer (writeStack frames (Z.of_nat (length frames)) w) =
  buffer w ++ encoded (Z.of_nat (length frames)) ++
  flat_map (fun p => encoded (to_u64 p)) frames.
Proof.
  unfold writeStack. rewrite Nat2Z.id, writeStack_loop_buffer by lia.
  rewrite encodeVarInt_buffer. cbn [skipn]. rewrite firstn_all.
  now rewrite <- app_assoc.
Qed.

Lemma write_event_buffer e w :
  buffer (write_event e w) =
  encoded (timestamp e) ++ encoded (tid e) ++ [to_u8 (type e)] ++
  encoded (to_u64 (ptr1 e)) ++ encoded (to_u64 (ptr2 e)) ++
  encoded (to_u64 (result e)) ++ encoded (duration_ns e) ++
  encoded (Z.of_nat (length (stack e))) ++
  flat_map (fun p => encoded (to_u64 p)) (stack e).
Proof.
  unfold write_event, write, writePtr, write_type.
  rewrite writeStack_buffer. rewrite !encodeVarInt_buffer. cbn [buffer clear].
  rewrite ?encodeVarInt_buffer. cbn [buffer app].
  now rewrite <- !app_assoc.
Qed.

Lemma serialize_layout e :
  serialize e =
  encoded (timestamp e) ++ encoded (tid e) ++ [to_u8 (type e)] ++
  encoded (to_u64 (ptr1 e)) ++ encoded (to_u64 (ptr2 e)) ++
  encoded (to_u64 (result e)) ++ encoded (duration_ns e) ++
  encoded (Z.of_nat (length (stack e))) ++
  flat_map (fun p => encoded (to_u64 p)) (stack e).
Proof.
  unfold serialize, size, data. rewrite firstn_all. apply write_event_buffer.
Qed.

(** ** Casts that undo each other on values in range *)

Lemma to_u64_id v : is_u64 v -> to_u64 v = v.
Proof. intros Hv. apply Z.mod_small. exact Hv. Qed.

Lemma to_u32_id v : is_u32 v -> to_u32 v = v.
Proof. intros Hv. apply Z.mod_small. exact Hv. Qed.

Lemma to_u8_id v : is_u8 v -> to_u8 v = v.
Proof. intros Hv. apply Z.mod_small. exact Hv. Qed.

Lemma to_u64_range v : is_u64 (to_u64 v).
Proof. apply Z.mod_pos_bound. lia. Qed.

Lemma is_u32_u64 v : is_u32 v -> is_u64 v.
Proof. unfold is_u32, is_u64. lia. Qed.

Lemma to_i32_to_u64 v : is_i32 v -> to_i32 (to_u64 v) = v.
Proof.
  unfold is_i32, to_i32, to_u64. intros Hv.
  assert (E : (v mod 2 ^ 64 + 2 ^ 31) mod 2 ^ 32 = (v + 2 ^ 31) mod 2 ^ 32).
  { destruct (Z_lt_le_dec v 0).
    - replace (v mod 2 ^ 64) with (v + 2 ^ 64).
      + replace (v + 2 ^ 64 + 2 ^ 31) with (v + 2 ^ 31 + 2 ^ 32 * 2 ^ 32) by lia.
        apply Z_mod_plus_full.
      + apply Z.mod_unique with (q := -1); lia.
    - rewrite (Z.mod_small v) by lia. reflexivity. }
  rewrite E, Z.mod_small by lia. lia.
Qed.

Lemma flat_map_to_u64 frames : Forall is_u64 frames ->
  flat_map (fun p => encoded (to_u64 p)) frames = flat_map encoded frames.
Proof.
  induction 1 as [|x l Hx _ IH]; [reflexivity|].
  cbn [flat_map]. now rewrite IH, to_u64_id.
Qed.

(** ** One record read back *)

Lemma readStack_loop_frames `{Machine} frames : forall r rest,
  Forall is_u64 frames -> unread r = flat_map encoded frames ++ rest ->
  exists r', readStack_loop (length frames) r = (frames, r') /\
             unread r' = rest.
Proof.
  induction frames as [|x l IH]; intros r rest Hf E.
  - exists r. auto.
  - inversion Hf as [|? ? Hx Hl]; subst. cbn [flat_map] in E.
    rewrite <- app_assoc in E.
    destruct (readVarInt_encoded r x _ Hx E) as (r1 & R1 & U1).
    destruct (IH r1 rest Hl U1) as (r2 & R2 & U2).
    exists r2. cbn [length readStack_loop]. unfold readPtr.
    rewrite R1, R2. auto.
Qed.

Lemma readStack_frames `{Machine} frames r rest :
  Forall is_u64 frames -> (length frames <= MAX_STACK_DEPTH)%nat ->
  unread r = encoded (Z.of_nat (length frames)) ++
             flat_map encoded frames ++ rest ->
  exists r', readStack r = (frames, r') /\ unread r' = rest.
Proof.
  intros Hf Hd E. unfold MAX_STACK_DEPTH in Hd.
  assert (Hn : is_u32 (Z.of_nat (length frames))) by (unfold is_u32; lia).
  destruct (readVarInt_encoded r _ _ (is_u32_u64 _ Hn) E) as (r1 & R1 & U1).
  destruct (readStack_loop_frames frames r1 rest Hf U1) as (r2 & R2 & U2).
  exists r2. unfold readStack. rewrite R1, to_u32_id, Nat2Z.id by assumption.
  auto.
Qed.

Lemma read_event_serialize `{Machine} e r rest :
  well_formed e -> unread r = serialize e ++ rest ->
  exists r', read_event r = Some (e, r') /\ unread r' = rest.
Proof.
  intros [Hts Htid Hty Hp1 Hp2 Hres Hdur Hst Hd] E.
  rewrite serialize_layout, flat_map_to_u64 in E by assumption.
  rewrite !to_u64_id, to_u8_id in E by assumption.
  repeat rewrite <- app_assoc in E.
  destruct (readVarInt_encoded r _ _ Hts E) as (r1 & R1 & U1).
  destruct (readVarInt_encoded r1 _ _ (is_u32_u64 _ Htid) U1) as (r2 & R2 & U2).
  destruct (readEventType_unread r2 _ _ U2) as (r3 & R3 & U3).
  destruct (readVarInt_encoded r3 _ _ Hp1 U3) as (r4 & R4 & U4).
  destruct (readVarInt_encoded r4 _ _ Hp2 U4) as (r5 & R5 & U5).
  destruct (readVarInt_encoded r5 _ _ (to_u64_range _) U5) as (r6 & R6 & U6).
  destruct (readVarInt_encoded r6 _ _ Hdur U6) as (r7 & R7 & U7).
  destruct (readStack_frames _ r7 rest Hst Hd U7) as (r8 & R8 & U8).
  exists r8. split; [|assumption].
  unfold read_event, readPtr. rewrite R1, R2, R3, R4, R5, R6, R7, R8.
  rewrite to_u32_id, to_i32_to_u64 by assumption.
  destruct e; reflexivity.
Qed.

(** ** The decoding loop over a trace *)

Lemma encoded_cons v : exists b l, encoded v = b :: l.
Proof.
  rewrite encoded_eq, encodeVarInt_loop_S. destruct (_ =? _); eauto.
Qed.

Lemma encoded_nonempty v : (1 <= length (encoded v))%nat.
Proof. destruct (encoded_cons v) as (b & l & ->). cbn [length]. lia. Qed.

Lemma serialize_cons e : exists b l, serialize e = b :: l.
Proof.
  rewrite serialize_layout. destruct (encoded_cons (timestamp e)) as (b & l & ->).
  cbn [app]. eauto.
Qed.

Lemma length_trace es : (length es <= length (trace es))%nat.
Proof.
  induction es as [|e es IH]; [cbn; lia|].
  cbn [trace flat_map length]. fold (trace es). rewrite length_app.
  destruct (serialize_cons e) as (b & l & ->). cbn [length]. lia.
Qed.

Lemma main_loop_at_eof `{Machine} fuel r :
  unread r = [] -> main_loop (S fuel) r = ([], Exit0).
Proof. intros E. apply eof_unread in E. cbn [main_loop]. now rewrite E. Qed.

Lemma not_eof r b l : unread r = b :: l -> eof r = false.
Proof.
  intros E. destruct (eof r) eqn:F; [|reflexivity].
  apply eof_unread in F. congruence.
Qed.

Lemma main_loop_trace `{Machine} es : forall r tail fuel,
  Forall well_formed es -> unread r = trace es ++ tail ->
  exists r', unread r' = tail /\
    main_loop (length es + fuel) r =
    (let (es', o) := main_loop fuel r' in (es ++ es', o)).
Proof.
  induction es as [|e es IH]; intros r tail fuel Hwf E.
  - exists r. split; [exact E|]. cbn [length Nat.add app].
    now destruct (main_loop fuel r).
  - inversion Hwf as [|? ? He Hes]; subst.
    cbn [trace flat_map] in E. fold (trace es) in E. rewrite <- app_assoc in E.
    destruct (read_event_serialize e r _ He E) as (r1 & R1 & U1).
    destruct (IH r1 tail fuel Hes U1) as (r' & U' & L).
    exists r'. split; [exact U'|].
    cbn [length Nat.add main_loop].
    destruct (serialize_cons e) as (b & l & S'). rewrite S' in E.
    rewrite (not_eof r b _ E), R1, L.
    now destruct (main_loop fuel r').
Qed.

Lemma unread_start file : unread {| buffer_ := file; pos_ := 0 |} = file.
Proof. reflexivity. Qed.

Lemma main_trace `{Machine} es :
  Forall well_formed es -> main (trace es) = (es, Exit0).
Proof.
  intros Hwf. unfold main.
  pose proof (length_trace es) as Hl.
  replace (S (length (trace es)))
    with (length es + S (length (trace es) - length es))%nat by lia.
  destruct (main_loop_trace es {| buffer_ := trace es; pos_ := 0 |} []
              (S (length (trace es) - length es)) Hwf) as (r' & U & L).
  { rewrite unread_start. now rewrite app_nil_r. }
  rewrite L, main_loop_at_eof by assumption. now rewrite app_nil_r.
Qed.

(** ** The value of a varint cut by the end of the buffer *)

Lemma readVarInt_loop_payload `{Machine} bs : Forall continues bs ->
  forall acc s, 0 <= s -> s + 7 * Z.of_nat (length bs) <= 70 ->
  readVarInt_loop bs acc s =
  (Z.lor acc (to_u64 (Z.shiftl (payload bs) s)), length bs).
Proof.
  induction 1 as [|b bs Hb _ IH]; intros acc s Hs Hl.
  - cbn [readVarInt_loop payload length]. rewrite Z.shiftl_0_l.
    unfold to_u64. rewrite Z.mod_0_l by lia. now rewrite Z.lor_0_r.
  - cbn [readVarInt_loop payload length] in *. unfold continues in Hb.
    rewrite Hb, IH by lia. f_equal.
    unfold shl64. destruct (s <? 64) eqn:E; [|apply Z.ltb_ge in E; lia].
    unfold to_u64. rewrite <- !(Z.land_ones _ 64) by lia.
    change 0x7F with (Z.ones 7). Z.bitblast.
    rewrite (Z.testbit_neg_r (payload bs)), (Z.testbit_neg_r b) by lia.
    cbn. now rewrite !Bool.orb_false_r.
Qed.

Lemma payload_prefix f : forall v m,
  (m < length (encodeVarInt_loop f v []))%nat ->
  payload (firstn m (encodeVarInt_loop f v [])) =
  Z.land v (Z.ones (7 * Z.of_nat m)).
Proof.
  induction f as [|f IH]; intros v m Hm; [cbn in Hm; lia|].
  rewrite encodeVarInt_loop_S in *.
  destruct (Z.shiftr v 7 =? 0).
  - cbn [length] in Hm. assert (m = O) as -> by lia.
    cbn [firstn payload]. change (Z.ones (7 * Z.of_nat 0)) with 0.
    now rewrite Z.land_0_r.
  - destruct m as [|m].
    + cbn [firstn payload]. change (Z.ones (7 * Z.of_nat 0)) with 0.
      now rewrite Z.land_0_r.
    + cbn [firstn length payload] in *. rewrite IH by lia.
      rewrite land_lor_128_127.
      replace (7 * Z.of_nat (S m)) with (7 * Z.of_nat m + 7) by lia.
      change 0x7F with (Z.ones 7). Z.bitblast.
Qed.

Lemma encoded_small v : 0 <= v < 128 -> encoded v = [v].
Proof.
  intros Hv. rewrite encoded_eq, encodeVarInt_loop_S.
  assert (E : Z.shiftr v 7 = 0).
  { rewrite Z.shiftr_div_pow2 by lia. apply Z.div_small. simpl; lia. }
  rewrite E. cbn [Z.eqb]. now rewrite land_127_small by lia.
Qed.

Lemma cut_value_whole v m :
  (length (encoded v) <= m)%nat -> cut_value v m = v.
Proof. intros L. unfold cut_value. apply Nat.leb_le in L. now rewrite L. Qed.

Lemma cut_value_inside v m :
  (m < length (encoded v))%nat ->
  cut_value v m = Z.land v (Z.ones (7 * Z.of_nat m)).
Proof. intros L. unfold cut_value. apply Nat.leb_gt in L. now rewrite L. Qed.

Lemma cut_value_0 v : cut_value v 0 = 0.
Proof.
  rewrite cut_value_inside by (pose proof (encoded_nonempty v); lia).
  change (Z.ones (7 * Z.of_nat 0)) with 0. apply Z.land_0_r.
Qed.

Lemma land_ones_u64 v k : is_u64 v -> 0 <= k -> is_u64 (Z.land v (Z.ones k)).
Proof.
  intros [V0 V] K. rewrite Z.land_ones by lia. unfold is_u64.
  pose proof (Z.mod_pos_bound v (2 ^ k) ltac:(lia)).
  pose proof (Z.mod_le v (2 ^ k) V0 ltac:(lia)). lia.
Qed.

(** Reading a varint where the buffer may end inside or after it gives
    the value cut where the bytes end. *)
Lemma readVarInt_cut `{Machine} r v X m :
  is_u64 v -> unread r = firstn m (encoded v ++ X) ->
  exists r', readVarInt r = (cut_value v m, r') /\
    unread r' = firstn (m - length (encoded v)) X.
Proof.
  intros Hv E. rewrite firstn_app in E.
  destruct (le_lt_dec (length (encoded v)) m) as [Hle|Hlt].
  - rewrite firstn_all2 in E by assumption.
    destruct (readVarInt_encoded r v _ Hv E) as (r' & R & U).
    exists r'. now rewrite cut_value_whole.
  - replace (m - length (encoded v))%nat with O in * by lia.
    rewrite firstn_O, app_nil_r in E.
    pose proof (proper_prefix_continues 64 v m Hlt) as C.
    pose proof (payload_prefix 64 v m Hlt) as P.
    change (encodeVarInt_loop 64 v []) with (encoded v) in C, P.
    rewrite <- E in C, P.
    assert (Lm : length (unread r) = m).
    { rewrite E, length_firstn. lia. }
    pose proof (encoded_length v Hv) as L10.
    unfold readVarInt. fold (unread r).
    rewrite readVarInt_loop_payload by (assumption || lia).
    rewrite Z.shiftl_0_r, P, Z.lor_0_l, Lm.
    rewrite to_u64_id by (apply land_ones_u64; [assumption|lia]).
    rewrite cut_value_inside by assumption.
    eexists. split; [reflexivity|].
    rewrite unread_advance, <- Lm. apply skipn_all.
Qed.

(** ** The decoding loop over a trace cut inside its last record *)

Lemma readStack_loop_cut `{Machine} frames : forall m r,
  Forall is_u64 frames -> unread r = firstn m (flat_map encoded frames) ->
  exists r', readStack_loop (length frames) r = (cut_frames frames m, r') /\
    unread r' = [].
Proof.
  induction frames as [|x l IH]; intros m r Hf E.
  - exists r. split; [reflexivity|]. rewrite E. apply firstn_nil.
  - inversion Hf as [|? ? Hx Hl]; subst. cbn [flat_map] in E.
    destruct (readVarInt_cut r x _ m Hx E) as (r1 & R1 & U1).
    destruct (IH _ r1 Hl U1) as (r2 & R2 & U2).
    cbn [length readStack_loop cut_frames]. unfold readPtr.
    rewrite R1, R2. now exists r2.
Qed.

Lemma readStack_cut `{Machine} frames m r :
  Forall is_u64 frames -> (length frames <= MAX_STACK_DEPTH)%nat ->
  unread r = firstn m (encoded (Z.of_nat (length frames)) ++
                       flat_map encoded frames) ->
  exists r',
    readStack r =
      (if (length (encoded (Z.of_nat (length frames))) <=? m)%nat
       then cut_frames frames
              (m - length (encoded (Z.of_nat (length frames))))
       else [], r') /\
    unread r' = [].
Proof.
  intros Hf Hd E. unfold MAX_STACK_DEPTH in Hd.
  assert (Hn : is_u32 (Z.of_nat (length frames))) by (unfold is_u32; lia).
  destruct (readVarInt_cut r _ _ m (is_u32_u64 _ Hn) E) as (r1 & R1 & U1).
  unfold readStack. rewrite R1.
  destruct (Nat.leb_spec (length (encoded (Z.of_nat (length frames)))) m)
    as [Hle|Hlt].
  - rewrite cut_value_whole, to_u32_id, Nat2Z.id by assumption.
    now apply readStack_loop_cut.
  - rewrite encoded_small in Hlt by lia. cbn [length] in Hlt.
    assert (m = O) as -> by lia. rewrite cut_value_0.
    cbn. exists r1. split; [reflexivity|]. rewrite U1. apply firstn_O.
Qed.

(** A record cut after its kind byte still makes one record: each later
    field is read from the bytes of it that are there. *)
Lemma read_event_cut `{Machine} e m r :
  well_formed e -> unread r = firstn m (serialize e) ->
  (length (encoded (timestamp e)) + length (encoded (tid e)) < m)%nat ->
  exists r', read_event r = Some (cut_record e m, r') /\ unread r' = [].
Proof.
  intros [Hts Htid Hty Hp1 Hp2 Hres Hdur Hst Hd] E Hm.
  rewrite serialize_layout, flat_map_to_u64 in E by assumption.
  rewrite !to_u64_id, to_u8_id in E by assumption.
  destruct (readVarInt_cut r _ _ m Hts E) as (r1 & R1 & U1).
  destruct (readVarInt_cut r1 _ _ _ (is_u32_u64 _ Htid) U1) as (r2 & R2 & U2).
  remember (m - length (encoded (timestamp e)) - length (encoded (tid e)))%nat
    as k eqn:Hk.
  destruct k as [|k]; [lia|]. cbn [app firstn] in U2.
  destruct (readEventType_unread r2 _ _ U2) as (r3 & R3 & U3).
  destruct (readVarInt_cut r3 _ _ _ Hp1 U3) as (r4 & R4 & U4).
  destruct (readVarInt_cut r4 _ _ _ Hp2 U4) as (r5 & R5 & U5).
  destruct (readVarInt_cut r5 _ _ _ (to_u64_range _) U5) as (r6 & R6 & U6).
  destruct (readVarInt_cut r6 _ _ _ Hdur U6) as (r7 & R7 & U7).
  destruct (readStack_cut _ _ r7 Hst Hd U7) as (r8 & R8 & U8).
  unfold read_event, readPtr. rewrite R1, R2, R3, R4, R5, R6, R7, R8.
  exists r8. split; [|exact U8]. unfold cut_record.
  rewrite !cut_value_whole, to_u32_id by (assumption || lia).
  replace (m - length (encoded (timestamp e)) - length (encoded (tid e)) - 1)%nat
    with k by lia.
  reflexivity.
Qed.

Lemma main_cut_record `{Machine} es e m :
  Forall well_formed es -> well_formed e ->
  (length (encoded (timestamp e)) + length (encoded (tid e)) < m)%nat ->
  main (trace es ++ firstn m (serialize e)) = (es ++ [cut_record e m], Exit0).
Proof.
  intros Hes He Hm. unfold main.
  set (file := trace es ++ firstn m (serialize e)).
  assert (Hl : (length es + 2 <= S (length file))%nat).
  { unfold file. rewrite length_app. pose proof (length_trace es).
    destruct (serialize_cons e) as (b & l & ->).
    destruct m as [|m]; [lia|]. cbn [firstn length]. lia. }
  replace (S (length file))
    with (length es + S (S (length file - length es - 1)))%nat by lia.
  destruct (main_loop_trace es {| buffer_ := file; pos_ := 0 |}
              (firstn m (serialize e)) (S (S (length file - length es - 1))) Hes)
    as (r' & U & L); [reflexivity|].
  rewrite L.
  destruct (read_event_cut e m r' He U Hm) as (r2 & R & U2).
  assert (F : eof r' = false).
  { destruct (serialize_cons e) as (b & l & S'). rewrite S' in U.
    destruct m as [|m]; [lia|]. cbn [firstn] in U. eapply not_eof; eauto. }
  change (main_loop (S ?f) r') with
    (if eof r' then ([], Exit0)
     else match read_event r' with
          | None => ([], OutOfBoundsRead)
          | Some (e, r2) => let (es, o) := main_loop f r2 in (e :: es, o)
          end).
  rewrite F, R, main_loop_at_eof by assumption. reflexivity.
Qed.

(** ** What [log] appends to the file *)

Lemma log_initialized `{Host} type ptr1 ptr2 result dur l w :
  initialized_ l = true ->
  log type ptr1 ptr2 result dur (l, w) =
  ({| log_ := ofstream_write
                (serialize (logged_event type ptr1 ptr2 result dur w)) (log_ l);
      initialized_ := true;
      writer_ := write_event (logged_event type ptr1 ptr2 result dur w)
                             (writer_ l) |},
   snd (steady_clock_now w)).
Proof.
  intros I. unfold log, logged_event, serialize. rewrite I. cbn [negb].
  destruct (steady_clock_now w) as [t w']. cbn [fst snd].
  unfold size, data. rewrite !firstn_all, !write_event_buffer. reflexivity.
Qed.

Lemma log_uninitialized `{Host} type ptr1 ptr2 result dur l w :
  initialized_ l = false -> log type ptr1 ptr2 result dur (l, w) = (l, w).
Proof. intros I. unfold log. now rewrite I. Qed.

(** ** A varint cut by the end of the buffer *)

Lemma readVarInt_loop_consumed `{Machine} l : forall acc s,
  (snd (readVarInt_loop l acc s) <= length l)%nat.
Proof.
  induction l as [|b l IH]; intros acc s; [cbn; lia|].
  cbn [readVarInt_loop length]. destruct (Z.land b 0x80 =? 0); [cbn; lia|].
  specialize (IH (Z.lor acc (shl64 (Z.land b 0x7F) s)) (s + 7)).
  destruct (readVarInt_loop l _ _). cbn [snd] in *. lia.
Qed.

Lemma readVarInt_loop_cut `{Machine} bs b : Forall continues bs ->
  continues b -> forall acc s,
  readVarInt_loop (bs ++ [b]) acc s =
  readVarInt_loop (bs ++ [Z.land b 0x7F]) acc s /\
  snd (readVarInt_loop (bs ++ [b]) acc s) = length (bs ++ [b]).
Proof.
  intros Hbs Hb. induction Hbs as [|x bs Hx _ IH]; intros acc s.
  - cbn [app readVarInt_loop length]. unfold continues in Hb.
    rewrite Hb, land_127_idem, land_127_128. cbn [Z.eqb snd]. auto.
  - cbn [app readVarInt_loop length]. unfold continues in Hx. rewrite Hx.
    destruct (IH (Z.lor acc (shl64 (Z.land x 0x7F) s)) (s + 7)) as [E L].
    rewrite <- E. destruct (readVarInt_loop (bs ++ [b]) _ _).
    cbn [snd] in *. split; [reflexivity|]. now f_equal.
Qed.

(** ** The decoding loop always ends

    A reader never moves back, and a round of the loop that starts
    before the end of the buffer moves forward; so the fuel [main] gives
    the loop is never used up. *)

Lemma readVarInt_moves `{Machine} r :
  buffer_ (snd (readVarInt r)) = buffer_ r /\
  (pos_ r <= pos_ (snd (readVarInt r)))%nat /\
  (eof r = false -> (pos_ r < pos_ (snd (readVarInt r)))%nat).
Proof.
  unfold readVarInt, eof.
  destruct (skipn (pos_ r) (buffer_ r)) as [|b l] eqn:E.
  - cbn. repeat split; try lia. intros F. apply Nat.leb_gt in F.
    apply (f_equal (@length Z)) in E. rewrite length_skipn in E. cbn in E. lia.
  - cbn [readVarInt_loop]. destruct (Z.land b 0x80 =? 0).
    + cbn. repeat split; lia.
    + destruct (readVarInt_loop l _ _). cbn. repeat split; lia.
Qed.

Lemma readStack_loop_moves `{Machine} n : forall r,
  buffer_ (snd (readStack_loop n r)) = buffer_ r /\
  (pos_ r <= pos_ (snd (readStack_loop n r)))%nat.
Proof.
  induction n as [|n IH]; intros r; cbn [readStack_loop]; [cbn; auto|].
  unfold readPtr. pose proof (readVarInt_moves r) as (B1 & P1 & _).
  destruct (readVarInt r) as [v r1]. cbn [snd] in *.
  specialize (IH r1). destruct (readStack_loop n r1) as [ps r2].
  cbn [snd] in *. destruct IH as [B2 P2]. split; [congruence|lia].
Qed.

Lemma read_event_moves `{Machine} r e r' :
  eof r = false -> read_event r = Some (e, r') ->
  buffer_ r' = buffer_ r /\ (pos_ r < pos_ r')%nat.
Proof.
  intros F. unfold read_event, readPtr, readStack.
  pose proof (readVarInt_moves r) as (B1 & _ & P1). specialize (P1 F).
  destruct (readVarInt r) as [v1 r1]. cbn [snd] in *.
  pose proof (readVarInt_moves r1) as (B2 & P2 & _).
  destruct (readVarInt r1) as [v2 r2]. cbn [snd] in *.
  unfold readEventType.
  destruct (nth_error (buffer_ r2) (pos_ r2)) as [ty|]; [|discriminate].
  match goal with |- context [readVarInt ?x] => set (r3 := x) end.
  pose proof (readVarInt_moves r3) as (B4 & P4 & _).
  destruct (readVarInt r3) as [v4 r4]. cbn [snd] in *.
  pose proof (readVarInt_moves r4) as (B5 & P5 & _).
  destruct (readVarInt r4) as [v5 r5]. cbn [snd] in *.
  pose proof (readVarInt_moves r5) as (B6 & P6 & _).
  destruct (readVarInt r5) as [v6 r6]. cbn [snd] in *.
  pose proof (readVarInt_moves r6) as (B7 & P7 & _).
  destruct (readVarInt r6) as [v7 r7]. cbn [snd] in *.
  pose proof (readVarInt_moves r7) as (B8 & P8 & _).
  destruct (readVarInt r7) as [v8 r8]. cbn [snd] in *.
  pose proof (readStack_loop_moves (Z.to_nat (to_u32 v8)) r8) as (B9 & P9).
  destruct (readStack_loop _ r8) as [st r9]. cbn [snd] in *.
  intros E. injection E as _ <-. unfold r3 in *. cbn [buffer_ pos_] in *.
  split; [congruence|lia].
Qed.

Lemma main_loop_fuel `{Machine} fuel : forall r,
  (length (buffer_ r) - pos_ r < fuel)%nat ->
  snd (main_loop fuel r) <> FuelExhausted.
Proof.
  induction fuel as [|fuel IH]; intros r Hf; [lia|].
  cbn [main_loop]. destruct (eof r) eqn:F; [discriminate|].
  destruct (read_event r) as [[e r']|] eqn:E; [|discriminate].
  destruct (read_event_moves r e r' F E) as [B P].
  specialize (IH r'). destruct (main_loop fuel r') as [es o]. cbn [snd] in *.
  apply IH. unfold eof in F. apply Nat.leb_gt in F. rewrite B. lia.
Qed.

Lemma main_never_out_of_fuel `{Machine} file :
  snd (main file) <> FuelExhausted.
Proof. unfold main. apply main_loop_fuel. cbn. lia. Qed.

(** ** The wrappers *)

Section ShimFacts.
Context `{Host}.

Lemma now_eq st :
  now st =
  (fst (steady_clock_now (world st)),
   {| in_hook := in_hook st; reals := reals st; logger := logger st;
      world := snd (steady_clock_now (world st)) |}).
Proof. unfold now. now destruct (steady_clock_now _). Qed.

Lemma call_eq s args st :
  call s args st =
  match reals st s with
  | None => None
  | Some f =>
      Some (fst (f args (world st)),
            {| in_hook := in_hook st; reals := reals st; logger := logger st;
               world := snd (f args (world st)) |})
  end.
Proof.
  unfold call. destruct (reals st s) as [f|]; [|reflexivity].
  now destruct (f args (world st)).
Qed.

(** *** The logger's mutex *)

(** A call of [log] that gets past the test of [initialized_] goes
    through [real_pthread_mutex_lock] and [real_pthread_mutex_unlock],
    with the clock read in between. *)
Lemma instance_log_eq t p1 p2 r d st :
  instance_log t p1 p2 r d st =
  if negb (initialized_ (logger st)) then Some st
  else if in_hook st then
    match reals st real_pthread_mutex_lock with
    | None => None
    | Some fl =>
        if fst (fl [write_mutex_address] (world st)) =? 0 then
          match reals st real_pthread_mutex_unlock with
          | None => None
          | Some fu =>
              let w := snd (fl [write_mutex_address] (world st)) in
              Some {| in_hook := true; reals := reals st;
                      logger := fst (log t p1 p2 r d (logger st, w));
                      world :=
                        snd (fu [write_mutex_address]
                               (snd (log t p1 p2 r d (logger st, w)))) |}
          end
        else None
    end
  else None.
Proof.
  unfold instance_log, lock_guard_acquire.
  destruct (negb (initialized_ (logger st))); [reflexivity|].
  destruct (in_hook st) eqn:F; [|reflexivity].
  rewrite call_eq. destruct (reals st real_pthread_mutex_lock) as [fl|];
    [|reflexivity].
  destruct (fst (fl [write_mutex_address] (world st)) =? 0); [|reflexivity].
  cbn [logger world in_hook reals].
  destruct (log t p1 p2 r d _) as [l w]. unfold lock_guard_release.
  cbn [in_hook fst snd]. rewrite F, call_eq. cbn [reals world in_hook logger].
  now destruct (reals st real_pthread_mutex_unlock).
Qed.

(** The flag is what lets [log] take its mutex. *)
Lemma instance_log_flag_clear t p1 p2 r d st :
  initialized_ (logger st) = true -> in_hook st = false ->
  instance_log t p1 p2 r d st = None.
Proof. intros I F. rewrite instance_log_eq, I, F. reflexivity. Qed.

Lemma instance_log_initialized t p1 p2 r d st fl fu :
  initialized_ (logger st) = true -> in_hook st = true ->
  reals st real_pthread_mutex_lock = Some fl ->
  reals st real_pthread_mutex_unlock = Some fu ->
  fst (fl [write_mutex_address] (world st)) = 0 ->
  instance_log t p1 p2 r d st =
  Some {| in_hook := true; reals := reals st;
          logger :=
            fst (log t p1 p2 r d
                   (logger st, snd (fl [write_mutex_address] (world st))));
          world :=
            snd (fu [write_mutex_address]
                   (snd (log t p1 p2 r d
                           (logger st,
                            snd (fl [write_mutex_address] (world st)))))) |}.
Proof.
  intros I F Rl Ru E. rewrite instance_log_eq, I, F, Rl, Ru, E. reflexivity.
Qed.

Lemma instance_log_inv t p1 p2 r d st st' :
  instance_log t p1 p2 r d st = Some st' ->
  in_hook st' = in_hook st /\ reals st' = reals st /\
  exists w, logger st' = fst (log t p1 p2 r d (logger st, w)).
Proof.
  rewrite instance_log_eq. destruct (initialized_ (logger st)) eqn:I;
    cbn [negb].
  - destruct (in_hook st) eqn:F; [|discriminate].
    destruct (reals st real_pthread_mutex_lock) as [fl|]; [|discriminate].
    destruct (_ =? 0); [|discriminate].
    destruct (reals st real_pthread_mutex_unlock) as [fu|]; [|discriminate].
    cbv zeta. intros E. injection E as <-. cbn [in_hook reals logger].
    split; [reflexivity|]. split; [reflexivity|].
    exists (snd (fl [write_mutex_address] (world st))). reflexivity.
  - intros E. injection E as <-. split; [reflexivity|]. split; [reflexivity|].
    exists (world st). now rewrite log_uninitialized.
Qed.

Lemma instance_log_completes t p1 p2 r d st fl fu :
  in_hook st = true ->
  reals st real_pthread_mutex_lock = Some fl ->
  reals st real_pthread_mutex_unlock = Some fu ->
  (forall w, fst (fl [write_mutex_address] w) = 0) ->
  exists st', instance_log t p1 p2 r d st = Some st'.
Proof.
  intros F Rl Ru E. rewrite instance_log_eq, F, Rl, Ru, E. cbn [Z.eqb].
  destruct (negb _); eexists; reflexivity.
Qed.

(** One call of [log] appends at most one record, with the [ptr1] and
    the kind it was given. *)
Lemma log_file t p1 p2 r d l w :
  exists es,
    contents (log_ (fst (log t p1 p2 r d (l, w)))) =
      contents (log_ l) ++ trace es /\
    Forall (fun e => ptr1 e = p1) es.
Proof.
  destruct (initialized_ l) eqn:I.
  - rewrite log_initialized by assumption. cbn [fst log_].
    unfold ofstream_write. destruct (is_open (log_ l)).
    + exists [logged_event t p1 p2 r d w]. cbn [contents trace flat_map].
      rewrite app_nil_r. split; [reflexivity|]. now constructor.
    + exists []. cbn [trace flat_map]. now rewrite app_nil_r.
  - rewrite log_uninitialized by assumption. exists [].
    cbn [fst trace flat_map]. now rewrite app_nil_r.
Qed.


Lemma trace_app es1 es2 : trace (es1 ++ es2) = trace es1 ++ trace es2.
Proof. apply flat_map_app. Qed.

(** *** With the flag set a wrapper is the real call *)

Lemma hook_once_passthrough s args t p st :
  in_hook st = true -> hook_once s args t p st = call s args st.
Proof. intros F. unfold hook_once. now rewrite F. Qed.

Lemma hook_timed_passthrough s args t t' p p2 st :
  in_hook st = true -> hook_timed s args t t' p p2 st = call s args st.
Proof. intros F. unfold hook_timed. now rewrite F. Qed.

(** *** A wrapper whose slot is null *)

Lemma hook_once_unresolved s args t p st :
  reals st s = None -> hook_once s args t p st = None.
Proof.
  intros R. unfold hook_once. rewrite !call_eq. cbn [reals set_in_hook].
  rewrite R. now destruct (in_hook st).
Qed.

Lemma hook_timed_unresolved s args t t' p p2 st :
  reals st s = None -> hook_timed s args t t' p p2 st = None.
Proof.
  intros R. unfold hook_timed. destruct (in_hook st).
  - now rewrite call_eq, R.
  - rewrite now_eq.
    destruct (instance_log t p p2 0 0 _) as [st1|] eqn:L; [|reflexivity].
    apply instance_log_inv in L. destruct L as (_ & Rr & _).
    rewrite call_eq, Rr. cbn [reals set_in_hook]. now rewrite R.
Qed.

(** *** A wrapper entered with the flag clear, step by step *)

Lemma call_inv s args st r st' :
  call s args st = Some (r, st') ->
  exists f, reals st s = Some f /\ r = fst (f args (world st)) /\
    in_hook st' = in_hook st /\ reals st' = reals st /\
    logger st' = logger st /\ world st' = snd (f args (world st)).
Proof.
  rewrite call_eq. destruct (reals st s) as [f|]; [|discriminate].
  intros E. injection E as <- <-. exists f. cbn. auto 10.
Qed.

Lemma hook_once_inv s args t p st r st' :
  in_hook st = false -> hook_once s args t p st = Some (r, st') ->
  exists st1 st2,
    call s args (set_in_hook true st) = Some (r, st1) /\
    instance_log t p nullptr r 0 st1 = Some st2 /\
    st' = set_in_hook false st2.
Proof.
  intros F E. unfold hook_once in E. rewrite F in E.
  destruct (call s args (set_in_hook true st)) as [[r1 st1]|]; [|discriminate].
  destruct (instance_log t p nullptr r1 0 st1) as [st2|] eqn:L;
    [|discriminate].
  injection E as <- <-. eauto.
Qed.

Lemma hook_timed_inv s args t t' p p2 st r st' :
  in_hook st = false -> hook_timed s args t t' p p2 st = Some (r, st') ->
  exists start sta stb stc stop std ste,
    now (set_in_hook true st) = (start, sta) /\
    instance_log t p p2 0 0 sta = Some stb /\
    call s args stb = Some (r, stc) /\
    now stc = (stop, std) /\
    instance_log t' p p2 r (to_u64 (stop - start)) std = Some ste /\
    st' = set_in_hook false ste.
Proof.
  intros F E. unfold hook_timed in E. rewrite F in E.
  destruct (now (set_in_hook true st)) as [start sta].
  destruct (instance_log t p p2 0 0 sta) as [stb|] eqn:L1; [|discriminate].
  destruct (call s args stb) as [[r1 stc]|] eqn:C; [|discriminate].
  destruct (now stc) as [stop std] eqn:N.
  destruct (instance_log t' p p2 r1 _ std) as [ste|] eqn:L2; [|discriminate].
  injection E as <- <-. exists start, sta, stb, stc, stop, std, ste. auto 10.
Qed.

Lemma now_inv st t st' :
  now st = (t, st') ->
  in_hook st' = in_hook st /\ reals st' = reals st /\ logger st' = logger st.
Proof. rewrite now_eq. intros E. injection E as _ <-. auto. Qed.

(** The logger a wrapper leaves is the one it found, after one call of
    [log] (two for a timing wrapper) with the wrapper's pointers and the
    value of the real call; the table is as it was and the flag is
    clear. *)
Lemma hook_once_logger s args t p st r st' :
  in_hook st = false -> hook_once s args t p st = Some (r, st') ->
  in_hook st' = false /\ reals st' = reals st /\
  (exists f w0, reals st s = Some f /\ r = fst (f args w0)) /\
  exists w, logger st' = fst (log t p nullptr r 0 (logger st, w)).
Proof.
  intros F E. destruct (hook_once_inv _ _ _ _ _ _ _ F E)
    as (st1 & st2 & C & L & ->).
  destruct (call_inv _ _ _ _ _ C) as (f & Rf & Er & _ & R1 & L1 & _).
  destruct (instance_log_inv _ _ _ _ _ _ _ L) as (_ & R2 & w & L2).
  cbn [set_in_hook in_hook reals logger world] in *.
  split; [reflexivity|]. split; [congruence|]. split; [eauto|].
  exists w. now rewrite L2, L1.
Qed.

Lemma hook_timed_logger s args t t' p p2 st r st' :
  in_hook st = false -> hook_timed s args t t' p p2 st = Some (r, st') ->
  in_hook st' = false /\ reals st' = reals st /\
  (exists f w0, reals st s = Some f /\ r = fst (f args w0)) /\
  exists w w' d,
    logger st' =
      fst (log t' p p2 r (to_u64 d)
             (fst (log t p p2 0 0 (logger st, w)), w')).
Proof.
  intros F E. destruct (hook_timed_inv _ _ _ _ _ _ _ _ _ F E)
    as (start & sta & stb & stc & stop & std & ste
        & N1 & La & C & N2 & Lb & ->).
  destruct (now_inv _ _ _ N1) as (_ & Ra & Lga).
  destruct (instance_log_inv _ _ _ _ _ _ _ La) as (_ & Rb & w & Lgb).
  destruct (call_inv _ _ _ _ _ C) as (f & Rf & Er & _ & Rc & Lgc & _).
  destruct (now_inv _ _ _ N2) as (_ & Rd & Lgd).
  destruct (instance_log_inv _ _ _ _ _ _ _ Lb) as (_ & Re & w' & Lge).
  cbn [set_in_hook in_hook reals logger world] in *.
  split; [reflexivity|]. split; [congruence|].
  split.
  - exists f, (world stb). split; [|exact Er].
    rewrite Rb, Ra in Rf. exact Rf.
  - exists w, w', (stop - start).
    rewrite Lge, Lgd, Lgc, Lgb, Lga. reflexivity.
Qed.

(** *** A wrapper calls through three slots at most *)

Lemma alike_set_in_hook c b st1 st2 :
  alike c st1 st2 -> alike c (set_in_hook b st1) (set_in_hook b st2).
Proof. intros (F & L & W & R). repeat split; cbn; tauto. Qed.

Lemma alike_now c st1 st2 :
  alike c st1 st2 ->
  fst (now st2) = fst (now st1) /\ alike c (snd (now st1)) (snd (now st2)).
Proof.
  intros (F & L & W & R). rewrite !now_eq. cbn [fst snd]. rewrite W.
  split; [reflexivity|]. repeat split; cbn; tauto.
Qed.

Lemma alike_call c s args st1 st2 :
  alike c st1 st2 -> reals st2 s = reals st1 s ->
  match call s args st1, call s args st2 with
  | Some (r1, st1'), Some (r2, st2') => r2 = r1 /\ alike c st1' st2'
  | None, None => True
  | _, _ => False
  end.
Proof.
  intros (F & L & W & R) Rs. rewrite !call_eq, Rs, W.
  destruct (reals st1 s) as [f|]; [|exact I].
  split; [reflexivity|]. repeat split; cbn; tauto.
Qed.

Lemma alike_instance_log c t p1 p2 r d st1 st2 :
  alike c st1 st2 ->
  match instance_log t p1 p2 r d st1, instance_log t p1 p2 r d st2 with
  | Some st1', Some st2' => alike c st1' st2'
  | None, None => True
  | _, _ => False
  end.
Proof.
  intros A. pose proof A as (F & L & W & Ro & Rl & Ru).
  rewrite !instance_log_eq, F, L, W, Rl, Ru.
  destruct (negb (initialized_ (logger st1))); [exact A|].
  destruct (in_hook st1); [|exact I].
  destruct (reals st1 real_pthread_mutex_lock) as [fl|]; [|exact I].
  destruct (_ =? 0); [|exact I].
  destruct (reals st1 real_pthread_mutex_unlock) as [fu|]; [|exact I].
  destruct A as (A1 & A2 & A3 & A4 & A5 & A6).
  repeat split; cbn [in_hook reals logger world];
    first [reflexivity | assumption].
Qed.

Lemma alike_observe c r1 r2 st1 st2 :
  r2 = r1 -> alike c st1 st2 ->
  observe (Some (r2, st2)) = observe (Some (r1, st1)).
Proof. intros -> (F & L & W & _). cbn. now rewrite F, L, W. Qed.

Lemma hook_once_alike c args t p st1 st2 :
  alike c st1 st2 ->
  observe (hook_once (symbol_of c) args t p st2) =
  observe (hook_once (symbol_of c) args t p st1).
Proof.
  intros A. pose proof A as (F & _ & _ & Ro & _).
  unfold hook_once. rewrite F. destruct (in_hook st1).
  - pose proof (alike_call c (symbol_of c) args _ _ A Ro) as C.
    destruct (call _ args st1) as [[r1 a]|], (call _ args st2) as [[r2 b]|];
      try contradiction; [|reflexivity].
    destruct C. now apply (alike_observe c).
  - pose proof (alike_call c (symbol_of c) args _ _
                  (alike_set_in_hook c true _ _ A) Ro) as C.
    destruct (call _ args (set_in_hook true st1)) as [[r1 a]|],
             (call _ args (set_in_hook true st2)) as [[r2 b]|];
      try contradiction; [|reflexivity].
    destruct C as [-> A1].
    pose proof (alike_instance_log c t p nullptr r1 0 _ _ A1) as L.
    destruct (instance_log _ _ _ _ _ a) as [a'|],
             (instance_log _ _ _ _ _ b) as [b'|];
      try contradiction; [|reflexivity].
    apply (alike_observe c); [reflexivity|]. now apply alike_set_in_hook.
Qed.

Lemma hook_timed_alike c args t t' p p2 st1 st2 :
  alike c st1 st2 ->
  observe (hook_timed (symbol_of c) args t t' p p2 st2) =
  observe (hook_timed (symbol_of c) args t t' p p2 st1).
Proof.
  intros A. pose proof A as (F & _ & _ & Ro & _).
  unfold hook_timed. rewrite F. destruct (in_hook st1).
  - pose proof (alike_call c (symbol_of c) args _ _ A Ro) as C.
    destruct (call _ args st1) as [[r1 a]|], (call _ args st2) as [[r2 b]|];
      try contradiction; [|reflexivity].
    destruct C. now apply (alike_observe c).
  - destruct (alike_now c _ _ (alike_set_in_hook c true _ _ A)) as [Es A0].
    destruct (now (set_in_hook true st1)) as [start1 a0],
             (now (set_in_hook true st2)) as [start2 b0].
    cbn [fst snd] in Es, A0. subst start2.
    pose proof (alike_instance_log c t p p2 0 0 _ _ A0) as L.
    destruct (instance_log _ _ _ _ _ a0) as [a1|],
             (instance_log _ _ _ _ _ b0) as [b1|];
      try contradiction; [|reflexivity].
    pose proof L as (_ & _ & _ & Ro1 & _).
    pose proof (alike_call c (symbol_of c) args _ _ L Ro1) as C.
    destruct (call _ args a1) as [[r1 a2]|], (call _ args b1) as [[r2 b2]|];
      try contradiction; [|reflexivity].
    destruct C as [-> A2]. destruct (alike_now c _ _ A2) as [Es A3].
    destruct (now a2) as [stop1 a3], (now b2) as [stop2 b3].
    cbn [fst snd] in Es, A3. subst stop2.
    pose proof (alike_instance_log c t' p p2 r1 (to_u64 (stop1 - start1))
                  _ _ A3) as L2.
    destruct (instance_log _ _ _ _ _ a3) as [a4|],
             (instance_log _ _ _ _ _ b3) as [b4|];
      try contradiction; [|reflexivity].
    apply (alike_observe c); [reflexivity|]. now apply alike_set_in_hook.
Qed.

(** *** A wrapper whose three slots resolved completes *)

Lemma hook_once_completes s args t p st f fl fu :
  in_hook st = false -> reals st s = Some f ->
  reals st real_pthread_mutex_lock = Some fl ->
  reals st real_pthread_mutex_unlock = Some fu ->
  (forall w, fst (fl [write_mutex_address] w) = 0) ->
  exists st', hook_once s args t p st = Some (fst (f args (world st)), st').
Proof.
  intros F R Rl Ru E. unfold hook_once. rewrite F, call_eq.
  cbn [set_in_hook reals world in_hook logger]. rewrite R.
  match goal with
  | |- context [instance_log ?a ?b ?c ?d ?e ?x] =>
      destruct (instance_log_completes a b c d e x fl fu) as [st' L];
        [reflexivity|exact Rl|exact Ru|exact E|rewrite L]
  end.
  eexists. reflexivity.
Qed.

Lemma hook_timed_completes s args t t' p p2 st f fl fu :
  in_hook st = false -> reals st s = Some f ->
  reals st real_pthread_mutex_lock = Some fl ->
  reals st real_pthread_mutex_unlock = Some fu ->
  (forall w, fst (fl [write_mutex_address] w) = 0) ->
  exists w0 st', hook_timed s args t t' p p2 st = Some (fst (f args w0), st').
Proof.
  intros F R Rl Ru E. unfold hook_timed. rewrite F, now_eq.
  match goal with
  | |- context [instance_log ?a ?b ?c ?d ?e ?x] =>
      destruct (instance_log_completes a b c d e x fl fu) as [stb Lb];
        [reflexivity|exact Rl|exact Ru|exact E|rewrite Lb]
  end.
  destruct (instance_log_inv _ _ _ _ _ _ _ Lb) as (Fb & Rb & _).
  cbn [set_in_hook in_hook reals] in Fb, Rb.
  rewrite call_eq, Rb, R, now_eq.
  match goal with
  | |- context [instance_log ?a ?b ?c ?d ?e ?x] =>
      destruct (instance_log_completes a b c d e x fl fu) as [ste Le];
        [exact Fb
        |exact Rl
        |exact Ru
        |exact E
        |rewrite Le]
  end.
  eexists. eexists. reflexivity.
Qed.

(** *** From the two bodies to the twenty-two entry points *)

Lemma enter_cases c :
  (exists t, enter c = hook_once (symbol_of c) (args_of c) t (first_arg c)) \/
  (exists t t' p2,
     enter c = hook_timed (symbol_of c) (args_of c) t t' (first_arg c) p2).
Proof.
  destruct c; cbn [enter];
    cbv delta [pthread_mutex_init pthread_mutex_destroy pthread_mutex_lock
               pthread_mutex_trylock pthread_mutex_timedlock
               pthread_mutex_unlock pthread_cond_init pthread_cond_destroy
               pthread_cond_signal pthread_cond_broadcast pthread_cond_wait
               pthread_cond_timedwait pthread_rwlock_init
               pthread_rwlock_destroy pthread_rwlock_rdlock
               pthread_rwlock_tryrdlock pthread_rwlock_timedrdlock
               pthread_rwlock_wrlock pthread_rwlock_trywrlock
               pthread_rwlock_timedwrlock pthread_rwlock_unlock
               pthread_create]; cbv beta;
    lazymatch goal with
    | |- (exists _, hook_once _ _ _ _ = _) \/ _ =>
        left; eexists; reflexivity
    | |- (exists _, hook_timed _ _ _ _ _ _ = _) \/ _ =>
        right; do 3 eexists; reflexivity
    end.
Qed.

Lemma enter_passthrough c st :
  in_hook st = true -> enter c st = call (symbol_of c) (args_of c) st.
Proof.
  intros F. destruct (enter_cases c) as [(t & ->)|(t & t' & p2 & ->)].
  - now apply hook_once_passthrough.
  - now apply hook_timed_passthrough.
Qed.

Lemma enter_unresolved c st :
  reals st (symbol_of c) = None -> enter c st = None.
Proof.
  intros R. destruct (enter_cases c) as [(t & ->)|(t & t' & p2 & ->)].
  - now apply hook_once_unresolved.
  - now apply hook_timed_unresolved.
Qed.

(** What a call that returns leaves behind, entered with the flag
    clear. *)
Lemma enter_returns c st r st' :
  in_hook st = false -> enter c st = Some (r, st') ->
  in_hook st' = false /\ reals st' = reals st /\
  (exists f w0, reals st (symbol_of c) = Some f /\
                r = fst (f (args_of c) w0)) /\
  exists es, file st' = file st ++ trace es /\
             Forall (fun e => ptr1 e = first_arg c) es.
Proof.
  intros F. destruct (enter_cases c) as [(t & ->)|(t & t' & p2 & ->)];
    intros E.
  - destruct (hook_once_logger _ _ _ _ _ _ _ F E) as (F' & R' & X & w & L).
    split; [exact F'|]. split; [exact R'|]. split; [exact X|].
    unfold file. rewrite L. apply log_file.
  - destruct (hook_timed_logger _ _ _ _ _ _ _ _ _ F E)
      as (F' & R' & X & w & w' & d & L).
    split; [exact F'|]. split; [exact R'|]. split; [exact X|].
    unfold file. rewrite L.
    destruct (log_file t' (first_arg c) p2 r (to_u64 d)
                (fst (log t (first_arg c) p2 0 0 (logger st, w))) w')
      as (es2 & E2 & P2).
    destruct (log_file t (first_arg c) p2 0 0 (logger st) w)
      as (es1 & E1 & P1).
    exists (es1 ++ es2). split; [|apply Forall_app; auto].
    now rewrite E2, E1, trace_app, app_assoc.
Qed.

Lemma enter_completes c st f fl fu :
  in_hook st = false -> reals st (symbol_of c) = Some f ->
  reals st real_pthread_mutex_lock = Some fl ->
  reals st real_pthread_mutex_unlock = Some fu ->
  (forall w, fst (fl [write_mutex_address] w) = 0) ->
  exists w0 st', enter c st = Some (fst (f (args_of c) w0), st').
Proof.
  intros F R Rl Ru E.
  destruct (enter_cases c) as [(t & ->)|(t & t' & p2 & ->)].
  - exists (world st). eapply hook_once_completes; eauto.
  - eapply hook_timed_completes; eauto.
Qed.

Lemma enter_alike c st1 st2 :
  alike c st1 st2 -> observe (enter c st2) = observe (enter c st1).
Proof.
  intros A. destruct (enter_cases c) as [(t & ->)|(t & t' & p2 & ->)].
  - now apply hook_once_alike.
  - now apply hook_timed_alike.
Qed.

Lemma enter_clears_flag c st r st' :
  in_hook st = false -> enter c st = Some (r, st') -> in_hook st' = false.
Proof. intros F E. now destruct (enter_returns c st r st' F E). Qed.

Lemma run_clears_flag cs : forall st st',
  in_hook st = false -> run cs st = Some st' -> in_hook st' = false.
Proof.
  induction cs as [|c cs IH]; intros st st' F E; cbn [run] in E.
  - now injection E as <-.
  - destruct (enter c st) as [[r st1]|] eqn:E1; [|discriminate].
    apply (IH st1 st'); [|exact E]. eapply enter_clears_flag; eauto.
Qed.

(** The constructor leaves in every slot what its lookup returned. *)
Lemma init_skeleton_key_reals st s :
  reals (init_skeleton_key st) s = lookup s (world st).
Proof.
  unfold init_skeleton_key, lookup. cbn [reals set_real world].
  destruct s; reflexivity.
Qed.

End ShimFacts.

(** ** The interleaved threads *)

Lemma Sorted_snoc l x :
  Sorted Z.le l -> Forall (fun y => y <= x) l -> Sorted Z.le (l ++ [x]).
Proof.
  induction 1 as [|a l Hs IH Hd]; intros Hx; cbn [app].
  - repeat constructor.
  - inversion Hx as [|? ? Ha Hl]; subst. constructor; [now apply IH|].
    destruct l as [|b l]; cbn [app]; constructor.
    + exact Ha.
    + now inversion Hd.
Qed.

Lemma Forall_firstn {A} (P : A -> Prop) n : forall l,
  Forall P l -> Forall P (firstn n l).
Proof.
  induction n as [|n IH]; intros l Hl; [constructor|].
  destruct Hl as [|x l Hx Hl]; cbn [firstn]; constructor; auto.
Qed.

Lemma move_same t pc f : move t pc f t = pc.
Proof. unfold move. now rewrite Nat.eqb_refl. Qed.

Lemma move_other t t' pc f : t <> t' -> move t pc f t' = f t'.
Proof. intros N. unfold move. apply Nat.eqb_neq in N. now rewrite N. Qed.

(** What holds in every reachable state, for the records [es] written
    so far. *)
Record invariant (p : Process) (es : list Event) : Prop := {
  inv_file : trace_file p = trace es;
  inv_well_formed : Forall well_formed es;
  inv_sorted : Sorted Z.le (map timestamp es);
  inv_past : Forall (fun y => y <= clock p) (map timestamp es);
  inv_clock : 0 <= clock p < 2 ^ 63;
  inv_mutex : forall t, at_ p t <> Outside -> write_mutex_ p = Some t;
  inv_holding : forall t a, at_ p t = Holding a -> typed a;
  inv_stamped : forall t a ts, at_ p t = Stamped a ts ->
    typed a /\ 0 <= ts <= clock p /\
    Forall (fun y => y <= ts) (map timestamp es)
}.

Lemma holder_unique p es t t' :
  invariant p es -> at_ p t <> Outside -> at_ p t' <> Outside -> t' = t.
Proof.
  intros I A A'. pose proof (inv_mutex p es I t A) as E.
  pose proof (inv_mutex p es I t' A') as E'. congruence.
Qed.

Lemma record_of_well_formed a ts frames tidv :
  typed a -> 0 <= ts < 2 ^ 63 -> Forall is_u64 frames ->
  well_formed (record_of a ts (firstn MAX_STACK_DEPTH frames) (to_u32 tidv)).
Proof.
  intros (Ht & Hp1 & Hp2 & Hr & Hd) Hts Hf.
  constructor; cbn [record_of timestamp tid type ptr1 ptr2 result
                    duration_ns stack]; try assumption.
  - unfold is_u64. lia.
  - apply Z.mod_pos_bound. lia.
  - now apply Forall_firstn.
  - rewrite length_firstn. lia.
Qed.

Lemma step_invariant p p' es :
  invariant p es -> step p p' -> exists es', invariant p' es'.
Proof.
  intros I S. destruct S as [p c Hc | p t a Ha Hm Hty | p t a Ha
                            | p t a ts frames tidv Ha Hf | p t Ha].
  - (* the clock advances *)
    exists es. destruct I. constructor; cbn [tick clock write_mutex_
      trace_file at_]; try assumption.
    + eapply Forall_impl; [|eassumption]. cbn. intros; lia.
    + lia.
    + intros t a ts E. destruct (inv_stamped0 t a ts E) as (? & ? & ?).
      split; [assumption|]. split; [lia|assumption].
  - (* a thread takes the mutex *)
    assert (Free : forall t', at_ p t' = Outside).
    { intros t'. destruct (at_ p t') eqn:E; [reflexivity| | |];
        assert (N : at_ p t' <> Outside) by congruence;
        pose proof (inv_mutex p es I t' N); congruence. }
    exists es. destruct I. constructor; cbn [lock clock write_mutex_
      trace_file at_]; try assumption.
    + intros t' N. destruct (Nat.eq_dec t t') as [->|D]; [reflexivity|].
      rewrite move_other in N by assumption. now rewrite Free in N.
    + intros t' a' E. destruct (Nat.eq_dec t t') as [->|D].
      * rewrite move_same in E. now injection E as <-.
      * rewrite move_other in E by assumption. now rewrite Free in E.
    + intros t' a' ts E. destruct (Nat.eq_dec t t') as [->|D].
      * rewrite move_same in E. discriminate.
      * rewrite move_other in E by assumption. now rewrite Free in E.
  - (* the holder reads the clock *)
    assert (N : at_ p t <> Outside) by congruence.
    exists es. pose proof I as I'. destruct I. constructor;
      cbn [read_clock clock write_mutex_ trace_file at_]; try assumption.
    + intros t' N'. destruct (Nat.eq_dec t t') as [->|D]; [now apply inv_mutex0|].
      rewrite move_other in N' by assumption. now apply inv_mutex0.
    + intros t' a' E. destruct (Nat.eq_dec t t') as [->|D].
      * rewrite move_same in E. discriminate.
      * rewrite move_other in E by assumption. eauto.
    + intros t' a' ts E. destruct (Nat.eq_dec t t') as [->|D].
      * rewrite move_same in E. injection E as <- <-.
        rewrite to_u64_id by (unfold is_u64; lia).
        split; [eauto|]. split; [lia|assumption].
      * rewrite move_other in E by assumption.
        assert (N' : at_ p t' <> Outside) by congruence.
        pose proof (holder_unique p es t t' I' N N'). congruence.
  - (* the holder writes its record *)
    assert (N : at_ p t <> Outside) by congruence.
    pose proof I as I'. destruct I.
    destruct (inv_stamped0 t a ts Ha) as (Hty & Hts & Hle).
    set (e := record_of a ts (firstn MAX_STACK_DEPTH frames) (to_u32 tidv)).
    exists (es ++ [e]). constructor;
      cbn [append clock write_mutex_ trace_file at_]; try assumption.
    + rewrite inv_file0. unfold trace. rewrite flat_map_app. cbn [flat_map].
      now rewrite app_nil_r.
    + apply Forall_app. split; [assumption|]. constructor; [|constructor].
      apply record_of_well_formed; try assumption. lia.
    + rewrite map_app. cbn [map]. now apply Sorted_snoc.
    + rewrite map_app. apply Forall_app. split; [assumption|].
      constructor; [|constructor]. cbn. lia.
    + intros t' N'. destruct (Nat.eq_dec t t') as [->|D]; [now apply inv_mutex0|].
      rewrite move_other in N' by assumption. now apply inv_mutex0.
    + intros t' a' E. destruct (Nat.eq_dec t t') as [->|D].
      * rewrite move_same in E. discriminate.
      * rewrite move_other in E by assumption. eauto.
    + intros t' a' ts' E. destruct (Nat.eq_dec t t') as [->|D].
      * rewrite move_same in E. discriminate.
      * rewrite move_other in E by assumption.
        assert (N' : at_ p t' <> Outside) by congruence.
        pose proof (holder_unique p es t t' I' N N'). congruence.
  - (* the holder leaves the scope *)
    assert (N : at_ p t <> Outside) by congruence.
    exists es. pose proof I as I'. destruct I. constructor;
      cbn [unlock clock write_mutex_ trace_file at_]; try assumption.
    + intros t' N'. exfalso. destruct (Nat.eq_dec t t') as [->|D].
      * rewrite move_same in N'. congruence.
      * rewrite move_other in N' by assumption.
        pose proof (holder_unique p es t t' I' N N'). congruence.
    + intros t' a' E. destruct (Nat.eq_dec t t') as [->|D].
      * rewrite move_same in E. discriminate.
      * rewrite move_other in E by assumption. eauto.
    + intros t' a' ts E. destruct (Nat.eq_dec t t') as [->|D].
      * rewrite move_same in E. discriminate.
      * rewrite move_other in E by assumption. eauto.
Qed.

Lemma reachable_invariant p : reachable p -> exists es, invariant p es.
Proof.
  induction 1 as [c Hc | p p' _ [es I] S].
  - exists []. constructor; cbn; try constructor; try lia; try congruence;
      try discriminate.
  - eapply step_invariant; eauto.
Qed.

(** ** The records a wrapper writes *)

Section WrapperRecords.
Context `{Host}.

Lemma log_ready t p1 p2 r d l w :
  initialized_ l = true -> is_open (log_ l) = true ->
  contents (log_ (fst (log t p1 p2 r d (l, w)))) =
    contents (log_ l) ++ serialize (logged_event t p1 p2 r d w) /\
  initialized_ (fst (log t p1 p2 r d (l, w))) = true /\
  is_open (log_ (fst (log t p1 p2 r d (l, w)))) = true.
Proof.
  intros I O. rewrite log_initialized by assumption.
  cbn [fst log_ initialized_]. unfold ofstream_write. rewrite O.
  cbn [contents is_open]. auto.
Qed.

Lemma enter_blocking c :
  blocking c = true ->
  enter c = hook_timed (symbol_of c) (args_of c) (kind_of c) (kind_of c + 1)
              (first_arg c) (aux_of c).
Proof. destruct c; intros B; try discriminate B; reflexivity. Qed.

Lemma enter_once c :
  blocking c = false ->
  enter c = hook_once (symbol_of c) (args_of c) (kind_of c) (first_arg c).
Proof. destruct c; intros B; try discriminate B; reflexivity. Qed.

Lemma kind_of_range c :
  is_u8 (kind_of c) /\ (blocking c = true -> is_u8 (kind_of c + 1)).
Proof. destruct c; split; try discriminate; intros; in_range. Qed.

Lemma logged_event_well_formed t p1 p2 r d w :
  (forall w, Forall is_u64 (call_stack w)) ->
  is_u8 t -> is_u64 p1 -> is_u64 p2 -> is_i32 r -> is_u64 d ->
  well_formed (logged_event t p1 p2 r d w).
Proof.
  intros Hs Ht Hp1 Hp2 Hr Hd.
  constructor; cbn [logged_event timestamp tid type ptr1 ptr2 result
                    duration_ns stack]; try assumption.
  - apply to_u64_range.
  - apply Z.mod_pos_bound. lia.
  - unfold backtrace. apply Forall_firstn. apply Hs.
  - unfold backtrace. rewrite length_firstn. lia.
Qed.

Lemma is_u64_nullptr : is_u64 nullptr.
Proof. in_range. Qed.

Lemma is_i32_0 : is_i32 0.
Proof. in_range. Qed.

(** A call that returns, entered ready, has appended the records of its
    kind: one after the real call, or one before it and one after. *)
Lemma enter_writes c st r st' :
  ready st -> enter c st = Some (r, st') ->
  ready st' /\ reals st' = reals st /\
  (exists f w0, reals st (symbol_of c) = Some f /\
                r = fst (f (args_of c) w0)) /\
  exists es,
    file st' = file st ++ trace es /\ map type es = kinds_of c /\
    if blocking c then
      exists w w' d,
        es = [logged_event (kind_of c) (first_arg c) (aux_of c) 0 0 w;
              logged_event (kind_of c + 1) (first_arg c) (aux_of c) r
                (to_u64 d) w']
    else
      exists w, es = [logged_event (kind_of c) (first_arg c) nullptr r 0 w].
Proof.
  intros (F & I & O) E. unfold kinds_of. destruct (blocking c) eqn:B.
  - rewrite (enter_blocking c B) in E.
    destruct (hook_timed_logger _ _ _ _ _ _ _ _ _ F E)
      as (F' & R' & X & w & w' & d & L).
    destruct (log_ready (kind_of c) (first_arg c) (aux_of c) 0 0
                (logger st) w I O) as (C1 & I1 & O1).
    destruct (log_ready (kind_of c + 1) (first_arg c) (aux_of c) r (to_u64 d)
                _ w' I1 O1) as (C2 & I2 & O2).
    unfold ready, file. rewrite L.
    split; [split; [exact F'|split; [exact I2|exact O2]]|].
    split; [exact R'|]. split; [exact X|].
    exists [logged_event (kind_of c) (first_arg c) (aux_of c) 0 0 w;
            logged_event (kind_of c + 1) (first_arg c) (aux_of c) r
              (to_u64 d) w'].
    split; [|split; [reflexivity|exists w, w', d; reflexivity]].
    rewrite C2, C1. cbn [trace flat_map].
    rewrite app_nil_r, <- app_assoc. reflexivity.
  - rewrite (enter_once c B) in E.
    destruct (hook_once_logger _ _ _ _ _ _ _ F E) as (F' & R' & X & w & L).
    destruct (log_ready (kind_of c) (first_arg c) nullptr r 0
                (logger st) w I O) as (C1 & I1 & O1).
    unfold ready, file. rewrite L.
    split; [split; [exact F'|split; [exact I1|exact O1]]|].
    split; [exact R'|]. split; [exact X|].
    exists [logged_event (kind_of c) (first_arg c) nullptr r 0 w].
    split; [|split; [reflexivity|exists w; reflexivity]].
    rewrite C1. cbn [trace flat_map]. rewrite app_nil_r. reflexivity.
Qed.

Lemma enter_records c st r st' :
  ready st -> host_typed st -> pointers_typed c ->
  enter c st = Some (r, st') ->
  ready st' /\ reals st' = reals st /\
  exists es,
    file st' = file st ++ trace es /\ Forall well_formed es /\
    map type es = kinds_of c.
Proof.
  intros Rd [Hs Hr] [Hp Ha] E.
  destruct (enter_writes c st r st' Rd E)
    as (Rd' & R' & (f & w0 & Rf & Er) & es & Ef & Et & Sh).
  split; [exact Rd'|]. split; [exact R'|]. exists es.
  split; [exact Ef|]. split; [|exact Et].
  assert (Ti : is_i32 r) by (rewrite Er; exact (Hr _ _ _ _ Rf)).
  destruct (kind_of_range c) as [K K1].
  destruct (blocking c) eqn:B.
  - destruct Sh as (w & w' & d & ->).
    constructor; [|constructor; [|constructor]].
    + apply logged_event_well_formed;
        [exact Hs|exact K|exact Hp|exact Ha|exact is_i32_0
        |exact is_u64_nullptr].
    + apply logged_event_well_formed;
        [exact Hs|exact (K1 eq_refl)|exact Hp|exact Ha
        |exact Ti|apply to_u64_range].
  - destruct Sh as (w & ->). constructor; [|constructor].
    apply logged_event_well_formed;
      [exact Hs|exact K|exact Hp|exact is_u64_nullptr
      |exact Ti|exact is_u64_nullptr].
Qed.

Lemma run_records cs : forall st st',
  ready st -> host_typed st -> Forall pointers_typed cs ->
  run cs st = Some st' ->
  ready st' /\
  exists es,
    file st' = file st ++ trace es /\ Forall well_formed es /\
    map type es = flat_map kinds_of cs.
Proof.
  induction cs as [|c cs IH]; intros st st' Rd Ht Hp E; cbn [run] in E.
  - injection E as <-. split; [exact Rd|]. exists [].
    cbn [trace flat_map map]. rewrite app_nil_r. auto.
  - inversion Hp as [|? ? Hc Hcs]; subst.
    destruct (enter c st) as [[r st1]|] eqn:E1; [|discriminate].
    destruct (enter_records c st r st1 Rd Ht Hc E1)
      as (Rd1 & Rr & es1 & Ef1 & W1 & T1).
    assert (Ht1 : host_typed st1).
    { destruct Ht as [Hs Hr]. split; [exact Hs|]. rewrite Rr. exact Hr. }
    destruct (IH st1 st' Rd1 Ht1 Hcs E) as (Rd' & es2 & Ef2 & W2 & T2).
    split; [exact Rd'|]. exists (es1 ++ es2).
    split; [|split].
    + rewrite Ef2, Ef1, trace_app, app_assoc. reflexivity.
    + apply Forall_app. auto.
    + rewrite map_app, T1, T2. reflexivity.
Qed.

(** *** The worlds a wrapper goes through *)

Lemma hook_once_records s args t p st f fl fu :
  ready st -> reals st s = Some f ->
  reals st real_pthread_mutex_lock = Some fl ->
  reals st real_pthread_mutex_unlock = Some fu ->
  (forall w, fst (fl [write_mutex_address] w) = 0) ->
  let r := fst (f args (world st)) in
  let w1 := snd (f args (world st)) in
  let w2 := snd (fl [write_mutex_address] w1) in
  exists st',
    hook_once s args t p st = Some (r, st') /\
    file st' = file st ++ serialize (logged_event t p nullptr r 0 w2) /\
    world st' = snd (fu [write_mutex_address] (snd (steady_clock_now w2))).
Proof.
  intros (F & I & O) R Rl Ru E. cbv zeta. unfold hook_once.
  rewrite F, call_eq. cbn [set_in_hook in_hook reals logger world].
  rewrite R.
  rewrite (instance_log_initialized _ _ _ _ _ _ fl fu)
    by (cbn [in_hook reals logger world]; auto).
  cbn [set_in_hook in_hook reals logger world].
  eexists. split; [reflexivity|]. unfold file. cbn [logger world].
  rewrite log_initialized by exact I. cbn [fst snd log_].
  unfold ofstream_write. rewrite O. cbn [contents]. auto.
Qed.

Lemma hook_timed_records s args t t' p p2 st f fl fu :
  ready st -> reals st s = Some f ->
  reals st real_pthread_mutex_lock = Some fl ->
  reals st real_pthread_mutex_unlock = Some fu ->
  (forall w, fst (fl [write_mutex_address] w) = 0) ->
  let start := fst (steady_clock_now (world st)) in
  let w1 := snd (steady_clock_now (world st)) in
  let w2 := snd (fl [write_mutex_address] w1) in
  let w3 := snd (fu [write_mutex_address] (snd (steady_clock_now w2))) in
  let r := fst (f args w3) in
  let w4 := snd (f args w3) in
  let stop := fst (steady_clock_now w4) in
  let w5 := snd (steady_clock_now w4) in
  let w6 := snd (fl [write_mutex_address] w5) in
  exists st',
    hook_timed s args t t' p p2 st = Some (r, st') /\
    file st' =
      file st ++ serialize (logged_event t p p2 0 0 w2) ++
      serialize (logged_event t' p p2 r (to_u64 (stop - start)) w6) /\
    world st' = snd (fu [write_mutex_address] (snd (steady_clock_now w6))).
Proof.
  intros (F & I & O) R Rl Ru E. cbv zeta. unfold hook_timed.
  rewrite F, now_eq.
  rewrite (instance_log_initialized _ _ _ _ _ _ fl fu)
    by (cbn [set_in_hook in_hook reals logger world]; auto).
  cbn [set_in_hook in_hook reals logger world].
  rewrite log_initialized by exact I. cbn [fst snd].
  rewrite call_eq. cbn [in_hook reals logger world]. rewrite R.
  rewrite now_eq.
  rewrite (instance_log_initialized _ _ _ _ _ _ fl fu)
    by (cbn [in_hook reals logger world initialized_]; auto).
  cbn [set_in_hook in_hook reals logger world].
  rewrite log_initialized by reflexivity. cbn [fst snd].
  eexists. split; [reflexivity|].
  unfold file. cbn [logger world log_].
  unfold ofstream_write. rewrite O. cbn [is_open contents].
  rewrite <- app_assoc. auto.
Qed.

(** *** With the logger off *)


(** A wrapper that logs needs the two slots of the logger's mutex. *)
Lemma instance_log_mutex_unresolved t p1 p2 r d st :
  initialized_ (logger st) = true ->
  reals st real_pthread_mutex_lock = None \/
  reals st real_pthread_mutex_unlock = None ->
  instance_log t p1 p2 r d st = None.
Proof.
  intros I N. rewrite instance_log_eq, I. cbn [negb].
  destruct (in_hook st); [|reflexivity].
  destruct (reals st real_pthread_mutex_lock) as [fl|]; [|reflexivity].
  destruct (_ =? 0); [|reflexivity].
  destruct N as [N|N]; [discriminate N|]. now rewrite N.
Qed.

Lemma enter_mutex_unresolved c st :
  in_hook st = false -> initialized_ (logger st) = true ->
  reals st real_pthread_mutex_lock = None \/
  reals st real_pthread_mutex_unlock = None ->
  enter c st = None.
Proof.
  intros F I N.
  destruct (enter_cases c) as [(t & ->)|(t & t' & p2 & ->)].
  - unfold hook_once. rewrite F.
    destruct (call _ _ _) as [[r st1]|] eqn:C; [|reflexivity].
    destruct (call_inv _ _ _ _ _ C) as (f & _ & _ & _ & R1 & L1 & _).
    rewrite instance_log_mutex_unresolved; [reflexivity| |].
    + rewrite L1. exact I.
    + rewrite R1. exact N.
  - unfold hook_timed. rewrite F, now_eq.
    rewrite instance_log_mutex_unresolved; [reflexivity|exact I|exact N].
Qed.

End WrapperRecords.

(* ================================================================== *)
(** * Part III.  The claims                                            *)
(* ================================================================== *)

Lemma sample_event_well_formed : well_formed sample_event.
Proof.
  prove_well_formed.
Qed.

(** C1 (record round-trip).  For every well-formed record, running the
    decoder's [main] on the bytes [EventLogger::log] writes for it prints
    exactly that record, every field and the whole stack included, and
    returns 0. *)
Theorem record_roundtrip (M : Machine) (e : Event) :
  well_formed e -> main (serialize e) = ([e], Exit0).
Proof.
  intros He. pose proof (main_trace [e] (Forall_cons _ He (Forall_nil _))) as R.
  cbn [trace flat_map] in R. now rewrite app_nil_r in R.
Qed.

Lemma record_roundtrip_witness :
  well_formed sample_event /\
  @main masking_machine (serialize sample_event) = ([sample_event], Exit0).
Proof.
  split; [exact sample_event_well_formed|].
  apply (record_roundtrip masking_machine sample_event).
  exact sample_event_well_formed.
Defined.

(** C2 (varint round-trip).  For every unsigned 64-bit value,
    [readVarInt] at the place where [encodeVarInt] appended it returns
    the value and stops right after it; [encodeVarInt] appends at most
    ten bytes; and it appends the single byte 0 for the value 0. *)
Theorem varint_roundtrip (M : Machine) (v : Z) (w : VarIntWriter) :
  is_u64 v ->
  readVarInt {| buffer_ := buffer (encodeVarInt v w);
                pos_ := length (buffer w) |} =
    (v, {| buffer_ := buffer (encodeVarInt v w);
           pos_ := length (buffer (encodeVarInt v w)) |}) /\
  (length (buffer (encodeVarInt v w)) <= length (buffer w) + 10)%nat /\
  buffer (encodeVarInt 0 w) = buffer w ++ [0].
Proof.
  intros Hv. rewrite !encodeVarInt_buffer. repeat split.
  - unfold readVarInt; cbn [buffer_ pos_].
    rewrite skipn_app, skipn_all, Nat.sub_diag. cbn [skipn app].
    rewrite <- (app_nil_r (encoded v)) at 1.
    rewrite readVarInt_loop_encoded_u64 by assumption.
    now rewrite length_app.
  - rewrite length_app. pose proof (encoded_length v Hv). lia.
Qed.

Lemma varint_roundtrip_witness :
  is_u64 300 /\
  @readVarInt masking_machine
     {| buffer_ := buffer (encodeVarInt 300 {| buffer := [7] |});
        pos_ := 1 |} =
    (300, {| buffer_ := [7; 172; 2]; pos_ := 3 |}).
Proof.
  assert (H : is_u64 300) by (unfold is_u64; lia).
  split; [exact H|].
  exact (proj1 (varint_roundtrip masking_machine 300 {| buffer := [7] |} H)).
Defined.

(** C3, as stated, fails: the wire form of [layout_probe] is not seven
    varints followed by the kind byte and the stack (it is too short
    for that), and its kind byte does not come after the varint fields
    either (it is the third byte). *)
Lemma wire_layout_counterexample :
  well_formed layout_probe /\
  ~ (exists v1 v2 v3 v4 v5 v6 v7,
       serialize layout_probe =
       encoded v1 ++ encoded v2 ++ encoded v3 ++ encoded v4 ++ encoded v5 ++
       encoded v6 ++ encoded v7 ++ [to_u8 (type layout_probe)] ++
       encoded (Z.of_nat (length (stack layout_probe))) ++
       flat_map encoded (stack layout_probe)) /\
  serialize layout_probe <>
    encoded (timestamp layout_probe) ++ encoded (tid layout_probe) ++
    encoded (ptr1 layout_probe) ++ encoded (ptr2 layout_probe) ++
    encoded (to_u64 (result layout_probe)) ++
    encoded (duration_ns layout_probe) ++ [to_u8 (type layout_probe)] ++
    encoded (Z.of_nat (length (stack layout_probe))) ++
    flat_map encoded (stack layout_probe).
Proof.
  split; [|split].
  - prove_well_formed.
  - intros (v1 & v2 & v3 & v4 & v5 & v6 & v7 & E).
    apply (f_equal (@length Z)) in E. rewrite !length_app in E.
    assert (L : length (serialize layout_probe) = 8%nat)
      by (vm_compute; reflexivity).
    pose proof (encoded_nonempty v1). pose proof (encoded_nonempty v2).
    pose proof (encoded_nonempty v3). pose proof (encoded_nonempty v4).
    pose proof (encoded_nonempty v5). pose proof (encoded_nonempty v6).
    pose proof (encoded_nonempty v7).
    pose proof (encoded_nonempty (Z.of_nat (length (stack layout_probe)))).
    cbn [length] in E. lia.
  - vm_compute. discriminate.
Qed.

(** C3, amended.  What [EventLogger::log] appends to an open trace file
    is, in this order: the varints of the timestamp and of the tid, one
    raw byte for the kind, the varints of ptr1, of ptr2, of the result
    (as its 64-bit two's-complement pattern) and of duration_ns, then
    the stack as the varint of its depth followed by one varint per
    frame.  The varint fields are six, and the kind byte is the third
    field on the wire. *)
Theorem wire_layout (P : Host) (type ptr1 ptr2 result duration_ns : Z)
    (l : EventLogger) (w : World) :
  initialized_ l = true -> is_open (log_ l) = true ->
  contents (log_ (fst (log type ptr1 ptr2 result duration_ns (l, w)))) =
  contents (log_ l) ++
  encoded (to_u64 (fst (steady_clock_now w))) ++
  encoded (to_u32 (gettid (snd (steady_clock_now w)))) ++
  [to_u8 type] ++
  encoded (to_u64 ptr1) ++ encoded (to_u64 ptr2) ++
  encoded (to_u64 result) ++ encoded duration_ns ++
  encoded (Z.of_nat (length (backtrace MAX_STACK_DEPTH w))) ++
  flat_map (fun p => encoded (to_u64 p)) (backtrace MAX_STACK_DEPTH w).
Proof.
  intros I O. rewrite log_initialized by assumption. cbn [fst log_].
  unfold ofstream_write. rewrite O. cbn [contents].
  rewrite serialize_layout. unfold logged_event. reflexivity.
Qed.

Lemma wire_layout_witness :
  contents (log_ (fst (@log sample_host MutexLock 4 0 0 0
     ({| log_ := {| is_open := true; contents := [9] |};
         initialized_ := true; writer_ := {| buffer := [] |} |}, 1)))) =
  [9; 1; 146; 33; 3; 4; 0; 0; 0; 2; 128; 160; 128; 2; 128; 164; 128; 2].
Proof.
  exact (wire_layout sample_host MutexLock 4 0 0 0
     {| log_ := {| is_open := true; contents := [9] |};
        initialized_ := true; writer_ := {| buffer := [] |} |} 1
     eq_refl eq_refl).
Defined.

(** C4, as stated, fails: the first three bytes of the one-record trace
    of [sample_event] decode, with exit status 0, to one record that is
    not [sample_event] (its ptr1 is 0), so the output is not a prefix of
    the events of the trace. *)
Lemma prefix_decoding_counterexample :
  well_formed sample_event /\
  @main masking_machine (firstn 3 (trace [sample_event])) =
    ([sample_event_cut], Exit0) /\
  ~ (exists k, [sample_event_cut] = firstn k [sample_event]).
Proof.
  split; [exact sample_event_well_formed|]. split; [vm_compute; reflexivity|].
  intros [k E]. destruct k as [|[|k]]; cbn in E; discriminate E.
Qed.

(** C4, amended.  Let a valid trace hold the records [es], then [e],
    then [rest].  Cut at the boundary after [es], it decodes to exactly
    [es] with exit status 0.  Cut [m] bytes into [e], past the kind byte
    of [e], the cut is not detected: the decoder prints [es] and then
    one more record, [cut_record e m], and returns 0.  That record has
    the timestamp, the tid and the kind of [e]; each later field is
    read from the bytes of it that are there: the field of [e] when its
    varint is whole, zero when none of its bytes is there (no frames
    when the depth is not there), and the low [7 k] bits of the field of
    [e] when the cut leaves [k] bytes of its varint.  Cut right after
    the kind byte, the record is zero in every later field and its stack
    is empty. *)
Theorem prefix_decoding (M : Machine) (es rest : list Event) (e : Event)
    (m : nat) :
  Forall well_formed es -> well_formed e ->
  (length (encoded (timestamp e)) + length (encoded (tid e)) < m
   <= length (serialize e))%nat ->
  main (firstn (length (trace es)) (trace (es ++ e :: rest))) = (es, Exit0) /\
  main (firstn (length (trace es) + m) (trace (es ++ e :: rest))) =
    (es ++ [cut_record e m], Exit0) /\
  (timestamp (cut_record e m) = timestamp e /\
   tid (cut_record e m) = tid e /\ type (cut_record e m) = type e) /\
  (forall v k, (length (encoded v) <= k)%nat -> cut_value v k = v) /\
  (forall v, cut_value v 0 = 0) /\
  (forall v k, (k < length (encoded v))%nat ->
     cut_value v k = v mod 2 ^ (7 * Z.of_nat k)) /\
  (m = S (length (encoded (timestamp e)) + length (encoded (tid e))) ->
   cut_record e m =
   {| timestamp := timestamp e; tid := tid e; type := type e;
      ptr1 := 0; ptr2 := 0; result := 0; duration_ns := 0; stack := [] |}).
Proof.
  intros Hes He [Hm Hm'].
  assert (T : trace (es ++ e :: rest) = trace es ++ serialize e ++ trace rest).
  { unfold trace. rewrite flat_map_app. reflexivity. }
  rewrite T. split; [|split; [|split; [|split; [|split; [|split]]]]].
  - rewrite <- (Nat.add_0_r (length (trace es))), firstn_app_2.
    cbn [firstn]. rewrite app_nil_r. now apply main_trace.
  - rewrite firstn_app_2, firstn_app.
    replace (m - length (serialize e))%nat with O by lia.
    cbn [firstn]. rewrite app_nil_r. now apply main_cut_record.
  - repeat split.
  - apply cut_value_whole.
  - apply cut_value_0.
  - intros v k L. rewrite cut_value_inside by assumption.
    apply Z.land_ones. lia.
  - intros ->. unfold cut_record.
    replace (S (length (encoded (timestamp e)) + length (encoded (tid e))) -
             length (encoded (timestamp e)) - length (encoded (tid e)) - 1)%nat
      with O by lia.
    cbn [Nat.sub]. rewrite !cut_value_0.
    pose proof (encoded_nonempty (Z.of_nat (length (stack e)))) as L.
    destruct (Nat.leb_spec (length (encoded (Z.of_nat (length (stack e))))) 0);
      [lia|reflexivity].
Qed.

Lemma prefix_decoding_witness :
  @main masking_machine (firstn 0 (trace [sample_event])) = ([], Exit0) /\
  @main masking_machine (firstn 3 (trace [sample_event])) =
    ([cut_record sample_event 3], Exit0) /\
  cut_record sample_event 3 = sample_event_cut.
Proof.
  assert (B : (length (encoded (timestamp sample_event)) +
               length (encoded (tid sample_event)) < 3
               <= length (serialize sample_event))%nat)
    by (vm_compute; split; lia).
  pose proof (prefix_decoding masking_machine [] [] sample_event 3
                (Forall_nil _) sample_event_well_formed B)
    as (X0 & X1 & _ & _ & _ & _ & X2).
  split; [exact X0|]. split; [exact X1|]. exact (X2 eq_refl).
Defined.

(** C5 (signed result).  For every signed 32-bit result handed to
    [log] (the other arguments and the frames having their C types, the
    trace file open and still empty): the result field of the record
    written, sixth on the wire after the timestamp, the tid, the kind
    byte and the two pointers, is the varint of the result sign-extended
    to 64 bits and read as unsigned, that is of [2^64 + result] for a
    negative result and of the result itself otherwise; the decoder's
    [main], which narrows the varint it reads to [int32_t], prints
    exactly the result that was logged; a negative result is written as
    ten bytes, and -1 as nine bytes 255 and a byte 1. *)
Theorem signed_result_roundtrip (M : Machine) (P : Host)
    (kind first second res duration : Z) (l : EventLogger) (w : World) :
  is_i32 res -> is_u8 kind -> is_u64 first -> is_u64 second ->
  is_u64 duration -> (forall w, Forall is_u64 (call_stack w)) ->
  initialized_ l = true -> is_open (log_ l) = true ->
  contents (log_ l) = [] ->
  let file :=
    contents (log_ (fst (log kind first second res duration (l, w)))) in
  file =
    encoded (to_u64 (fst (steady_clock_now w))) ++
    encoded (to_u32 (gettid (snd (steady_clock_now w)))) ++
    [kind] ++ encoded first ++ encoded second ++
    encoded (to_u64 res) ++
    encoded duration ++
    encoded (Z.of_nat (length (backtrace MAX_STACK_DEPTH w))) ++
    flat_map encoded (backtrace MAX_STACK_DEPTH w) /\
  (res < 0 -> to_u64 res = 2 ^ 64 + res) /\
  (0 <= res -> to_u64 res = res) /\
  map result (fst (main file)) = [res] /\
  (res < 0 -> length (encoded (to_u64 res)) = 10%nat) /\
  (res = -1 ->
   encoded (to_u64 res) = [255; 255; 255; 255; 255; 255; 255; 255; 255; 1]).
Proof.
  intros Hres Hk Hp1 Hp2 Hd Hs I O C. cbv zeta.
  destruct (log_ready kind first second res duration l w I O) as (E & _ & _).
  rewrite E, C. cbn [app].
  pose proof (logged_event_well_formed kind first second res duration w
                Hs Hk Hp1 Hp2 Hres Hd) as W.
  assert (N : res < 0 -> to_u64 res = 2 ^ 64 + res).
  { intros Hn. unfold to_u64, is_i32 in *. symmetry.
    apply (Z.mod_unique _ _ (-1)); lia. }
  split; [|split; [exact N|split; [|split; [|split]]]].
  - rewrite serialize_layout, flat_map_to_u64 by apply (wf_stack _ W).
    cbn [logged_event timestamp tid type ptr1 ptr2 result duration_ns stack].
    now rewrite (to_u64_id first), (to_u64_id second), to_u8_id
      by assumption.
  - intros Hp. apply Z.mod_small. unfold is_i32 in Hres. lia.
  - pose proof (main_trace [_] (Forall_cons _ W (Forall_nil _))) as R.
    cbn [trace flat_map] in R. rewrite app_nil_r in R. rewrite R.
    reflexivity.
  - intros Hn. apply encoded_long. rewrite (N Hn).
    unfold is_i32 in Hres. lia.
  - intros ->. reflexivity.
Qed.

Lemma signed_result_roundtrip_witness :
  map result
    (fst (@main masking_machine
       (contents (log_ (fst (@log sample_host MutexTryLockDone 16 0 (-16) 3
          ({| log_ := {| is_open := true; contents := [] |};
              initialized_ := true; writer_ := {| buffer := [7; 7] |} |},
           1))))))) = [-16] /\
  length (encoded (to_u64 (-16))) = 10%nat.
Proof.
  assert (S : forall w, Forall is_u64 (@call_stack sample_host w)).
  { intros w. repeat (apply Forall_cons; [in_range|]). apply Forall_nil. }
  pose proof (signed_result_roundtrip masking_machine sample_host
                MutexTryLockDone 16 0 (-16) 3
                {| log_ := {| is_open := true; contents := [] |};
                   initialized_ := true; writer_ := {| buffer := [7; 7] |} |}
                1 ltac:(in_range) ltac:(in_range) ltac:(in_range)
                ltac:(in_range) ltac:(in_range) S eq_refl eq_refl eq_refl)
    as (_ & _ & _ & X & Y & _).
  split; [exact X|]. apply Y. reflexivity.
Defined.

(** C9 (varint decode is total and silent at the end of input).  For
    every reader state [readVarInt] returns, keeping the buffer and
    moving the position forward by no more than the bytes that are
    left; at or past the end of the buffer it returns 0 and moves
    nothing.  When the bytes left are a varint cut off by the end of the
    buffer (each carries the continuation bit, and they are ten at
    most, so that no shift is over-wide) it returns the number those
    bytes carry, seven bits a byte, the first byte lowest, kept to 64
    bits, and stops at the end of the buffer; cut after [k] bytes of
    the varint of [v], that number is [v] modulo [2^(7k)]; and it is the
    very value returned for the same bytes properly terminated (the
    continuation bit of the last one cleared). *)
Theorem readVarInt_total_silent (M : Machine) (r : VarIntReader) :
  (exists v r', readVarInt r = (v, r') /\ buffer_ r' = buffer_ r /\
     (pos_ r <= pos_ r' <= Nat.max (pos_ r) (length (buffer_ r)))%nat) /\
  (eof r = true -> readVarInt r = (0, r)) /\
  (Forall continues (unread r) -> (length (unread r) <= 10)%nat ->
     readVarInt r =
       (to_u64 (payload (unread r)),
        {| buffer_ := buffer_ r;
           pos_ := (pos_ r + length (unread r))%nat |}) /\
     eof (snd (readVarInt r)) = true) /\
  (forall v k,
     is_u64 v -> (k < length (encoded v))%nat ->
     unread r = firstn k (encoded v) ->
     fst (readVarInt r) = v mod 2 ^ (7 * Z.of_nat k) /\
     eof (snd (readVarInt r)) = true) /\
  (forall bs b r0,
     unread r = bs ++ [b] -> Forall continues bs -> continues b ->
     unread r0 = bs ++ [Z.land b 0x7F] ->
     fst (readVarInt r) = fst (readVarInt r0) /\
     eof (snd (readVarInt r)) = true /\ eof (snd (readVarInt r0)) = true).
Proof.
  split; [|split; [|split; [|split]]].
  - unfold readVarInt.
    pose proof (readVarInt_loop_consumed (skipn (pos_ r) (buffer_ r)) 0 0) as C.
    destruct (readVarInt_loop _ 0 0) as [v n]. cbn [snd] in C.
    rewrite length_skipn in C.
    eexists. eexists. split; [reflexivity|]. cbn [buffer_ pos_].
    split; [reflexivity|lia].
  - intros E. apply readVarInt_at_eof. now apply eof_unread.
  - intros C L. unfold readVarInt. fold (unread r).
    rewrite readVarInt_loop_payload by (assumption || lia).
    rewrite Z.shiftl_0_r, Z.lor_0_l. split; [reflexivity|].
    cbn [snd]. apply eof_unread. rewrite unread_advance. apply skipn_all.
  - intros v k Hv Hk U.
    destruct (readVarInt_cut r v [] k Hv) as (r' & R & U').
    { now rewrite app_nil_r. }
    rewrite R. cbn [fst snd]. split.
    + rewrite cut_value_inside by assumption. apply Z.land_ones. lia.
    + apply eof_unread. rewrite U'. apply firstn_nil.
  - intros bs b r0 U Hbs Hb U0.
    destruct (readVarInt_loop_cut bs b Hbs Hb 0 0) as [E L].
    unfold readVarInt. fold (unread r) (unread r0). rewrite U, U0, <- E.
    destruct (readVarInt_loop (bs ++ [b]) 0 0) as [v n]. cbn [fst snd] in *.
    split; [reflexivity|]. split; apply eof_unread; rewrite unread_advance.
    + rewrite U, L. apply skipn_all.
    + rewrite U0, L. apply skipn_all2. rewrite !length_app. cbn [length]. lia.
Qed.

Lemma readVarInt_total_silent_witness :
  @readVarInt masking_machine {| buffer_ := [172; 2]; pos_ := 2 |} =
    (0, {| buffer_ := [172; 2]; pos_ := 2 |}) /\
  @readVarInt masking_machine {| buffer_ := [7; 172]; pos_ := 1 |} =
    (44, {| buffer_ := [7; 172]; pos_ := 2 |}) /\
  fst (@readVarInt masking_machine {| buffer_ := [7; 172]; pos_ := 1 |}) =
  fst (@readVarInt masking_machine {| buffer_ := [44]; pos_ := 0 |}).
Proof.
  split; [|split].
  - exact (proj1 (proj2 (readVarInt_total_silent masking_machine
                           {| buffer_ := [172; 2]; pos_ := 2 |})) eq_refl).
  - refine (proj1 (proj1 (proj2 (proj2 (readVarInt_total_silent
              masking_machine {| buffer_ := [7; 172]; pos_ := 1 |})))
              (Forall_cons 172 eq_refl (Forall_nil _)) _)).
    cbn. lia.
  - refine (proj1 (proj2 (proj2 (proj2 (proj2 (readVarInt_total_silent
              masking_machine {| buffer_ := [7; 172]; pos_ := 1 |}))))
              [] 172 {| buffer_ := [44]; pos_ := 0 |} eq_refl
              (Forall_nil _) eq_refl eq_refl)).
Defined.

(** C6, as stated, fails: on a platform without [pthread_mutex_timedlock]
    the constructor leaves the slot null, and the wrapper, entered with
    the flag clear or set, does not forward: it calls through the null
    pointer. *)
Lemma resolver_miss_counterexample :
  @lookup sample_host real_pthread_mutex_timedlock 0 = None /\
  @reals sample_host sample_process real_pthread_mutex_timedlock = None /\
  @enter sample_host (mutex_timedlock 16 0) sample_process = None /\
  @enter sample_host (mutex_timedlock 16 0)
     (@set_in_hook sample_host true sample_process) = None.
Proof. repeat split; vm_compute; reflexivity. Qed.

(** C6, amended.  The constructor stores in every slot what the lookup
    for its symbol returned (the lookup with version tag GLIBC_2.3.2 for
    the six condition-variable symbols, the plain one for the other
    sixteen) and keeps no other record of a failure.  No wrapper tests
    its slot: a wrapper whose own symbol did not resolve has no
    pass-through, it calls through the null pointer, which has no
    defined behaviour.  A wrapper calls through three slots at most, its
    own and, because the mutex of the logger is locked and unlocked
    through the shim itself, those of [pthread_mutex_lock] and
    [pthread_mutex_unlock]: the failure of any other symbol changes
    nothing of what it returns, logs or does to the platform.  With the
    three resolved, and the real lock of the logger's mutex succeeding,
    it completes; entered with the flag set it needs its own slot only.
    But when [pthread_mutex_lock] or [pthread_mutex_unlock] did not
    resolve, every wrapper entered with the flag clear and the logger
    initialised calls through the null pointer. *)
Theorem resolver_miss (P : Host) (c : Call) (st : Shim) :
  (forall s, reals (init_skeleton_key st) s = lookup s (world st)) /\
  (forall st2, alike c st st2 ->
     observe (enter c st2) = observe (enter c st)) /\
  (reals st (symbol_of c) = None -> enter c st = None) /\
  (forall f fl fu,
     reals st (symbol_of c) = Some f ->
     reals st real_pthread_mutex_lock = Some fl ->
     reals st real_pthread_mutex_unlock = Some fu ->
     (forall w, fst (fl [write_mutex_address] w) = 0) ->
     enter c st <> None) /\
  (in_hook st = true -> reals st (symbol_of c) <> None ->
   enter c st <> None) /\
  (in_hook st = false -> initialized_ (logger st) = true ->
   reals st real_pthread_mutex_lock = None \/
   reals st real_pthread_mutex_unlock = None ->
   enter c st = None).
Proof.
  split; [|split; [|split; [|split; [|split]]]].
  - intros s. apply init_skeleton_key_reals.
  - intros st2. apply enter_alike.
  - apply enter_unresolved.
  - intros f fl fu R Rl Ru E. destruct (in_hook st) eqn:F.
    + rewrite enter_passthrough, call_eq, R by assumption. discriminate.
    + destruct (enter_completes c st f fl fu F R Rl Ru E) as (w0 & st' & ->).
      discriminate.
  - intros F R. rewrite enter_passthrough, call_eq by assumption.
    destruct (reals st (symbol_of c)); [discriminate|congruence].
  - apply enter_mutex_unresolved.
Qed.

Lemma resolver_miss_witness :
  @observe sample_host (@enter sample_host (mutex_lock 16)
     (@set_real sample_host real_pthread_cond_wait None sample_process)) =
  @observe sample_host (@enter sample_host (mutex_lock 16) sample_process) /\
  @enter sample_host (mutex_lock 16) sample_process <> None /\
  @enter sample_host (mutex_timedlock 16 0) sample_process = None /\
  @enter sample_host (mutex_init 16 0)
     (@set_real sample_host real_pthread_mutex_unlock None sample_process) =
  None.
Proof.
  split; [|split; [|split]].
  - exact (proj1 (proj2 (resolver_miss sample_host (mutex_lock 16)
                           sample_process))
             (@set_real sample_host real_pthread_cond_wait None
                sample_process)
             (conj eq_refl (conj eq_refl (conj eq_refl
                (conj eq_refl (conj eq_refl eq_refl)))))).
  - exact (proj1 (proj2 (proj2 (proj2 (resolver_miss sample_host
                                         (mutex_lock 16) sample_process))))
             sample_real sample_real sample_real eq_refl eq_refl eq_refl
             (fun _ => eq_refl)).
  - exact (proj1 (proj2 (proj2 (resolver_miss sample_host
                                  (mutex_timedlock 16 0) sample_process)))
             eq_refl).
  - exact (proj2 (proj2 (proj2 (proj2 (proj2 (resolver_miss sample_host
             (mutex_init 16 0)
             (@set_real sample_host real_pthread_mutex_unlock None
                sample_process))))))
             eq_refl eq_refl (or_intror eq_refl)).
Defined.

(** C7 (recursion guard).  For every wrapped entry point whose symbol
    resolved: entered with [in_hook] set, the wrapper is exactly the
    call of the real implementation, returning its value, with the flag
    and the logger (hence the trace) untouched.  Entered with [in_hook]
    clear (the two slots of the logger's mutex resolved and its real
    lock succeeding), it returns the value of the real implementation
    with the flag clear again, and when the logger has its file the
    trace has grown by the records of the call; it has set the flag in
    between, for a call of [log] on an initialised logger with the flag
    clear does not return.  And so the flag is clear after every run of
    top-level calls that starts with it clear. *)
Theorem recursion_guard (P : Host) (c : Call) (st : Shim) (f : RealFn) :
  reals st (symbol_of c) = Some f ->
  (in_hook st = true ->
   enter c st =
   Some (fst (f (args_of c) (world st)),
         {| in_hook := true; reals := reals st; logger := logger st;
            world := snd (f (args_of c) (world st)) |})) /\
  (in_hook st = false ->
   forall fl fu,
     reals st real_pthread_mutex_lock = Some fl ->
     reals st real_pthread_mutex_unlock = Some fu ->
     (forall w, fst (fl [write_mutex_address] w) = 0) ->
     exists w0 st',
       enter c st = Some (fst (f (args_of c) w0), st') /\
       in_hook st' = false /\
       (initialized_ (logger st) = true ->
        is_open (log_ (logger st)) = true ->
        exists es,
          file st' = file st ++ trace es /\ map type es = kinds_of c)) /\
  (in_hook st = false -> initialized_ (logger st) = true ->
   forall type ptr1 ptr2 result duration_ns,
     instance_log type ptr1 ptr2 result duration_ns st = None) /\
  (in_hook st = false ->
   forall cs st', run cs st = Some st' -> in_hook st' = false).
Proof.
  intros R. split; [|split; [|split]].
  - intros F. rewrite enter_passthrough, call_eq, R, F by assumption.
    reflexivity.
  - intros F fl fu Rl Ru E.
    destruct (enter_completes c st f fl fu F R Rl Ru E) as (w0 & st' & En).
    exists w0, st'. split; [exact En|]. split.
    + eapply enter_clears_flag; eauto.
    + intros I O.
      destruct (enter_writes c st _ st' (conj F (conj I O)) En)
        as (_ & _ & _ & es & Ef & Et & _).
      exists es. auto.
  - intros F I t p1 p2 r d. now apply instance_log_flag_clear.
  - intros F cs st'. now apply run_clears_flag.
Qed.

Lemma recursion_guard_witness :
  @file sample_host
    (snd (match @enter sample_host (mutex_lock 16)
                  (@set_in_hook sample_host true sample_process) with
          | Some p => p
          | None => (0, sample_process)
          end)) = [] /\
  (exists w0 st',
     @enter sample_host (mutex_lock 16) sample_process =
       Some (fst (sample_real [16] w0), st') /\
     @in_hook sample_host st' = false /\
     exists es,
       @file sample_host st' = @file sample_host sample_process ++ trace es /\
       map type es = [MutexLock; MutexLockDone]) /\
  @instance_log sample_host MutexLock 16 0 0 0 sample_process = None /\
  (forall st',
     @run sample_host [mutex_lock 16; mutex_unlock 16] sample_process =
       Some st' ->
     @in_hook sample_host st' = false).
Proof.
  pose proof (recursion_guard sample_host (mutex_lock 16)
                (@set_in_hook sample_host true sample_process)
                sample_real eq_refl) as [A _].
  pose proof (recursion_guard sample_host (mutex_lock 16) sample_process
                sample_real eq_refl) as (_ & B & C & D).
  split; [|split; [|split]].
  - rewrite (A eq_refl). reflexivity.
  - destruct (B eq_refl sample_real sample_real eq_refl eq_refl
                (fun _ => eq_refl)) as (w0 & st' & E & F & G).
    exists w0, st'. split; [exact E|]. split; [exact F|].
    exact (G eq_refl eq_refl).
  - exact (C eq_refl eq_refl MutexLock 16 0 0 0).
  - exact (D eq_refl [mutex_lock 16; mutex_unlock 16]).
Defined.

(** C8, as stated, fails: [pthread_mutex_lock(nullptr)] returns, and the
    trace then holds its two records, both with ptr1 zero. *)
Lemma ptr1_nonzero_counterexample :
  exists st' e1 e2,
    @enter sample_host (mutex_lock nullptr) sample_process = Some (0, st') /\
    @main masking_machine (@file sample_host st') = ([e1; e2], Exit0) /\
    type e1 = MutexLock /\ ptr1 e1 = 0 /\
    type e2 = MutexLockDone /\ ptr1 e2 = 0.
Proof.
  eexists. eexists. eexists.
  split; [vm_compute; reflexivity|].
  split; [vm_compute; reflexivity|].
  repeat split.
Qed.

(** C8, amended.  The shim does not look at the pointer it is given: in
    every record a wrapper writes, ptr1 is the first argument of the
    call as the caller supplied it.  It is therefore non-zero whenever
    that argument is not null. *)
Theorem ptr1_is_first_argument (P : Host) (c : Call) (st st' : Shim)
    (r : Z) :
  enter c st = Some (r, st') ->
  exists es,
    file st' = file st ++ trace es /\
    Forall (fun e => ptr1 e = first_arg c) es /\
    (first_arg c <> 0 -> Forall (fun e => ptr1 e <> 0) es).
Proof.
  intros E.
  assert (X : exists es, file st' = file st ++ trace es /\
                         Forall (fun e => ptr1 e = first_arg c) es).
  { destruct (in_hook st) eqn:F.
    - rewrite enter_passthrough, call_eq in E by assumption.
      destruct (reals st (symbol_of c)) as [f|]; [|discriminate].
      injection E as _ <-. exists []. split; [|constructor].
      unfold file; cbn [logger trace flat_map]. now rewrite app_nil_r.
    - now destruct (enter_returns c st r st' F E) as (_ & _ & _ & X). }
  destruct X as (es & Ef & Ep). exists es. repeat split; try assumption.
  intros N. eapply Forall_impl; [|exact Ep]. cbn. intros e ->. exact N.
Qed.

Lemma ptr1_is_first_argument_witness :
  exists st' es,
    @enter sample_host (mutex_lock 16) sample_process = Some (0, st') /\
    @file sample_host st' = @file sample_host sample_process ++ trace es /\
    Forall (fun e => ptr1 e = 16) es.
Proof.
  eexists.
  assert (E : @enter sample_host (mutex_lock 16) sample_process =
              Some (0, _)) by (vm_compute; reflexivity).
  destruct (ptr1_is_first_argument sample_host (mutex_lock 16)
              sample_process _ 0 E) as (es & Ef & Ep & _).
  exists es. split; [exact E|]. split; [exact Ef|exact Ep].
Defined.

Lemma sample_run_reachable : reachable sample_run.
Proof.
  unfold sample_run.
  eapply reach_step; [|apply step_append with (a := sample_call_2) (ts := 7);
                        [reflexivity|constructor]].
  eapply reach_step; [|apply step_clock; reflexivity].
  eapply reach_step;
    [|apply step_lock; [reflexivity|reflexivity|prove_typed]].
  eapply reach_step; [|apply step_unlock; reflexivity].
  eapply reach_step; [|apply step_append with (a := sample_call_1) (ts := 7);
                        [reflexivity|repeat (apply Forall_cons; [in_range|]); apply Forall_nil]].
  eapply reach_step; [|apply step_clock; reflexivity].
  eapply reach_step; [|apply step_tick; cbn; lia].
  eapply reach_step;
    [|apply step_lock; [reflexivity|reflexivity|prove_typed]].
  apply reach_started. lia.
Qed.

(** C10 (timestamps in file order).  In every state the threads of the
    process can reach, whatever their interleaving, the trace file is
    the wire form of a sequence of records that the decoder reads back
    whole, and along that sequence every record's timestamp is less than
    or equal to the next one's. *)
Theorem file_timestamps_monotone (M : Machine) (p : Process) :
  reachable p ->
  exists es,
    trace_file p = trace es /\
    main (trace_file p) = (es, Exit0) /\
    Sorted Z.le (map timestamp es).
Proof.
  intros R. destruct (reachable_invariant p R) as [es I].
  exists es. destruct I. repeat split; try assumption.
  rewrite inv_file0. now apply main_trace.
Qed.

Lemma file_timestamps_monotone_witness :
  exists es,
    trace_file sample_run = trace es /\
    @main masking_machine (trace_file sample_run) = (es, Exit0) /\
    Sorted Z.le (map timestamp es).
Proof.
  exact (file_timestamps_monotone masking_machine sample_run
           sample_run_reachable).
Defined.

(* ================================================================== *)
(** * Part IV.  Further properties of the code                         *)
(* ================================================================== *)

(** ** The names of the kinds *)

Ltac unfold_kinds :=
  unfold ThreadCreate, MutexInit, MutexDestroy, MutexLock, MutexLockDone,
    MutexTryLock, MutexTryLockDone, MutexTimedLock, MutexTimedLockDone,
    MutexUnlock, RWLockInit, RWLockDestroy, RWLockRead, RWLockReadDone,
    RWLockTryRead, RWLockTryReadDone, RWLockTimedRead, RWLockTimedReadDone,
    RWLockWrite, RWLockWriteDone, RWLockTryWrite, RWLockTryWriteDone,
    RWLockTimedWrite, RWLockTimedWriteDone, RWLockUnlock, CondInit,
    CondDestroy, CondSignal, CondBroadcast, CondWait, CondWaitDone,
    CondTimedWait, CondTimedWaitDone in *.

Lemma kind_is_nat a : 0 <= a <= 32 -> exists n, (n < 33)%nat /\ a = Z.of_nat n.
Proof. intros Ha. exists (Z.to_nat a). split; lia. Qed.

Lemma kind_of_name_eventTypeToString a :
  0 <= a <= 32 -> kind_of_name (eventTypeToString a) = Some a.
Proof.
  intros Ha. destruct (kind_is_nat a Ha) as (n & Hn & ->). clear Ha.
  do 33 (destruct n as [|n]; [vm_compute; reflexivity|]). lia.
Qed.

Lemma eventTypeToString_known a :
  0 <= a <= 32 -> eventTypeToString a <> "Unknown".
Proof.
  intros Ha. destruct (kind_is_nat a Ha) as (n & Hn & ->). clear Ha.
  do 33 (destruct n as [|n]; [vm_compute; discriminate|]). lia.
Qed.

Lemma eventTypeToString_default a :
  a < 0 \/ 32 < a -> eventTypeToString a = "Unknown".
Proof.
  intros Ha. unfold eventTypeToString. unfold_kinds.
  repeat match goal with
         | |- context [a =? ?k] => destruct (Z.eqb_spec a k); [lia|]
         end.
  reflexivity.
Qed.

(** X1.  [eventTypeToString] gives the thirty-three kinds pairwise
    distinct names, none of them "Unknown" (so the kind can be read back
    from a printed line), and gives every other tag the name "Unknown". *)
Theorem eventTypeToString_names (a b : Z) :
  (0 <= a <= 32 -> kind_of_name (eventTypeToString a) = Some a) /\
  (0 <= a <= 32 -> 0 <= b <= 32 ->
   eventTypeToString a = eventTypeToString b -> a = b) /\
  (0 <= a <= 32 -> eventTypeToString a <> "Unknown") /\
  (a < 0 \/ 32 < a -> eventTypeToString a = "Unknown").
Proof.
  split; [|split; [|split]].
  - apply kind_of_name_eventTypeToString.
  - intros Ha Hb E.
    pose proof (kind_of_name_eventTypeToString a Ha) as Ka.
    pose proof (kind_of_name_eventTypeToString b Hb) as Kb.
    rewrite E, Kb in Ka. now injection Ka.
  - apply eventTypeToString_known.
  - apply eventTypeToString_default.
Qed.

Lemma eventTypeToString_names_witness :
  kind_of_name (eventTypeToString CondWaitDone) = Some CondWaitDone /\
  eventTypeToString CondWaitDone <> "Unknown" /\
  eventTypeToString 33 = "Unknown".
Proof.
  destruct (eventTypeToString_names CondWaitDone CondWait) as (A & _ & C & _).
  destruct (eventTypeToString_names 33 0) as (_ & _ & _ & D).
  split; [|split].
  - apply A. vm_compute. split; discriminate.
  - apply C. vm_compute. split; discriminate.
  - apply D. right. reflexivity.
Defined.

(** ** The size and the shape of a varint *)

(** X3.  [encodeVarInt] spends one byte per seven significant bits: for
    an unsigned 64-bit value and k at least 1, it appends at most k
    bytes exactly when the value is below 2^(7k); it always appends at
    least one. *)
Theorem varint_length (v : Z) (w : VarIntWriter) (k : nat) :
  is_u64 v -> (1 <= k)%nat ->
  (length (buffer w) < length (buffer (encodeVarInt v w)))%nat /\
  ((length (buffer (encodeVarInt v w)) <= length (buffer w) + k)%nat <->
   v < 2 ^ (7 * Z.of_nat k)).
Proof.
  intros [Hv0 Hv] Hk. rewrite encodeVarInt_buffer, length_app.
  pose proof (encoded_nonempty v). split; [lia|]. split.
  - intros L. apply (encodeVarInt_loop_short 64);
      [split; [lia|] | lia | rewrite <- encoded_eq; lia].
    eapply Z.lt_le_trans; [exact Hv|]. apply Z.pow_le_mono_r; lia.
  - intros B.
    pose proof (encodeVarInt_loop_length 64 v (Z.of_nat k)
                  (conj Hv0 B) ltac:(lia)) as L.
    rewrite <- encoded_eq in L. lia.
Qed.

Lemma varint_length_witness :
  is_u64 16383 /\
  (length (buffer (encodeVarInt 16383 {| buffer := [] |})) <= 0 + 2)%nat.
Proof.
  assert (H : is_u64 16383) by (unfold is_u64; lia).
  split; [exact H|].
  apply (proj2 (varint_length 16383 {| buffer := [] |} 2 H ltac:(lia))).
  vm_compute. reflexivity.
Defined.

Lemma lor_128_bound v : 0 <= Z.lor (Z.land v 0x7F) 0x80 < 2 ^ 8.
Proof.
  rewrite <- Z.lxor_lor, <- Z.add_nocarry_lxor by apply land_127_128.
  pose proof (land_127_bound v). lia.
Qed.

Lemma encodeVarInt_loop_shape f : forall v,
  0 <= v < 2 ^ (7 * Z.of_nat (S f)) ->
  exists init last,
    encodeVarInt_loop (S f) v [] = init ++ [last] /\
    Forall continues init /\ Z.land last 0x80 = 0 /\
    Forall is_u8 (init ++ [last]).
Proof.
  assert (One : forall v, Forall is_u8 ([] ++ [Z.land v 0x7F])).
  { intros v. constructor; [|constructor]. pose proof (land_127_bound v).
    unfold is_u8. lia. }
  induction f as [|f IH]; intros v Hv; rewrite encodeVarInt_loop_S.
  - assert (Z.shiftr v 7 = 0) as ->.
    { apply Z.shiftr_eq_0; [lia|].
      destruct (Z.eq_dec v 0) as [->|]; [cbn; lia|].
      apply Z.log2_lt_pow2; lia. }
    exists [], (Z.land v 0x7F). cbn [Z.eqb].
    split; [reflexivity|]. split; [constructor|].
    split; [apply land_127_128|apply One].
  - destruct (Z.shiftr v 7 =? 0).
    + exists [], (Z.land v 0x7F).
      split; [reflexivity|]. split; [constructor|].
      split; [apply land_127_128|apply One].
    + pose proof (shiftr7_bound v (Z.of_nat (S (S f))) Hv ltac:(lia)) as Hb.
      replace (Z.of_nat (S (S f)) - 1) with (Z.of_nat (S f)) in Hb by lia.
      destruct (IH (Z.shiftr v 7) Hb) as (init & last & E & C & T & B).
      exists (Z.lor (Z.land v 0x7F) 0x80 :: init), last. rewrite E.
      split; [reflexivity|]. split; [|split; [exact T|]].
      * constructor; [|exact C]. unfold continues.
        now rewrite land_lor_128_128.
      * cbn [app]. constructor; [apply lor_128_bound|exact B].
Qed.

(** X4.  What [encodeVarInt] appends for an unsigned 64-bit value is
    self-delimiting: every byte fits eight bits, every byte but the last
    carries the continuation bit, and the last does not. *)
Theorem varint_shape (v : Z) (w : VarIntWriter) :
  is_u64 v ->
  exists init last,
    buffer (encodeVarInt v w) = buffer w ++ init ++ [last] /\
    Forall continues init /\ Z.land last 0x80 = 0 /\
    Forall is_u8 (init ++ [last]).
Proof.
  intros [Hv0 Hv]. rewrite encodeVarInt_buffer, encoded_eq.
  destruct (encodeVarInt_loop_shape 63 v) as (init & last & E & C & T & B).
  - split; [lia|]. eapply Z.lt_le_trans; [exact Hv|].
    apply Z.pow_le_mono_r; lia.
  - exists init, last. rewrite E. auto.
Qed.

Lemma varint_shape_witness :
  is_u64 300 /\
  exists init last,
    buffer (encodeVarInt 300 {| buffer := [7] |}) = [7] ++ init ++ [last] /\
    Forall continues init /\ Z.land last 0x80 = 0 /\
    Forall is_u8 (init ++ [last]).
Proof.
  assert (H : is_u64 300) by (unfold is_u64; lia).
  split; [exact H|].
  exact (varint_shape 300 {| buffer := [7] |} H).
Defined.

(** ** A record on the wire: where it ends, how long it is *)

(** X5.  The wire form is self-delimiting and loses nothing: if the
    bytes of one well-formed record followed by anything equal the bytes
    of another followed by anything, the records are equal and so is
    what follows; hence two sequences of well-formed records with the
    same trace file are the same sequence. *)
Theorem trace_unique (e1 e2 : Event) (rest1 rest2 : list Z)
    (es1 es2 : list Event) :
  well_formed e1 -> well_formed e2 ->
  Forall well_formed es1 -> Forall well_formed es2 ->
  (serialize e1 ++ rest1 = serialize e2 ++ rest2 ->
   e1 = e2 /\ rest1 = rest2) /\
  (trace es1 = trace es2 -> es1 = es2).
Proof.
  intros H1 H2 F1 F2. split.
  - intros E.
    destruct (@read_event_serialize masking_machine e1
                {| buffer_ := serialize e1 ++ rest1; pos_ := 0 |} rest1 H1
                eq_refl) as (r1 & R1 & U1).
    destruct (@read_event_serialize masking_machine e2
                {| buffer_ := serialize e1 ++ rest1; pos_ := 0 |} rest2 H2)
      as (r2 & R2 & U2); [exact E|].
    rewrite R1 in R2. injection R2 as -> ->. split; congruence.
  - intros E. pose proof (@main_trace masking_machine es1 F1) as M1.
    pose proof (@main_trace masking_machine es2 F2) as M2.
    rewrite E in M1. congruence.
Qed.

Lemma trace_unique_witness :
  well_formed layout_probe /\
  [sample_event; layout_probe] = [sample_event; layout_probe].
Proof.
  assert (L : well_formed layout_probe) by prove_well_formed.
  split; [exact L|].
  exact (proj2 (trace_unique sample_event sample_event [] []
                  [sample_event; layout_probe] [sample_event; layout_probe]
                  sample_event_well_formed sample_event_well_formed
                  (Forall_cons _ sample_event_well_formed
                     (Forall_cons _ L (Forall_nil _)))
                  (Forall_cons _ sample_event_well_formed
                     (Forall_cons _ L (Forall_nil _))))
           eq_refl).
Defined.





(** ** A trace cut before the kind byte of its last record *)

Lemma read_event_firstn_early `{Machine} e m r :
  well_formed e -> unread r = firstn m (serialize e) ->
  (m <= length (encoded (timestamp e)) + length (encoded (tid e)))%nat ->
  read_event r = None.
Proof.
  intros [Hts Htid Hty Hp1 Hp2 Hres Hdur Hst Hd] E Hm.
  rewrite serialize_layout in E.
  destruct (readVarInt_firstn r _ _ m Hts E) as (v1 & r1 & R1 & U1 & _).
  destruct (readVarInt_firstn r1 _ _ _ (is_u32_u64 _ Htid) U1)
    as (v2 & r2 & R2 & U2 & _).
  replace (m - length (encoded (timestamp e)) - length (encoded (tid e)))%nat
    with O in U2 by lia.
  rewrite firstn_O in U2.
  unfold read_event. rewrite R1, R2, readEventType_at_eof by assumption.
  reflexivity.
Qed.

(** X7.  A trace cut inside the timestamp or the tid of a record, or
    right after them, makes the decoder index its buffer past the end:
    after the records before the cut, [readEventType] reads
    [buffer_[pos_]] with [pos_] equal to the size of the buffer. *)
Theorem cut_before_kind (M : Machine) (es rest : list Event) (e : Event)
    (m : nat) :
  Forall well_formed es -> well_formed e ->
  (0 < m <= length (encoded (timestamp e)) + length (encoded (tid e)))%nat ->
  main (firstn (length (trace es) + m) (trace (es ++ e :: rest))) =
    (es, OutOfBoundsRead).
Proof.
  intros Hes He [Hm0 Hm].
  assert (T : trace (es ++ e :: rest) = trace es ++ serialize e ++ trace rest).
  { unfold trace. rewrite flat_map_app. reflexivity. }
  assert (Hl : (m <= length (serialize e))%nat).
  { rewrite serialize_layout, !length_app. lia. }
  rewrite T, firstn_app_2, firstn_app.
  replace (m - length (serialize e))%nat with O by lia.
  cbn [firstn]. rewrite app_nil_r. unfold main.
  set (file := trace es ++ firstn m (serialize e)).
  assert (Hf : (length es + 1 <= S (length file))%nat).
  { unfold file. rewrite length_app. pose proof (length_trace es). lia. }
  replace (S (length file))
    with (length es + S (length file - length es))%nat by lia.
  destruct (main_loop_trace es {| buffer_ := file; pos_ := 0 |}
              (firstn m (serialize e)) (S (length file - length es)) Hes)
    as (r' & U & L); [reflexivity|].
  rewrite L. cbn [main_loop].
  assert (F : eof r' = false).
  { destruct (serialize_cons e) as (b & l & S'). rewrite S' in U.
    destruct m as [|m]; [lia|]. cbn [firstn] in U. eapply not_eof; eauto. }
  rewrite F, (read_event_firstn_early e m r' He U Hm).
  now rewrite app_nil_r.
Qed.

Lemma cut_before_kind_witness :
  @main masking_machine (firstn 2 (trace [sample_event])) =
    ([], OutOfBoundsRead).
Proof.
  refine (cut_before_kind masking_machine [] [] sample_event 2
            (Forall_nil _) sample_event_well_formed _).
  vm_compute. split; lia.
Defined.

(** ** What the decoder prints *)

Lemma first_nonzero_cons_base b t l :
  (if (if b =? 0 then t else b) =? 0 then first_nonzero l
   else if b =? 0 then t else b) =
  (if b =? 0 then first_nonzero (t :: l) else b).
Proof.
  cbn [first_nonzero]. destruct (b =? 0) eqn:B; [reflexivity|].
  now rewrite B.
Qed.

Lemma main_print_loop_lines `{Machine} fuel : forall r b,
  snd (main_print_loop fuel r b) = snd (main_loop fuel r) /\
  length (fst (main_print_loop fuel r b)) = length (fst (main_loop fuel r)) /\
  forall k e, nth_error (fst (main_loop fuel r)) k = Some e ->
    nth_error (fst (main_print_loop fuel r b)) k =
    Some (print_event
            (if b =? 0
             then first_nonzero
                    (firstn (S k) (map timestamp (fst (main_loop fuel r))))
             else b) e).
Proof.
  induction fuel as [|fuel IH]; intros r b; cbn [main_print_loop main_loop].
  - cbn. repeat split. intros [|k] e E; discriminate.
  - destruct (eof r).
    { cbn. repeat split. intros [|k] e E; discriminate. }
    destruct (read_event r) as [[e0 r']|].
    2:{ cbn. repeat split. intros [|k] e E; discriminate. }
    specialize (IH r' (if b =? 0 then timestamp e0 else b)).
    destruct (main_print_loop fuel r' _) as [ls o].
    destruct (main_loop fuel r') as [es o']. cbn [fst snd] in *.
    destruct IH as (O & L & N). split; [exact O|]. split; [cbn; now f_equal|].
    intros [|k] e E; cbn [nth_error] in *.
    + injection E as ->. f_equal. f_equal. cbn [map firstn first_nonzero].
      destruct (b =? 0); [|reflexivity]. now destruct (timestamp e =? 0) eqn:T;
        [apply Z.eqb_eq in T|].
    + rewrite (N k e E). f_equal. f_equal. cbn [map firstn].
      apply first_nonzero_cons_base.
Qed.

(** X9.  The decoder prints one line per decoded record and ends as the
    decoding does; the elapsed time of a line is its timestamp minus the
    first timestamp of the trace, up to that line, that is not zero (as
    a 64-bit unsigned difference).  So a leading record with timestamp 0
    does not fix the origin, and the origin is the timestamp of the
    first record otherwise. *)
Theorem main_print_elapsed (M : Machine) (file : list Z) (k : nat)
    (e : Event) :
  nth_error (fst (main file)) k = Some e ->
  snd (main_print file) = snd (main file) /\
  length (fst (main_print file)) = length (fst (main file)) /\
  nth_error (fst (main_print file)) k =
    Some (print_event
            (first_nonzero (firstn (S k) (map timestamp (fst (main file)))))
            e).
Proof.
  intros E. unfold main_print, main in *.
  destruct (main_print_loop_lines (S (length file))
              {| buffer_ := file; pos_ := 0 |} 0) as (O & L & N).
  split; [exact O|]. split; [exact L|]. exact (N k e E).
Qed.

Lemma main_print_elapsed_witness :
  option_map line_elapsed_ns
    (nth_error (fst (@main_print masking_machine (trace sample_zero_first)))
       2) =
  Some 4.
Proof.
  rewrite (proj2 (proj2 (main_print_elapsed masking_machine
                           (trace sample_zero_first) 2 sample_lock_done
                           eq_refl))).
  reflexivity.
Defined.

(** X10.  What a wrapper leaves in the trace when the thread is not
    already inside a wrapper, the logger has its file, the symbol and
    the two slots of the logger's mutex resolved, and the real lock of
    that mutex succeeds.  Every record is written between a real lock
    and a real unlock of the logger's mutex, with the clock and the
    stack read after the lock.  A wrapper that does not time its call
    makes the real call first, in the world it was entered in, and
    appends one record: its kind, the first argument, a null second
    pointer, the value the real call returned, duration 0.  A timing
    wrapper reads the clock, appends a record of its kind with result 0
    and duration 0, makes the real call, reads the clock again and
    appends a second record whose kind is the next tag, with the same
    two pointers (the second is the mutex for the condition waits and
    null otherwise), the value returned, and the difference of the two
    clock readings.  Both return the value of the real call. *)
Theorem wrapper_records (P : Host) (c : Call) (st : Shim)
    (f fl fu : RealFn) :
  ready st -> reals st (symbol_of c) = Some f ->
  reals st real_pthread_mutex_lock = Some fl ->
  reals st real_pthread_mutex_unlock = Some fu ->
  (forall w, fst (fl [write_mutex_address] w) = 0) ->
  (blocking c = false ->
   let r := fst (f (args_of c) (world st)) in
   let w1 := snd (f (args_of c) (world st)) in
   let w2 := snd (fl [write_mutex_address] w1) in
   exists st',
     enter c st = Some (r, st') /\
     file st' =
       file st ++
       serialize (logged_event (kind_of c) (first_arg c) nullptr r 0 w2) /\
     world st' = snd (fu [write_mutex_address] (snd (steady_clock_now w2)))) /\
  (blocking c = true ->
   let start := fst (steady_clock_now (world st)) in
   let w1 := snd (steady_clock_now (world st)) in
   let w2 := snd (fl [write_mutex_address] w1) in
   let w3 := snd (fu [write_mutex_address] (snd (steady_clock_now w2))) in
   let r := fst (f (args_of c) w3) in
   let w4 := snd (f (args_of c) w3) in
   let stop := fst (steady_clock_now w4) in
   let w5 := snd (steady_clock_now w4) in
   let w6 := snd (fl [write_mutex_address] w5) in
   exists st',
     enter c st = Some (r, st') /\
     file st' =
       file st ++
       serialize (logged_event (kind_of c) (first_arg c) (aux_of c) 0 0 w2) ++
       serialize (logged_event (kind_of c + 1) (first_arg c) (aux_of c) r
                    (to_u64 (stop - start)) w6) /\
     world st' = snd (fu [write_mutex_address] (snd (steady_clock_now w6)))).
Proof.
  intros Rd R Rl Ru E. split; intros B.
  - rewrite (enter_once c B).
    exact (hook_once_records _ (args_of c) (kind_of c) (first_arg c) st
             f fl fu Rd R Rl Ru E).
  - rewrite (enter_blocking c B).
    exact (hook_timed_records _ (args_of c) (kind_of c) (kind_of c + 1)
             (first_arg c) (aux_of c) st f fl fu Rd R Rl Ru E).
Qed.

Lemma sample_process_ready : @ready sample_host sample_process.
Proof. repeat split. Qed.

Lemma wrapper_records_witness :
  exists st',
    @enter sample_host (cond_wait 32 16) sample_process = Some (0, st') /\
    @file sample_host st' =
      serialize {| timestamp := 11; tid := 4242; type := CondWait;
                   ptr1 := 32; ptr2 := 16; result := 0; duration_ns := 0;
                   stack := [4198400; 4198912] |} ++
      serialize {| timestamp := 43; tid := 4242; type := CondWaitDone;
                   ptr1 := 32; ptr2 := 16; result := 0; duration_ns := 32;
                   stack := [4198400; 4198912] |} /\
    @world sample_host st' = 54.
Proof.
  exact (proj2 (wrapper_records sample_host (cond_wait 32 16) sample_process
                  sample_real sample_real sample_real
                  sample_process_ready eq_refl eq_refl eq_refl
                  (fun _ => eq_refl)) eq_refl).
Defined.

(** X11.  From a process that is ready and whose trace file holds the
    well-formed records [es0], every run of top-level calls that returns
    leaves a trace the decoder reads back whole, with status 0: the
    records [es0], then for each call in order one record of its kind,
    or, for a timing wrapper, a record of its kind followed by one of
    the next kind.  (The platform's addresses and return values and the
    pointers of the calls have their C types.) *)
Theorem run_decodes (M : Machine) (P : Host) (cs : list Call)
    (st st' : Shim) (es0 : list Event) :
  ready st -> host_typed st -> Forall pointers_typed cs ->
  Forall well_formed es0 -> file st = trace es0 ->
  run cs st = Some st' ->
  exists es,
    main (file st') = (es0 ++ es, Exit0) /\
    map type es = flat_map kinds_of cs /\
    ready st'.
Proof.
  intros Rd Ht Hp W0 F0 E.
  destruct (run_records cs st st' Rd Ht Hp E) as (Rd' & es & Ef & W & T).
  exists es. split; [|auto].
  rewrite Ef, F0, <- trace_app. apply main_trace. apply Forall_app. auto.
Qed.



Lemma sample_process_typed : @host_typed sample_host sample_process.
Proof.
  split.
  - intros w. repeat (apply Forall_cons; [in_range|]). apply Forall_nil.
  - intros s f args w E.
    destruct s; vm_compute in E; try discriminate E;
      injection E as <-; in_range.
Qed.

Lemma sample_calls_typed : Forall pointers_typed sample_calls.
Proof. repeat (apply Forall_cons; [split; in_range|]). apply Forall_nil. Qed.

Lemma run_decodes_witness :
  exists st' es,
    @run sample_host sample_calls sample_process = Some st' /\
    @main masking_machine (@file sample_host st') = (es, Exit0) /\
    map type es =
      [MutexInit; MutexLock; MutexLockDone; MutexUnlock; MutexDestroy].
Proof.
  assert (E : exists st',
    @run sample_host sample_calls sample_process = Some st').
  { eexists. vm_compute. reflexivity. }
  destruct E as [st' E].
  destruct (run_decodes masking_machine sample_host sample_calls
              sample_process st' [] sample_process_ready sample_process_typed
              sample_calls_typed (Forall_nil _) eq_refl E)
    as (es & D & T & _).
  exists st', es. split; [exact E|]. split; [exact D|exact T].
Defined.

(** ** The shared scratch buffer *)

Lemma run_writes_record e w :
  run_writes (record_writes e) w = write_event e w.
Proof. reflexivity. Qed.

Lemma write_event_any e w1 w2 : write_event e w1 = write_event e w2.
Proof. reflexivity. Qed.

Lemma set_stage_same t x f : set_stage t x f t = x.
Proof. unfold set_stage. now rewrite Nat.eqb_refl. Qed.

Lemma set_stage_other t t' x f : t <> t' -> set_stage t x f t' = f t'.
Proof. intros N. unfold set_stage. apply Nat.eqb_neq in N. now rewrite N. Qed.

(** What holds of the shared state, for the records [es] on disk. *)
Record shared_invariant (p : Shared) (es : list Event) : Prop := {
  si_disk : disk p = trace es;
  si_well_formed : Forall well_formed es;
  si_clock : 0 <= steady p < 2 ^ 63;
  si_mutex : forall t, stage p t <> Idle -> mutex_owner p = Some t;
  si_lock : forall t a, stage p t = HasLock a -> typed a;
  si_time : forall t a ts, stage p t = HasTime a ts ->
    typed a /\ 0 <= ts < 2 ^ 63;
  si_writing : forall t e todo, stage p t = Writing e todo ->
    well_formed e /\
    run_writes todo (scratch p) = write_event e {| buffer := [] |}
}.

Lemma shared_holder_unique p es t t' :
  shared_invariant p es -> stage p t <> Idle -> stage p t' <> Idle -> t' = t.
Proof.
  intros I A A'. pose proof (si_mutex p es I t A).
  pose proof (si_mutex p es I t' A'). congruence.
Qed.

(** In the state after a step of thread [t], what is asked of a thread
    is asked of [t] at its new stage or of another thread that is not
    idle, and there is no such other thread. *)
Ltac other_thread I N :=
  match goal with
  | E : set_stage ?t _ _ ?t' = _ |- _ =>
      destruct (Nat.eq_dec t t') as [<-|D];
      [rewrite set_stage_same in E
      |rewrite set_stage_other in E by assumption;
       exfalso;
       match type of E with
       | ?f ?t' = _ =>
           assert (N' : f t' <> Idle) by congruence;
           pose proof (shared_holder_unique _ _ _ _ I N N'); congruence
       end]
  end.

Lemma interleave_invariant p p' es :
  shared_invariant p es -> interleave p p' ->
  exists es', shared_invariant p' es'.
Proof.
  intros I S.
  destruct S as [p c Hc | p t a Ha Hm Hty | p t a Ha
                | p t a ts frames tidv Ha Hf | p t e op todo Ha
                | p t e Ha | p t Ha].
  - exists es. destruct I. constructor; cbn [steady mutex_owner scratch disk
      stage]; try assumption. lia.
  - assert (Free : forall t', stage p t' = Idle).
    { intros t'. destruct (stage p t') eqn:E; [reflexivity| | | |];
        assert (N : stage p t' <> Idle) by congruence;
        pose proof (si_mutex p es I t' N); congruence. }
    exists es. destruct I. constructor; cbn [steady mutex_owner scratch disk
      stage]; try assumption.
    + intros t' N. destruct (Nat.eq_dec t t') as [->|D]; [reflexivity|].
      rewrite set_stage_other in N by assumption. now rewrite Free in N.
    + intros t' a' E. destruct (Nat.eq_dec t t') as [->|D].
      * rewrite set_stage_same in E. now injection E as <-.
      * rewrite set_stage_other in E by assumption. now rewrite Free in E.
    + intros t' a' ts E. destruct (Nat.eq_dec t t') as [->|D].
      * rewrite set_stage_same in E. discriminate.
      * rewrite set_stage_other in E by assumption. now rewrite Free in E.
    + intros t' e todo E. destruct (Nat.eq_dec t t') as [->|D].
      * rewrite set_stage_same in E. discriminate.
      * rewrite set_stage_other in E by assumption. now rewrite Free in E.
  - assert (N : stage p t <> Idle) by congruence.
    exists es. pose proof I as I'. destruct I'. constructor;
      cbn [steady mutex_owner scratch disk stage]; try assumption.
    + intros t' N'. destruct (Nat.eq_dec t t') as [->|D]; [now apply si_mutex0|].
      rewrite set_stage_other in N' by assumption. now apply si_mutex0.
    + intros t' a' E. other_thread I N. discriminate.
    + intros t' a' ts E. other_thread I N. injection E as <- <-.
      rewrite to_u64_id by (unfold is_u64; lia). eauto.
    + intros t' e todo E. other_thread I N. discriminate.
  - assert (N : stage p t <> Idle) by congruence.
    exists es. pose proof I as I'. destruct I'.
    destruct (si_time0 t a ts Ha) as [Hty Hts]. constructor;
      cbn [steady mutex_owner scratch disk stage]; try assumption.
    + intros t' N'. destruct (Nat.eq_dec t t') as [->|D]; [now apply si_mutex0|].
      rewrite set_stage_other in N' by assumption. now apply si_mutex0.
    + intros t' a' E. other_thread I N. discriminate.
    + intros t' a' ts' E. other_thread I N. discriminate.
    + intros t' e todo E. other_thread I N. cbv zeta in E.
      injection E as <- <-. split.
      * now apply record_of_well_formed.
      * reflexivity.
  - assert (N : stage p t <> Idle) by congruence.
    exists es. pose proof I as I'. destruct I'.
    destruct (si_writing0 t e (op :: todo) Ha) as [He Hw]. constructor;
      cbn [steady mutex_owner scratch disk stage]; try assumption.
    + intros t' N'. destruct (Nat.eq_dec t t') as [->|D]; [now apply si_mutex0|].
      rewrite set_stage_other in N' by assumption. now apply si_mutex0.
    + intros t' a' E. other_thread I N. discriminate.
    + intros t' a' ts' E. other_thread I N. discriminate.
    + intros t' e' todo' E. other_thread I N. injection E as <- <-.
      split; [exact He|exact Hw].
  - assert (N : stage p t <> Idle) by congruence.
    pose proof I as I'. destruct I'.
    destruct (si_writing0 t e [] Ha) as [He Hw]. cbn in Hw.
    exists (es ++ [e]). constructor;
      cbn [steady mutex_owner scratch disk stage]; try assumption.
    + rewrite si_disk0, Hw, trace_app. cbn [trace flat_map].
      now rewrite app_nil_r.
    + apply Forall_app. split; [assumption|]. now constructor.
    + intros t' N'. destruct (Nat.eq_dec t t') as [->|D]; [now apply si_mutex0|].
      rewrite set_stage_other in N' by assumption. now apply si_mutex0.
    + intros t' a' E. other_thread I N. discriminate.
    + intros t' a' ts' E. other_thread I N. discriminate.
    + intros t' e' todo' E. other_thread I N. discriminate.
  - assert (N : stage p t <> Idle) by congruence.
    exists es. pose proof I as I'. destruct I'. constructor;
      cbn [steady mutex_owner scratch disk stage]; try assumption.
    + intros t' N'. exfalso. destruct (Nat.eq_dec t t') as [->|D].
      * rewrite set_stage_same in N'. congruence.
      * rewrite set_stage_other in N' by assumption.
        pose proof (shared_holder_unique p es t t' I N N'). congruence.
    + intros t' a' E. other_thread I N. discriminate.
    + intros t' a' ts' E. other_thread I N. discriminate.
    + intros t' e' todo' E. other_thread I N. discriminate.
Qed.

Lemma interleaved_invariant p : interleaved p -> exists es, shared_invariant p es.
Proof.
  induction 1 as [c Hc | p p' _ [es I] S].
  - exists []. constructor; cbn; try constructor; try lia; try congruence;
      try discriminate.
  - eapply interleave_invariant; eauto.
Qed.

(** X13.  The scratch buffer the threads share is never flushed half
    written or mixed: however the threads interleave, call of the writer
    by call of the writer, the trace file is at every moment the wire
    form of whole well-formed records, one per completed write, and the
    decoder reads it back with status 0. *)
Theorem atomic_append (M : Machine) (p : Shared) :
  interleaved p ->
  exists es,
    disk p = trace es /\ Forall well_formed es /\
    main (disk p) = (es, Exit0).
Proof.
  intros R. destruct (interleaved_invariant p R) as [es I].
  exists es. destruct I. repeat split; try assumption.
  rewrite si_disk0. now apply main_trace.
Qed.

Lemma sample_call_1_typed : typed sample_call_1.
Proof. prove_typed. Qed.

Ltac interleave_with step :=
  match goal with
  | X : interleaved ?p |- _ =>
      let Y := fresh "R" in
      let pr := step p in
      pose proof (interleaved_step p _ X pr) as Y;
      cbn [steady mutex_owner scratch disk stage] in Y;
      clear X
  end.

Lemma atomic_append_witness :
  exists p es,
    interleaved p /\ disk p <> [] /\ disk p = trace es /\
    @main masking_machine (disk p) = (es, Exit0).
Proof.
  pose proof (interleaved_fresh 5 ltac:(lia)) as R.
  unfold fresh in R.
  (* thread 1 takes the mutex, reads the clock, starts its record *)
  interleave_with ltac:(fun p =>
    constr:(take_mutex p 1 sample_call_1 eq_refl eq_refl sample_call_1_typed)).
  interleave_with ltac:(fun p => constr:(read_time p 1 sample_call_1 eq_refl)).
  interleave_with ltac:(fun p =>
    constr:(start_record p 1 sample_call_1 5 [] 101 eq_refl (Forall_nil _))).
  (* time passes between two calls on the writer *)
  interleave_with ltac:(fun p => constr:(writer_call p 1 _ _ _ eq_refl)).
  interleave_with ltac:(fun p =>
    constr:(pass_time p 6 (conj (proj1 (Z.leb_le 5 6) eq_refl)
                              (proj1 (Z.ltb_lt 6 (2 ^ 63)) eq_refl)))).
  (* the eight other calls, the write to the file, the release *)
  do 8 interleave_with ltac:(fun p =>
    constr:(writer_call p 1 _ _ _ eq_refl)).
  interleave_with ltac:(fun p => constr:(write_file p 1 _ eq_refl)).
  interleave_with ltac:(fun p => constr:(leave_scope p 1 eq_refl)).
  match goal with
  | X : interleaved ?p |- _ =>
      destruct (atomic_append masking_machine p X) as (es & D & _ & Mn);
      exists p, es; split; [exact X|]; split; [|split; [exact D|exact Mn]]
  end.
  vm_compute. discriminate.
Defined.

(** ** Encodings the writer never produces *)

Lemma land_lor_80_7F b : Z.land (Z.lor b 0x80) 0x7F = Z.land b 0x7F.
Proof.
  rewrite Z.land_lor_distr_l. change (Z.land 0x80 0x7F) with 0.
  apply Z.lor_0_r.
Qed.

Lemma lor_80_continues b : continues (Z.lor b 0x80).
Proof.
  unfold continues. apply Z.eqb_neq. intros E.
  apply (f_equal (fun x => Z.testbit x 7)) in E.
  rewrite Z.land_spec, Z.lor_spec in E. cbn in E.
  now rewrite orb_true_r in E.
Qed.

Lemma shl64_zero `{Machine} s : 0 <= s < 64 -> shl64 (Z.land 0 0x7F) s = 0.
Proof.
  intros Hs. unfold shl64. destruct (s <? 64) eqn:E;
    [|apply Z.ltb_ge in E; lia].
  cbn [Z.land]. now rewrite Z.shiftl_0_l.
Qed.

Lemma readVarInt_loop_padded `{Machine} bs b rest :
  Forall continues bs -> Z.land b 0x80 = 0 ->
  forall acc s, 0 <= s -> s + 7 * Z.of_nat (length bs + 1) < 64 ->
  exists v,
    readVarInt_loop (bs ++ [b] ++ rest) acc s = (v, (length bs + 1)%nat) /\
    readVarInt_loop (bs ++ [Z.lor b 0x80; 0] ++ rest) acc s =
      (v, (length bs + 2)%nat).
Proof.
  intros Hbs Hb. induction Hbs as [|x bs Hx _ IH]; intros acc s Hs Hl.
  - cbn [app readVarInt_loop length Nat.add].
    rewrite Hb, land_lor_80_7F. cbn [Z.eqb].
    pose proof (lor_80_continues b) as C. unfold continues in C. rewrite C.
    change (Z.land 0 0x80 =? 0) with true. cbn iota.
    rewrite shl64_zero by (cbn [length Nat.add] in Hl; lia).
    rewrite Z.lor_0_r. eauto.
  - cbn [app readVarInt_loop length Nat.add]. unfold continues in Hx.
    rewrite Hx.
    destruct (IH (Z.lor acc (shl64 (Z.land x 0x7F) s)) (s + 7)) as (v & E1 & E2).
    + lia.
    + cbn [length Nat.add] in Hl. lia.
    + cbn [app] in E1, E2. rewrite E1, E2. eauto.
Qed.

(** X14.  [readVarInt] does not insist on the shortest form: a varint of
    fewer than nine bytes whose last byte is given the continuation bit
    and followed by a zero byte reads as the same value, one byte
    further on.  So bytes [encodeVarInt] never writes are accepted, and
    different files can decode to the same records. *)
Theorem readVarInt_padded (M : Machine) (r1 r2 : VarIntReader)
    (bs : list Z) (b : Z) (rest : list Z) :
  Forall continues bs -> Z.land b 0x80 = 0 -> (length bs < 8)%nat ->
  unread r1 = bs ++ [b] ++ rest ->
  unread r2 = bs ++ [Z.lor b 0x80; 0] ++ rest ->
  fst (readVarInt r1) = fst (readVarInt r2) /\
  unread (snd (readVarInt r1)) = rest /\
  unread (snd (readVarInt r2)) = rest.
Proof.
  intros Hbs Hb Hl U1 U2.
  destruct (readVarInt_loop_padded bs b rest Hbs Hb 0 0) as (v & E1 & E2);
    [lia|lia|].
  unfold readVarInt. fold (unread r1) (unread r2). rewrite U1, U2, E1, E2.
  cbn [fst snd]. split; [reflexivity|].
  rewrite !unread_advance, U1, U2. split.
  - rewrite app_assoc, skipn_app.
    replace (length bs + 1)%nat with (length (bs ++ [b]))
      by (rewrite length_app; reflexivity).
    now rewrite skipn_all, Nat.sub_diag.
  - change (bs ++ [Z.lor b 0x80; 0] ++ rest)
      with (bs ++ ([Z.lor b 0x80; 0] ++ rest)).
    rewrite app_assoc, skipn_app.
    replace (length bs + 2)%nat with (length (bs ++ [Z.lor b 0x80; 0]))
      by (rewrite length_app; reflexivity).
    now rewrite skipn_all, Nat.sub_diag.
Qed.

Lemma readVarInt_padded_witness :
  fst (@readVarInt masking_machine {| buffer_ := [172; 2]; pos_ := 0 |}) =
  fst (@readVarInt masking_machine {| buffer_ := [172; 130; 0]; pos_ := 0 |}).
Proof.
  refine (proj1 (readVarInt_padded masking_machine
                   {| buffer_ := [172; 2]; pos_ := 0 |}
                   {| buffer_ := [172; 130; 0]; pos_ := 0 |}
                   [172] 2 [] _ eq_refl _ eq_refl eq_refl)).
  - repeat constructor.
  - cbn. lia.
Defined.
